(** * Dependency validation, event emitter and auto-mode scheduler

    A shallow embedding of the dependency-graph helpers of the board view
    ([wouldCreateCircularDependency], [hasPathBetweenFeatures],
    [validateDependencies], [getAllDependencies], [getAllDependents]), of the
    server's [createEventEmitter], and a model of the auto-mode scheduler as
    the specification describes it; further the dependency selector, the
    model resolver and model tables, the text and path helpers, the
    selection state of a board column, and the request handlers for
    terminal clean-up and title generation. *)

From stdpp Require Import base option strings pretty list gmap sets relations sorting.

Open Scope string_scope.
Open Scope list_scope.
Open Scope nat_scope.

(** ** Data model *)

(** [status] of a feature (spec, section 3). *)
Inductive FeatureStatus :=
  | backlog | in_progress | waiting_approval | completed
  | verified | failed | archived.

#[global] Instance FeatureStatus_eq_dec : EqDecision FeatureStatus.
Proof. solve_decision. Defined.

(** The fields of [Feature] that the modelled code reads.  [title] and
    [dependencies] are optional in the source ([depFeature?.title],
    [feature.dependencies || []]). *)
Record Feature := mkFeature {
  id : string;
  title : option string;
  status : FeatureStatus;
  priority : nat;
  createdAt : nat;
  dependencies : option (list string)
}.

(** [feature.dependencies || []] *)
Definition deps_or_empty (feature : Feature) : list string :=
  default [] (dependencies feature).

(** [arr.includes(x)] on an array of strings. *)
Definition includes (x : string) (arr : list string) : bool :=
  bool_decide (x ∈ arr).

(** [const featureMap = new Map(); allFeatures.forEach(f => featureMap.set(f.id, f))]:
    a later feature with the same id overwrites an earlier one. *)
Definition featureMap (allFeatures : list Feature) : gmap string Feature :=
  foldl (λ m feature, <[id feature := feature]> m) ∅ allFeatures.

(** ** Loops of the source

    [for (const x of xs) { if (f(x)) return true; } return false;] where the
    call may run out of fuel. *)
Definition first_true {A} (f : A → option bool) : list A → option bool :=
  fix loop (xs : list A) : option bool :=
    match xs with
    | [] => Some false
    | x :: xs' =>
      match f x with
      | None => None
      | Some true => Some true
      | Some false => loop xs'
      end
    end.

(** [for (const x of xs) { body(x); }] where the body updates the state
    shared by the iterations and may run out of fuel. *)
Definition for_each {A St} (body : A → St → option St) : list A → St → option St :=
  fix loop (xs : list A) (st : St) : option St :=
    match xs with
    | [] => Some st
    | x :: xs' =>
      match body x st with
      | None => None
      | Some st' => loop xs' st'
      end
    end.

(** ** Cycle detection *)

Module DependencyValidation.

(** [hasPathBetweenFeatures].  The recursion of the source is not structural,
    so the embedding carries [fuel]: [None] means the fuel ran out, [Some b]
    is the value the source returns.  Each recursive call receives
    [new Set(visited)], a copy taken after [visited.add(startFeatureId)], so
    the callee's additions are never seen by the caller. *)
Fixpoint hasPathBetweenFeatures (fuel : nat) (startFeatureId targetFeatureId : string)
    (fm : gmap string Feature) (additionalDependencies : list string)
    (visited : gset string) : option bool :=
  match fuel with
  | O => None
  | S fuel' =>
    if decide (startFeatureId ∈ visited) then Some false
    else
      let visited' := {[startFeatureId]} ∪ visited in
      match fm !! startFeatureId with
      | None => Some false
      | Some feature =>
        let deps := deps_or_empty feature ++ additionalDependencies in
        if includes targetFeatureId deps then Some true
        else
          first_true
            (λ depId, hasPathBetweenFeatures fuel' depId targetFeatureId fm [] visited')
            deps
      end
  end.

(** [wouldCreateCircularDependency]; the default [visited] is [new Set()]. *)
Definition wouldCreateCircularDependency (fuel : nat)
    (currentFeatureId newDependencyId : string) (allFeatures : list Feature)
    (existingDependencies : list string) : option bool :=
  if decide (currentFeatureId = newDependencyId) then Some true
  else hasPathBetweenFeatures fuel newDependencyId currentFeatureId
         (featureMap allFeatures) existingDependencies ∅.

Record ValidationResult := mkResult { valid : bool; errors : list string }.

Definition quote_char : string := String (Ascii.ascii_of_nat 34) EmptyString.

Definition self_dependency_error : string := "A feature cannot depend on itself".
Definition duplicate_error : string := "Duplicate dependencies are not allowed".

(** [`Adding dependency "${depTitle}" would create a circular dependency`] *)
Definition circular_error (depTitle : string) : string :=
  "Adding dependency " +:+ quote_char +:+ depTitle +:+ quote_char
    +:+ " would create a circular dependency".

(** [allFeatures.find((f) => f.id === depId)]: the first match. *)
Definition find_feature (depId : string) (allFeatures : list Feature) : option Feature :=
  List.find (λ f, bool_decide (id f = depId)) allFeatures.

(** [depFeature?.title || `Feature ${depId.slice(0, 8)}...`]: an absent or
    empty title is falsy. *)
Definition depTitle_of (depId : string) (allFeatures : list Feature) : string :=
  let fallback := "Feature " +:+ String.substring 0 8 depId +:+ "..." in
  match find_feature depId allFeatures with
  | Some f =>
    match title f with
    | Some t => if decide (t = EmptyString) then fallback else t
    | None => fallback
    end
  | None => fallback
  end.

(** The [for (const depId of dependencies)] loop of [validateDependencies],
    threading the [errors] array. *)
Fixpoint circular_checks (fuel : nat) (currentFeatureId : string)
    (dependencies : list string) (allFeatures : list Feature)
    (todo : list string) (errs : list string) : option (list string) :=
  match todo with
  | [] => Some errs
  | depId :: todo' =>
    if decide (depId = currentFeatureId) then
      circular_checks fuel currentFeatureId dependencies allFeatures todo' errs
    else
      match wouldCreateCircularDependency fuel currentFeatureId depId allFeatures
              (filter (λ i, i ≠ depId) dependencies) with
      | None => None
      | Some true =>
        circular_checks fuel currentFeatureId dependencies allFeatures todo'
          (errs ++ [circular_error (depTitle_of depId allFeatures)])
      | Some false =>
        circular_checks fuel currentFeatureId dependencies allFeatures todo' errs
      end
  end.

(** [validateDependencies].  [new Set(dependencies).size] is the number of
    distinct entries. *)
Definition validateDependencies (fuel : nat) (currentFeatureId : string)
    (dependencies : list string) (allFeatures : list Feature)
    : option ValidationResult :=
  let errors0 :=
    if includes currentFeatureId dependencies then [self_dependency_error] else [] in
  let uniqueDependencies := remove_dups dependencies in
  let errors1 :=
    if decide (length uniqueDependencies ≠ length dependencies)
    then errors0 ++ [duplicate_error] else errors0 in
  match circular_checks fuel currentFeatureId dependencies allFeatures
          dependencies errors1 with
  | None => None
  | Some errs => Some (mkResult (bool_decide (length errs = 0)) errs)
  end.

(** Fuel that always suffices for the cycle check: one more than the number
    of features. *)
Definition validation_fuel (allFeatures : list Feature) : nat :=
  S (length allFeatures).

End DependencyValidation.

(** ** Transitive closures *)

Module DependencyClosure.

(** The two [Set]s that the inner function of [getAllDependencies] and of
    [getAllDependents] closes over: [visited], and the result set
    ([allDeps], [dependents]) in insertion order, which is the order of
    [Array.from]. *)
Record Collected := mkCollected { visited : gset string; found : list string }.

Definition mark_visited (i : string) (st : Collected) : Collected :=
  mkCollected ({[i]} ∪ visited st) (found st).

(** [set.add(i)] for an [i] that the set does not hold yet. *)
Definition add_found (i : string) (st : Collected) : Collected :=
  mkCollected (visited st) (found st ++ [i]).

(** [collectDependencies], the inner function of [getAllDependencies]. *)
Fixpoint collectDependencies (fuel : nat) (fm : gmap string Feature)
    (currentId : string) (st : Collected) : option Collected :=
  match fuel with
  | O => None
  | S fuel' =>
    if decide (currentId ∈ visited st) then Some st
    else
      let st1 := mark_visited currentId st in
      match fm !! currentId with
      | None => Some st1
      | Some feature =>
        match dependencies feature with
        | None => Some st1
        | Some deps =>
          for_each
            (λ depId st,
               if decide (depId ∈ found st) then Some st
               else collectDependencies fuel' fm depId (add_found depId st))
            deps st1
        end
      end
  end.

Definition getAllDependencies (fuel : nat) (featureId : string)
    (allFeatures : list Feature) : option (list string) :=
  found <$> collectDependencies fuel (featureMap allFeatures) featureId
              (mkCollected ∅ []).

(** [feature.dependencies?.includes(targetId)] *)
Definition depends_directly (feature : Feature) (targetId : string) : bool :=
  match dependencies feature with
  | Some deps => includes targetId deps
  | None => false
  end.

(** [collectDependents], the inner function of [getAllDependents]. *)
Fixpoint collectDependents (fuel : nat) (allFeatures : list Feature)
    (targetId : string) (st : Collected) : option Collected :=
  match fuel with
  | O => None
  | S fuel' =>
    if decide (targetId ∈ visited st) then Some st
    else
      let st1 := mark_visited targetId st in
      for_each
        (λ feature st,
           if depends_directly feature targetId
              && negb (bool_decide (id feature ∈ found st))
           then collectDependents fuel' allFeatures (id feature)
                  (add_found (id feature) st)
           else Some st)
        allFeatures st1
  end.

Definition getAllDependents (fuel : nat) (featureId : string)
    (allFeatures : list Feature) : option (list string) :=
  found <$> collectDependents fuel allFeatures featureId (mkCollected ∅ []).

(** Fuel that always suffices: the recursion enters each id at most once,
    and every id it enters is the root, a listed dependency (for
    [getAllDependencies]) or the id of a feature (for [getAllDependents]). *)
Definition listed_dependencies (allFeatures : list Feature) : list string :=
  allFeatures ≫= deps_or_empty.

Definition dependencies_fuel (allFeatures : list Feature) : nat :=
  2 + length (listed_dependencies allFeatures).

Definition dependents_fuel (allFeatures : list Feature) : nat :=
  2 + length allFeatures.

(** Both traversals are instances of one depth-first search over a
    successor function; the proofs go through it. *)
Fixpoint dfs (succs : string → list string) (fuel : nat) (cur : string)
    (st : Collected) : option Collected :=
  match fuel with
  | O => None
  | S fuel' =>
    if decide (cur ∈ visited st) then Some st
    else
      for_each
        (λ d st,
           if decide (d ∈ found st) then Some st
           else dfs succs fuel' d (add_found d st))
        (succs cur) (mark_visited cur st)
  end.

Definition dependency_succs (fm : gmap string Feature) (i : string) : list string :=
  match fm !! i with
  | Some feature => deps_or_empty feature
  | None => []
  end.

Definition dependent_succs (allFeatures : list Feature) (i : string) : list string :=
  id <$> filter (λ feature, i ∈ deps_or_empty feature) allFeatures.

End DependencyClosure.

(** ** The dependency graph of a feature list *)

(** [depends_on allFeatures a b]: some feature with id [a] lists [b] among
    its dependencies. *)
Definition depends_on (allFeatures : list Feature) (a b : string) : Prop :=
  ∃ feature, feature ∈ allFeatures ∧ id feature = a ∧ b ∈ deps_or_empty feature.

(** Ids are unique within a feature set (spec, section 3). *)
Definition unique_ids (allFeatures : list Feature) : Prop :=
  NoDup (id <$> allFeatures).

(** The graph that results from committing [proposed] as the dependencies of
    [candidateId]: the candidate's edges are replaced, all others kept. *)
Definition resulting_edge (allFeatures : list Feature) (candidateId : string)
    (proposed : list string) (a b : string) : Prop :=
  (a = candidateId ∧ b ∈ proposed) ∨ (a ≠ candidateId ∧ depends_on allFeatures a b).

Definition acyclic (R : relation string) : Prop := ∀ x, ¬ tc R x x.

(** ** Event emitter *)

Module EventEmitter.
Section Emitter.
Context {EventType Payload Error World : Type}.

(** How a call completes: it returns, or it throws [e]. *)
Inductive Completion := Normal | Throw (e : Error).

(** What the body of a callback can do, one step at a time: change the rest
    of the program state, call [subscribe] of the emitter, call a function
    that [subscribe] returned, or call [emit] of the emitter.  None of these
    calls hands a value back, so what the callback does next depends on the
    program state only. *)
Inductive Action :=
  | SetWorld (w : World)
  | CallSubscribe (callback : nat)
  | CallUnsubscribe (callback : nat)
  | CallEmit (type : EventType) (payload : Payload).

Inductive Script :=
  | Finish (c : Completion)
  | Act (a : Action) (next : World → Script).

(** A callback is a function object, identified by its reference;
    [behaviour r type payload w] is what calling the object [r] does when
    the rest of the program state is [w]. *)
Variable behaviour : nat → EventType → Payload → World → Script.

(** [console.error("Error in event subscriber:", error)], which is taken
    to return. *)
Variable console_error : Error → World → World.

(** [subscribers.add(callback)]: a [Set] in insertion order. *)
Definition subscribe (callback : nat) (subscribers : list nat) : list nat :=
  if decide (callback ∈ subscribers) then subscribers else subscribers ++ [callback].

(** The function returned by [subscribe]: [subscribers.delete(callback)]. *)
Definition unsubscribe (callback : nat) (subscribers : list nat) : list nat :=
  filter (λ r, r ≠ callback) subscribers.

(** The [Set] as an iteration that is under way sees it: its entries in
    insertion order, where [delete] leaves an empty entry behind, which the
    iteration skips, and [add] appends, so that the iteration reaches the
    new entry.  [live] gives the subscribed callbacks. *)
Definition live (entries : list (option nat)) : list nat :=
  omap (λ entry, entry) entries.

Definition add (callback : nat) (entries : list (option nat))
    : list (option nat) :=
  if decide (callback ∈ live entries) then entries
  else entries ++ [Some callback].

Definition delete (callback : nat) (entries : list (option nat))
    : list (option nat) :=
  (λ entry, if decide (entry = Some callback) then None else entry) <$> entries.

(** The program state: the state outside the emitter, the entries of
    [subscribers], and the callbacks called so far, in order. *)
Record State := mkState {
  world : World;
  entries : list (option nat);
  invoked : list nat
}.

Definition set_world (w : World) (st : State) : State :=
  mkState w (entries st) (invoked st).

Definition set_entries (es : list (option nat)) (st : State) : State :=
  mkState (world st) es (invoked st).

Definition called (callback : nat) (st : State) : State :=
  mkState (world st) (entries st) (invoked st ++ [callback]).

(** The body of a callback, run to its end; [emit] is the emitter's method,
    and an exception that leaves it leaves the callback too.  [None] when
    the fuel does not suffice. *)
Fixpoint run_script
    (emit : EventType → Payload → State → option (State * Completion))
    (s : Script) (st : State) : option (State * Completion) :=
  match s with
  | Finish c => Some (st, c)
  | Act (SetWorld w) next => run_script emit (next w) (set_world w st)
  | Act (CallSubscribe callback) next =>
    run_script emit (next (world st)) (set_entries (add callback (entries st)) st)
  | Act (CallUnsubscribe callback) next =>
    run_script emit (next (world st))
      (set_entries (delete callback (entries st)) st)
  | Act (CallEmit type payload) next =>
    match emit type payload st with
    | None => None
    | Some (st', Normal) => run_script emit (next (world st')) st'
    | Some (st', Throw e) => Some (st', Throw e)
    end
  end.

(** [try { body } catch (error) { handler(error) }] *)
Definition try_catch (body : State → option (State * Completion))
    (handler : Error → State → State * Completion) (st : State)
    : option (State * Completion) :=
  match body st with
  | None => None
  | Some (st', Normal) => Some (st', Normal)
  | Some (st', Throw e) => Some (handler e st')
  end.

(** The [for (const callback of subscribers)] loop of [emit], from the
    entry at [index] on: the iteration reads the entries as they are when it
    gets to them.  A statement of the body that throws ends the loop and
    [emit].  The fuel bounds the number of entries visited plus the depth
    of [emit] calls made by callbacks; a callback that removes and adds
    itself again is visited anew without end. *)
Fixpoint emit_loop (fuel : nat) (type : EventType) (payload : Payload)
    (index : nat) (st : State) : option (State * Completion) :=
  match fuel with
  | 0 => None
  | S fuel' =>
    match entries st !! index with
    | None => Some (st, Normal)
    | Some None => emit_loop fuel' type payload (S index) st
    | Some (Some callback) =>
      match try_catch
              (λ st, run_script (λ type' payload', emit_loop fuel' type' payload' 0)
                       (behaviour callback type payload (world st))
                       (called callback st))
              (λ error st, (set_world (console_error error (world st)) st, Normal))
              st with
      | None => None
      | Some (st', Normal) => emit_loop fuel' type payload (S index) st'
      | Some (st', Throw e) => Some (st', Throw e)
      end
    end
  end.

Definition emit (fuel : nat) (type : EventType) (payload : Payload)
    (st : State) : option (State * Completion) :=
  emit_loop fuel type payload 0 st.

End Emitter.
End EventEmitter.

(** ** Auto-mode scheduler *)

Module Scheduler.

(** Modelled from the spec: the outcome of one dispatch attempt.  The
    auto-mode service is not among the sources; section 4.2 says that the
    Feature Store update or the Agent Runner start may throw. *)
Inductive DispatchOutcome := DispatchOk | StoreUpdateThrows | RunnerStartThrows.

(** Modelled from the spec: the scheduler state of section 3 ([enabled],
    [concurrencyLimit], [activeSet]) together with the contents of the
    Feature Store.  Session handles are opaque, so [activeSet] keeps the ids. *)
Record SchedulerState := mkState {
  store : list Feature;
  enabled : bool;
  concurrencyLimit : nat;
  activeSet : gset string
}.

(** Modelled from the spec: a feature record with its status replaced, the
    write of [updateStatus]. *)
Definition with_status (st : FeatureStatus) (f : Feature) : Feature :=
  mkFeature (id f) (title f) st (priority f) (createdAt f) (dependencies f).

(** Modelled from the spec: [updateStatus(id, newStatus)] of the Feature Store. *)
Definition set_status (fid : string) (st : FeatureStatus)
    (features : list Feature) : list Feature :=
  (λ f, if decide (id f = fid) then with_status st f else f) <$> features.

(** Modelled from the spec: [get(id)] of the Feature Store, read for the status. *)
Definition status_of (features : list Feature) (fid : string) : option FeatureStatus :=
  status <$> List.find (λ f, bool_decide (id f = fid)) features.

(** Modelled from the spec: a dependency is satisfied when its status is
    [completed] or [verified] (section 4.1). *)
Definition satisfied (features : list Feature) (dep : string) : bool :=
  match status_of features dep with
  | Some completed | Some verified => true
  | _ => false
  end.

(** Modelled from the spec: the eligibility rule of section 4.1. *)
Definition eligible (features : list Feature) (f : Feature) : bool :=
  bool_decide (status f = backlog) && forallb (satisfied features) (deps_or_empty f).

(** Modelled from the spec: step 3 of the core loop, the eligible features
    that are not already in [activeSet]. *)
Definition candidate (s : SchedulerState) (f : Feature) : bool :=
  eligible (store s) f && negb (bool_decide (id f ∈ activeSet s)).

(** Modelled from the spec: step 4, the order [(priority ascending,
    createdAt ascending)], as a stable insertion sort. *)
Definition dispatch_before (f g : Feature) : bool :=
  (priority f <? priority g)%nat
  || ((priority f =? priority g)%nat && (createdAt f <=? createdAt g)%nat).

Fixpoint insert_ordered (f : Feature) (l : list Feature) : list Feature :=
  match l with
  | [] => [f]
  | g :: l' => if dispatch_before f g then f :: g :: l' else g :: insert_ordered f l'
  end.

Definition order_eligible (l : list Feature) : list Feature :=
  foldr insert_ordered [] l.

(** Modelled from the spec: step 5 for one feature, with the error handling
    of section 4.2.  The store is written first, then the feature enters
    [activeSet], then the session is started; a throw of the store leaves
    both untouched, a throw of the runner is followed by the revert. *)
Definition dispatch (env : string → DispatchOutcome) (s : SchedulerState)
    (f : Feature) : SchedulerState :=
  match env (id f) with
  | StoreUpdateThrows => s
  | outcome =>
    let s1 := mkState (set_status (id f) in_progress (store s)) (enabled s)
                (concurrencyLimit s) ({[id f]} ∪ activeSet s) in
    match outcome with
    | DispatchOk => s1
    | _ => mkState (set_status (id f) backlog (store s1)) (enabled s1)
             (concurrencyLimit s1) (activeSet s1 ∖ {[id f]})
    end
  end.

(** Modelled from the spec: step 2. *)
Definition availableSlots (s : SchedulerState) : Z :=
  (Z.of_nat (concurrencyLimit s) - Z.of_nat (size (activeSet s)))%Z.

(** Modelled from the spec: the features that one scheduling pass tries to
    dispatch, the first [availableSlots] of the ordered eligible set (steps 3
    to 5). *)
Definition chosen (s : SchedulerState) : list Feature :=
  take (Z.to_nat (availableSlots s))
       (order_eligible (filter (λ f, candidate s f = true) (store s))).

(** Modelled from the spec: one scheduling pass, steps 2 to 5 of the core
    loop, executed as a single critical section (section 5). *)
Definition schedule (env : string → DispatchOutcome) (s : SchedulerState)
    : SchedulerState :=
  if bool_decide (availableSlots s ≤ 0)%Z || negb (enabled s) then s
  else foldl (dispatch env) s (chosen s).

(** Modelled from the spec: the triggers of step 1 and the operations of the
    control surface (section 4.3). *)
Inductive Trigger :=
  | Enable
  | Disable
  | SetConcurrency (n : Z)
  | StatusChanged (fid : string) (st : FeatureStatus)
  | SessionSucceeded (fid : string)
  | SessionFailed (fid : string).

(** Modelled from the spec: what a trigger changes before the loop is
    re-triggered (steps 6 and 7, section 4.3).  A terminal event of a
    feature that has no session is ignored. *)
Definition apply_trigger (s : SchedulerState) (t : Trigger) : SchedulerState :=
  match t with
  | Enable => mkState (store s) true (concurrencyLimit s) (activeSet s)
  | Disable => mkState (store s) false (concurrencyLimit s) (activeSet s)
  | SetConcurrency n =>
    if bool_decide (1 ≤ n)%Z
    then mkState (store s) (enabled s) (Z.to_nat n) (activeSet s)
    else s
  | StatusChanged fid st =>
    mkState (set_status fid st (store s)) (enabled s) (concurrencyLimit s) (activeSet s)
  | SessionSucceeded fid =>
    if bool_decide (fid ∈ activeSet s)
    then mkState (set_status fid waiting_approval (store s)) (enabled s)
           (concurrencyLimit s) (activeSet s ∖ {[fid]})
    else s
  | SessionFailed fid =>
    if bool_decide (fid ∈ activeSet s)
    then mkState (set_status fid failed (store s)) (enabled s)
           (concurrencyLimit s) (activeSet s ∖ {[fid]})
    else s
  end.

(** Modelled from the spec: whether the trigger re-triggers the loop;
    [disable()], a rejected [setConcurrency] and an ignored terminal event do
    not. *)
Definition retriggers (s : SchedulerState) (t : Trigger) : bool :=
  match t with
  | Enable | StatusChanged _ _ => true
  | Disable => false
  | SetConcurrency n => bool_decide (1 ≤ n)%Z
  | SessionSucceeded fid | SessionFailed fid => bool_decide (fid ∈ activeSet s)
  end.

(** Modelled from the spec: the scheduler's reaction to one trigger. *)
Definition step (env : string → DispatchOutcome) (s : SchedulerState)
    (t : Trigger) : SchedulerState :=
  if retriggers s t then schedule env (apply_trigger s t) else apply_trigger s t.

(** The states observed along a sequence of triggers, each with the
    outcomes of the dispatches it causes. *)
Fixpoint run (s : SchedulerState) (trace : list ((string → DispatchOutcome) * Trigger))
    : list SchedulerState :=
  match trace with
  | [] => [s]
  | (env, t) :: trace' => s :: run (step env s t) trace'
  end.

(** [|activeSet| ≤ concurrencyLimit] *)
Definition within_limit (s : SchedulerState) : Prop :=
  size (activeSet s) ≤ concurrencyLimit s.

(** No [setConcurrency] of the trace sets the limit below the number of
    sessions active when it is called. *)
Fixpoint never_cut_below_active (s : SchedulerState)
    (trace : list ((string → DispatchOutcome) * Trigger)) : Prop :=
  match trace with
  | [] => True
  | (env, t) :: trace' =>
    match t with
    | SetConcurrency n => (1 ≤ n)%Z → (Z.of_nat (size (activeSet s)) ≤ n)%Z
    | _ => True
    end ∧ never_cut_below_active (step env s t) trace'
  end.

Definition in_progress_count (s : SchedulerState) : nat :=
  length (filter (λ f, status f = in_progress) (store s)).

(** Modelled from the spec: a running session emits its terminal event; the
    scheduler reacts to the success of a session it has in [activeSet]
    (section 6: a session emits exactly one terminal event). *)
Definition finish_one (env : string → DispatchOutcome) (s : SchedulerState)
    : SchedulerState :=
  match elements (activeSet s) with
  | [] => s
  | fid :: _ => step env s (SessionSucceeded fid)
  end.

(** Every dispatch succeeds. *)
Definition always_ok : string → DispatchOutcome := λ _, DispatchOk.

(** The drain-and-refill run: auto mode is enabled with limit 1 on the store
    [st0], then [k] sessions, one after the other, report success. *)
Definition drain_run (st0 : list Feature) (k : nat) : SchedulerState :=
  Nat.iter k (finish_one always_ok)
    (step always_ok (mkState st0 false 1 ∅) Enable).

(** The runner fails to start for feature [A]; every other dispatch succeeds. *)
Definition runner_fails_for_A : string → DispatchOutcome :=
  λ fid, if decide (fid = "A") then RunnerStartThrows else DispatchOk.

(** A backlog feature without dependencies, for the examples. *)
Definition backlog_feature (i : string) (prio created : nat) : Feature :=
  mkFeature i None backlog prio created (Some []).

(** A store in which [A], of the highest priority, depends on [X]. *)
Definition gated_store : list Feature :=
  [mkFeature "A" None backlog 1 1 (Some ["X"]);
   backlog_feature "X" 2 2; backlog_feature "B" 2 3].

(** The literal scenario: features A to E, created in this order, with equal
    priority and no dependencies; the store lists them in another order. *)
Definition five_features : list Feature :=
  [backlog_feature "A" 2 1; backlog_feature "B" 2 2; backlog_feature "C" 2 3;
   backlog_feature "D" 2 4; backlog_feature "E" 2 5].

Definition five_stored : list Feature :=
  [backlog_feature "E" 2 5; backlog_feature "D" 2 4; backlog_feature "C" 2 3;
   backlog_feature "B" 2 2; backlog_feature "A" 2 1].

End Scheduler.

(** ** Graph notions used by the proofs *)

(** The edges that the code sees through the feature map. *)
Definition map_edge (fm : gmap string Feature) (a b : string) : Prop :=
  ∃ feature, fm !! a = Some feature ∧ b ∈ deps_or_empty feature.

(** [chain R s l t]: [s], then the nodes of [l], then [t], each related to
    the next. *)
Fixpoint chain (R : relation string) (s : string) (l : list string) (t : string) : Prop :=
  match l with
  | [] => R s t
  | d :: l' => R s d ∧ chain R d l' t
  end.

(** [avoiding fm V s t]: a path of [map_edge] from [s] to [t] whose nodes
    before [t] are pairwise distinct and outside [V]; these are the paths
    that [hasPathBetweenFeatures] explores. *)
Inductive avoiding (fm : gmap string Feature) : gset string → string → string → Prop :=
  | avoiding_last V s t feature :
      s ∉ V → fm !! s = Some feature → t ∈ deps_or_empty feature →
      avoiding fm V s t
  | avoiding_step V s d t feature :
      s ∉ V → fm !! s = Some feature → d ∈ deps_or_empty feature →
      avoiding fm ({[s]} ∪ V) d t →
      avoiding fm V s t.

(** The proposed dependencies for which [validateDependencies] reports a
    circular dependency. *)
Definition flagged (fuel : nat) (currentFeatureId : string)
    (dependencies : list string) (allFeatures : list Feature) (depId : string) : Prop :=
  depId ≠ currentFeatureId
  ∧ DependencyValidation.wouldCreateCircularDependency fuel currentFeatureId depId
      allFeatures (filter (λ i, i ≠ depId) dependencies) = Some true.

#[global] Instance flagged_dec fuel cur deps allFeatures d :
  Decision (flagged fuel cur deps allFeatures d).
Proof. unfold flagged. apply _. Defined.

(** [createFeature(id, dependencies)] of the test-suite of the validator. *)
Definition createFeature (i : string) (deps : list string) : Feature :=
  mkFeature i None backlog 2 0 (Some deps).

(** The errors that [validateDependencies] pushes before its loop, and those
    pushed by the loop. *)
Definition base_errors (currentFeatureId : string) (dependencies : list string)
    : list string :=
  if decide (length (remove_dups dependencies) ≠ length dependencies)
  then (if includes currentFeatureId dependencies
        then [DependencyValidation.self_dependency_error] else [])
         ++ [DependencyValidation.duplicate_error]
  else (if includes currentFeatureId dependencies
        then [DependencyValidation.self_dependency_error] else []).

Definition circular_errors (fuel : nat) (currentFeatureId : string)
    (dependencies : list string) (allFeatures : list Feature) : list string :=
  (λ d, DependencyValidation.circular_error
          (DependencyValidation.depTitle_of d allFeatures))
    <$> filter (flagged fuel currentFeatureId dependencies allFeatures) dependencies.

(** What a terminated traversal guarantees about the two sets, for a
    successor function [succs]. *)
Definition grows (st st' : DependencyClosure.Collected) : Prop :=
  DependencyClosure.visited st ⊆ DependencyClosure.visited st'
  ∧ ∀ x, x ∈ DependencyClosure.found st → x ∈ DependencyClosure.found st'.

(** Every id entered by the traversal has all its successors recorded. *)
Definition closed_new (succs : string → list string)
    (st st' : DependencyClosure.Collected) : Prop :=
  ∀ v, v ∈ DependencyClosure.visited st' → v ∉ DependencyClosure.visited st →
       ∀ d, d ∈ succs v → d ∈ DependencyClosure.found st'.

Definition found_visited (st : DependencyClosure.Collected) : Prop :=
  ∀ x, x ∈ DependencyClosure.found st → x ∈ DependencyClosure.visited st.

(** [succ_rel succs a b]: [b] is a successor of [a]. *)
Definition succ_rel (succs : string → list string) (a b : string) : Prop :=
  b ∈ succs a.

(** The postcondition of [dfs succs fuel cur st = Some st']. *)
Definition dfs_post (succs : string → list string) (cur : string)
    (st st' : DependencyClosure.Collected) : Prop :=
  grows st st'
  ∧ cur ∈ DependencyClosure.visited st'
  ∧ closed_new succs st st'
  ∧ ((∀ x, x ∈ DependencyClosure.found st →
           x ∈ DependencyClosure.visited st ∨ x = cur) → found_visited st')
  ∧ (∀ x, x ∈ DependencyClosure.found st' →
          x ∈ DependencyClosure.found st ∨ tc (succ_rel succs) cur x)
  ∧ (NoDup (DependencyClosure.found st) → NoDup (DependencyClosure.found st')).

(** The postcondition of the loop over the successors [ds]. *)
Definition loop_post (succs : string → list string) (ds : list string)
    (st st' : DependencyClosure.Collected) : Prop :=
  grows st st'
  ∧ (∀ d, d ∈ ds → d ∈ DependencyClosure.found st')
  ∧ closed_new succs st st'
  ∧ (found_visited st → found_visited st')
  ∧ (∀ x, x ∈ DependencyClosure.found st' →
          x ∈ DependencyClosure.found st
          ∨ ∃ d, d ∈ ds ∧ (x = d ∨ tc (succ_rel succs) d x))
  ∧ (NoDup (DependencyClosure.found st) → NoDup (DependencyClosure.found st')).

(** The body of the loop of [dfs]. *)
Definition visit (succs : string → list string) (fuel : nat) (d : string)
    (st : DependencyClosure.Collected) : option DependencyClosure.Collected :=
  if decide (d ∈ DependencyClosure.found st) then Some st
  else DependencyClosure.dfs succs fuel d (DependencyClosure.add_found d st).

(** ** Callbacks and the emitter *)

Module EmitterSpec.
Import EventEmitter.
Section Scripts.
Context {EventType Payload Error World : Type}.
Variable behaviour :
  nat → EventType → Payload → World → @Script EventType Payload Error World.
Variable console_error : Error → World → World.


(** A callback body that does not add to the emitter's work: it may
    unsubscribe, but neither subscribes nor emits. *)
Inductive quiet : @Script EventType Payload Error World → Prop :=
  | quiet_finish c : quiet (Finish c)
  | quiet_set w next : quiet (next w) → quiet (Act (SetWorld w) next)
  | quiet_unsubscribe callback next :
      (∀ w, quiet (next w)) → quiet (Act (CallUnsubscribe callback) next).



End Scripts.

(** [now] has the entries of [before], some of them deleted. *)
Definition shrunk (before now : list (option nat)) : Prop :=
  Forall2 (λ b n, n = b ∨ n = None) before now.

(** Three subscribers for the examples: the second one throws. *)
Definition sample_behaviour (callback : nat) (type : string) (payload : nat)
    (log : list string) : @Script string nat string (list string) :=
  match callback with
  | 1 => Act (SetWorld (log ++ ["first got " +:+ type])) (λ _, Finish Normal)
  | 2 => Act (SetWorld (log ++ ["second got " +:+ type]))
           (λ _, Finish (Throw "boom"))
  | _ => Act (SetWorld (log ++ ["third got " +:+ type])) (λ _, Finish Normal)
  end.

Definition sample_console_error (error : string) (log : list string) : list string :=
  log ++ ["Error in event subscriber: " +:+ error].

(** Two subscribers of which the first, when called, calls the function
    that [subscribe] returned for the second. *)
Definition meddling_behaviour (callback : nat) (type : string) (payload : nat)
    (log : list string) : @Script string nat string (list string) :=
  match callback with
  | 1 => Act (CallUnsubscribe 2)
           (λ log, Act (SetWorld (log ++ ["first got " +:+ type]))
                     (λ _, Finish Normal))
  | _ => Act (SetWorld (log ++ ["second got " +:+ type])) (λ _, Finish Normal)
  end.

(** A subscriber that, when called, unsubscribes and subscribes itself
    again. *)
Definition restless_behaviour (callback : nat) (type : string) (payload : nat)
    (log : list string) : @Script string nat string (list string) :=
  Act (CallUnsubscribe callback)
    (λ _, Act (CallSubscribe callback) (λ _, Finish Normal)).

End EmitterSpec.

(** The status of [fid] after a dispatch attempt on it, from the status
    before. *)
Definition after_dispatch (env : string → Scheduler.DispatchOutcome) (fid : string)
    (o : option FeatureStatus) : option FeatureStatus :=
  match env fid with
  | Scheduler.DispatchOk => (λ _, in_progress) <$> o
  | Scheduler.RunnerStartThrows => (λ _, backlog) <$> o
  | Scheduler.StoreUpdateThrows => o
  end.

(** Whether [fid] is active after a dispatch attempt on it, from whether it
    was before. *)
Definition active_after (env : string → Scheduler.DispatchOutcome) (fid : string)
    (before : Prop) : Prop :=
  env fid = Scheduler.DispatchOk
  ∨ (env fid = Scheduler.StoreUpdateThrows ∧ before).

(** The store while the features [finished] are done and those of [waiting]
    are not: before the head of [waiting] is dispatched, and after. *)
Definition idle_store (finished waiting : list Feature) : list Feature :=
  (Scheduler.with_status waiting_approval <$> finished) ++ waiting.

Definition busy_store (finished waiting : list Feature) : list Feature :=
  (Scheduler.with_status waiting_approval <$> finished)
  ++ match waiting with
     | [] => []
     | f :: waiting' => Scheduler.with_status in_progress f :: waiting'
     end.

(** The session that runs while [waiting] is being worked off. *)
Definition running (waiting : list Feature) : gset string :=
  match waiting with
  | [] => ∅
  | f :: _ => {[id f]}
  end.

(** [dispatch_before] as a relation. *)
Definition before (f g : Feature) : Prop := Scheduler.dispatch_before f g = true.

(** What the drain-and-refill run keeps true. *)
Definition drain_invariant (finished waiting : list Feature)
    (s : Scheduler.SchedulerState) : Prop :=
  Scheduler.store s ≡ₚ busy_store finished waiting
  ∧ Scheduler.enabled s = true
  ∧ Scheduler.concurrencyLimit s = 1
  ∧ Scheduler.activeSet s = running waiting.

(** ** The dependency selector

    [DependencySelector], the component that calls [validateDependencies]:
    the lists it computes and the lists its two handlers pass to
    [onDependenciesChange]. *)

Module DependencySelector.

(** The statuses that the filter of [availableFeatures] lets through. *)
Definition selectable_status (st : FeatureStatus) : bool :=
  match st with
  | completed | verified | in_progress | waiting_approval | backlog => true
  | _ => false
  end.

(** [availableFeatures]: the features offered in the [Add Dependency] list. *)
Definition availableFeatures (currentFeatureId : string)
    (allFeatures : list Feature) (selectedDependencies : list string)
    : list Feature :=
  filter
    (λ feature,
       negb (bool_decide (id feature = currentFeatureId))
       && negb (includes (id feature) selectedDependencies)
       && selectable_status (status feature) = true)
    allFeatures.

(** [selectedFeatures]: [selectedDependencies.map(id => allFeatures.find(...))]
    without the [undefined] entries. *)
Definition selectedFeatures (allFeatures : list Feature)
    (selectedDependencies : list string) : list Feature :=
  omap (λ i, DependencyValidation.find_feature i allFeatures) selectedDependencies.

(** [handleAddDependency]: the list passed to [onDependenciesChange]. *)
Definition handleAddDependency (selectedDependencies : list string)
    (featureId : string) : list string :=
  selectedDependencies ++ [featureId].

(** [handleRemoveDependency]: the list passed to [onDependenciesChange]. *)
Definition handleRemoveDependency (selectedDependencies : list string)
    (featureId : string) : list string :=
  filter (λ i, i ≠ featureId) selectedDependencies.

(** The selections that the component can produce from the empty one: an
    offered feature is added, or a displayed one is removed; the feature
    list may change between two steps. *)
Inductive produced (currentFeatureId : string) : list string → Prop :=
  | produced_empty : produced currentFeatureId []
  | produced_add selected allFeatures feature :
      produced currentFeatureId selected →
      feature ∈ availableFeatures currentFeatureId allFeatures selected →
      produced currentFeatureId (handleAddDependency selected (id feature))
  | produced_remove selected allFeatures feature :
      produced currentFeatureId selected →
      feature ∈ selectedFeatures allFeatures selected →
      produced currentFeatureId (handleRemoveDependency selected (id feature)).

End DependencySelector.

(** ** Histories of the emitter

    The calls made on one emitter before an [emit]: [subscribe(callback)],
    and the function it returned. *)

Module EmitterHistory.

Inductive Call := Subscribe (callback : nat) | Unsubscribe (callback : nat).

Definition apply_call (subscribers : list nat) (c : Call) : list nat :=
  match c with
  | Subscribe callback => EventEmitter.subscribe callback subscribers
  | Unsubscribe callback => EventEmitter.unsubscribe callback subscribers
  end.

(** The set held by an emitter returned by [createEventEmitter] after the
    calls [history]; it starts as [new Set()]. *)
Definition subscribers_after (history : list Call) : list nat :=
  foldl apply_call [] history.

Definition apply_call_entries (entries : list (option nat)) (c : Call)
    : list (option nat) :=
  match c with
  | Subscribe callback => EventEmitter.add callback entries
  | Unsubscribe callback => EventEmitter.delete callback entries
  end.

(** The entries of that set. *)
Definition entries_after (history : list Call) : list (option nat) :=
  foldl apply_call_entries [] history.

End EmitterHistory.

(** ** JavaScript strings and objects

    A string is the sequence of its code units, each below 256 here. *)

Module Js.

(** The code units of a string. *)
Fixpoint units (s : string) : list Ascii.ascii :=
  match s with
  | EmptyString => []
  | String c rest => c :: units rest
  end.

(** [s.startsWith(needle)] *)
Definition startsWith (needle s : string) : bool := String.prefix needle s.

(** [s.includes(needle)] *)
Fixpoint string_includes (needle s : string) : bool :=
  String.prefix needle s
  || match s with
     | EmptyString => false
     | String _ rest => string_includes needle rest
     end.

(** [s.slice(0, end)] for an integer [end]: a negative [end] counts from
    the end of the string, and the bounds are clamped to the string. *)
Definition slice_from_start (s : string) (end_ : Z) : string :=
  let len := Z.of_nat (String.length s) in
  let final := if (end_ <? 0)%Z then Z.max (len + end_) 0 else Z.min end_ len in
  String.substring 0 (Z.to_nat final) s.

(** The white space and line terminators that [trim] removes, among the
    code units below 256: tab, line feed, vertical tab, form feed, carriage
    return, space and no-break space. *)
Definition is_white_space (c : Ascii.ascii) : bool :=
  bool_decide (Ascii.nat_of_ascii c ∈ [9; 10; 11; 12; 13; 32; 160]).

Fixpoint trimStart (s : string) : string :=
  match s with
  | EmptyString => EmptyString
  | String c rest => if is_white_space c then trimStart rest else s
  end.

Fixpoint trimEnd (s : string) : string :=
  match s with
  | EmptyString => EmptyString
  | String c rest =>
    match trimEnd rest with
    | EmptyString => if is_white_space c then EmptyString else String c EmptyString
    | rest' => String c rest'
    end
  end.

(** [s.trim()] *)
Definition trim (s : string) : string := trimEnd (trimStart s).

(** What [record[key]] finds in an object literal whose own properties are
    [record]: an own property, a member inherited from [Object.prototype],
    or nothing ([undefined]). *)
Inductive Property := Own (value : string) | Inherited | Missing.

Fixpoint own_property (record : list (string * string)) (key : string)
    : option string :=
  match record with
  | [] => None
  | (k, v) :: rest => if bool_decide (k = key) then Some v else own_property rest key
  end.

(** [prototype_has key] tells whether [Object.prototype] has a member named
    [key] ([constructor], [toString], ...); these members are objects and
    functions, hence truthy. *)
Definition get (prototype_has : string → bool)
    (record : list (string * string)) (key : string) : Property :=
  match own_property record key with
  | Some v => Own v
  | None => if prototype_has key then Inherited else Missing
  end.

(** [a || b] where both are a string or [undefined]. *)
Definition or_else (a b : option string) : option string :=
  match a with
  | Some (String _ _) => a
  | _ => b
  end.

(** A value thrown by a call: an [Error] with its message, or anything
    else. *)
Inductive Thrown := ErrorObject (message : string) | NonError.

(** A value of a request body. *)
Inductive Value :=
  | VUndefined | VNull | VBool (b : bool) | VNumber (n : Z)
  | VString (s : string) | VObject.

(** [!x || typeof x !== 'string'] fails exactly for a non-empty string. *)
Definition nonempty_string (x : Value) : option string :=
  match x with
  | VString (String c rest) => Some (String c rest)
  | _ => None
  end.

End Js.

(** ** Model resolution (lib/model-resolver.ts, libs/types/src/model.ts) *)

Module ModelResolver.
Import Js.

Definition CLAUDE_MODEL_MAP : list (string * string) :=
  [("haiku", "claude-haiku-4-5");
   ("sonnet", "claude-sonnet-4-20250514");
   ("opus", "claude-opus-4-5-20251101")].

Definition CODEX_MODEL_MAP : list (string * string) :=
  [("gpt-5.2-codex", "gpt-5.2-codex");
   ("gpt-5.1-codex-max", "gpt-5.1-codex-max");
   ("gpt-5.1-codex-mini", "gpt-5.1-codex-mini");
   ("gpt-5.2", "gpt-5.2")].

(** [DEFAULT_MODELS.claude] and [DEFAULT_MODELS.codex] *)
Definition DEFAULT_MODELS_claude : string := "claude-opus-4-5-20251101".
Definition DEFAULT_MODELS_codex : string := "gpt-5.2-codex".

(** What [resolveModelString] returns: a string, or for a key such as
    [constructor] the member of [Object.prototype] that the alias table
    inherits under that name. *)
Inductive Resolved := ModelString (model : string) | PrototypeMember (key : string).

#[global] Instance Resolved_eq_dec : EqDecision Resolved.
Proof. solve_decision. Defined.

(** [if (resolved) return resolved;] on the result of a table look-up. *)
Definition found (key : string) (p : Property) : option Resolved :=
  match p with
  | Own (String c rest) => Some (ModelString (String c rest))
  | Own EmptyString => None
  | Inherited => Some (PrototypeMember key)
  | Missing => None
  end.

(** [resolveModelString(modelKey?, defaultModel = DEFAULT_MODELS.claude)];
    the console messages are left out. *)
Definition resolveModelString (prototype_has : string → bool)
    (modelKey : option string) (defaultModel : option string) : Resolved :=
  let defaultModel := default DEFAULT_MODELS_claude defaultModel in
  match modelKey with
  | None | Some EmptyString => ModelString defaultModel
  | Some modelKey =>
    if string_includes "claude-" modelKey then ModelString modelKey
    else if startsWith "gpt-" modelKey || startsWith "codex-" modelKey
    then ModelString modelKey
    else
      match found modelKey (get prototype_has CLAUDE_MODEL_MAP modelKey) with
      | Some claudeResolved => claudeResolved
      | None =>
        match found modelKey (get prototype_has CODEX_MODEL_MAP modelKey) with
        | Some codexResolved => codexResolved
        | None => ModelString defaultModel
        end
      end
  end.

Definition getEffectiveModel (prototype_has : string → bool)
    (explicitModel sessionModel defaultModel : option string) : Resolved :=
  resolveModelString prototype_has (or_else explicitModel sessionModel) defaultModel.

(** The two tests by which [resolveModelString] takes a key for a full
    model string. *)
Definition full_model_string (s : string) : bool :=
  string_includes "claude-" s || startsWith "gpt-" s || startsWith "codex-" s.

End ModelResolver.

(** ** Model options of the board view (shared/model-constants.ts,
    profiles-view/utils.ts, lib/utils.ts) *)

Module ModelOptions.
Import Js.

Inductive ModelProvider := claude | openai.

#[global] Instance ModelProvider_eq_dec : EqDecision ModelProvider.
Proof. solve_decision. Defined.

Record ModelOption := mkModelOption {
  option_id : string;
  label : string;
  description : string;
  badge : option string;
  provider : ModelProvider
}.

Definition CLAUDE_MODELS : list ModelOption :=
  [mkModelOption "haiku" "Claude Haiku"
     "Fast and efficient for simple tasks." (Some "Speed") claude;
   mkModelOption "sonnet" "Claude Sonnet"
     "Balanced performance with strong reasoning." (Some "Balanced") claude;
   mkModelOption "opus" "Claude Opus"
     "Most capable model for complex work." (Some "Premium") claude].

Definition CODEX_MODELS : list ModelOption :=
  [mkModelOption "gpt-5.2-codex" "GPT-5.2 Codex"
     "Latest frontier agentic coding model." (Some "Premium") openai;
   mkModelOption "gpt-5.1-codex-max" "GPT-5.1 Codex Max"
     "Deep and fast reasoning flagship." (Some "Balanced") openai;
   mkModelOption "gpt-5.1-codex-mini" "GPT-5.1 Codex Mini"
     "Cheaper, faster, optimized for codex." (Some "Speed") openai;
   mkModelOption "gpt-5.2" "GPT-5.2"
     "Latest frontier model for all tasks." (Some "General") openai].

Definition ALL_MODELS : list ModelOption := CLAUDE_MODELS ++ CODEX_MODELS.

(** [CODEX_MODELS] of profiles-view/utils.ts, a list of ids. *)
Definition CODEX_MODEL_IDS : list string :=
  ["gpt-5.2-codex"; "gpt-5.1-codex-max"; "gpt-5.1-codex-mini"; "gpt-5.2"].

Definition getProviderFromModel (model : string) : ModelProvider :=
  if includes model CODEX_MODEL_IDS then openai else claude.

(** [modelSupportsThinking(model?)] *)
Definition modelSupportsThinking (model : option string) : bool :=
  match model with
  | None | Some EmptyString => true
  | Some model =>
    let codexModels := ["o3"; "o4-mini"; "gpt-4.1"; "codex-mini"] in
    negb (includes model codexModels)
  end.

Definition displayNames : list (string * string) :=
  [("haiku", "Claude Haiku");
   ("sonnet", "Claude Sonnet");
   ("opus", "Claude Opus");
   ("gpt-5.2-codex", "GPT-5.2 Codex");
   ("gpt-5.1-codex-max", "GPT-5.1 Codex Max");
   ("gpt-5.1-codex-mini", "GPT-5.1 Codex Mini");
   ("gpt-5.2", "GPT-5.2")].

(** [displayNames[model] || model] *)
Definition getModelDisplayName (prototype_has : string → bool) (model : string)
    : ModelResolver.Resolved :=
  match ModelResolver.found model (get prototype_has displayNames model) with
  | Some name => name
  | None => ModelResolver.ModelString model
  end.

End ModelOptions.

(** ** Text and path helpers (lib/utils.ts) *)

Module Utils.
Import Js.

(** [truncateDescription(description, maxLength = 50)] for an integer
    [maxLength]. *)
Definition truncateDescription (description : string) (maxLength : option Z)
    : string :=
  let maxLength := default 50%Z maxLength in
  if (Z.of_nat (String.length description) <=? maxLength)%Z then description
  else slice_from_start description maxLength +:+ "...".

Definition backslash : Ascii.ascii := Ascii.ascii_of_nat 92.
Definition slash : Ascii.ascii := Ascii.ascii_of_nat 47.

(** [p.replace(/\\/g, '/')] *)
Fixpoint normalizePath (p : string) : string :=
  match p with
  | EmptyString => EmptyString
  | String c rest =>
    String (if bool_decide (c = backslash) then slash else c) (normalizePath rest)
  end.

(** An argument of [pathsEqual]: [string | undefined | null]. *)
Inductive MaybePath := Undefined | Null | Path (p : string).

#[global] Instance MaybePath_eq_dec : EqDecision MaybePath.
Proof. solve_decision. Defined.

(** [!p] *)
Definition not_ (p : MaybePath) : bool :=
  match p with
  | Path (String _ _) => false
  | _ => true
  end.

Definition pathsEqual (p1 p2 : MaybePath) : bool :=
  if not_ p1 || not_ p2 then bool_decide (p1 = p2)
  else
    match p1, p2 with
    | Path p1, Path p2 => bool_decide (normalizePath p1 = normalizePath p2)
    | _, _ => false
    end.

End Utils.

(** ** Selection state of a board column (KanbanColumn) *)

Module KanbanColumn.

Record SelectionState := mkSelectionState {
  allSelected : bool;
  someSelected : bool;
  noneSelected : bool
}.

(** The value computed by [useMemo] for [columnSelectionState]. *)
Definition columnSelectionState (isSelectionMode : bool)
    (featureIds selectedFeatureIds : list string) : SelectionState :=
  if negb isSelectionMode || (length featureIds =? 0)
  then mkSelectionState false false true
  else
    let selectedInColumn :=
      filter (λ fid, includes fid selectedFeatureIds = true) featureIds in
    let allSelected := length selectedInColumn =? length featureIds in
    let someSelected := (0 <? length selectedInColumn) && negb allSelected in
    let noneSelected := length selectedInColumn =? 0 in
    mkSelectionState allSelected someSelected noneSelected.

(** [data-state] that the ref callback writes on the checkbox. *)
Definition checkbox_state (s : SelectionState) : string :=
  if someSelected s then "indeterminate"
  else if allSelected s then "checked" else "unchecked".

End KanbanColumn.

(** ** Request handlers

    What a handler does, in order.  The response object and the loggers are
    taken not to throw. *)

Module Handlers.
Import Js.

Inductive Level := info | warn | error | logError.

Inductive ResponseBody :=
  | ErrorBody (error : string)
  | TitleBody (title : string)
  | CleanedBody (cleaned : nat) (message : string).

Inductive Effect :=
  | Log (level : Level) (args : list string)
  | Respond (status : nat) (body : ResponseBody)
  | Query (prompt : string)
  | Update (projectPath featureId title : string)
  | Cleanup (projectPath : string).

#[global] Instance Level_eq_dec : EqDecision Level.
Proof. solve_decision. Defined.
#[global] Instance ResponseBody_eq_dec : EqDecision ResponseBody.
Proof. solve_decision. Defined.
#[global] Instance Effect_eq_dec : EqDecision Effect.
Proof. solve_decision. Defined.

Definition is_response (e : Effect) : bool :=
  match e with Respond _ _ => true | _ => false end.

Definition responses (trace : list Effect) : list Effect :=
  filter (λ e, is_response e = true) trace.

(** [error instanceof Error ? error.message : "Unknown error occurred"] *)
Definition error_message (e : Thrown) : string :=
  match e with
  | ErrorObject message => message
  | NonError => "Unknown error occurred"
  end.

End Handlers.

(** *** POST /cleanup-orphaned *)

Module CleanupHandler.
Import Js Handlers.

(** [req.body]: absent ([undefined] or [null], which cannot be
    destructured), or a value whose [projectPath] is read. *)
Inductive Body := NoBody | Fields (projectPath : Value).

Section Handler.

(** [getErrorMessage] of [../common.js] and the [TypeError] of a failed
    destructuring. *)
Variable getErrorMessage : Thrown → string.
Variable destructuring_error : Thrown.

(** [getTerminalService()] throws or returns the service, whose
    [cleanupSessionsForProject] throws or returns a count. *)
Variable getTerminalService : Thrown + (string → Thrown + nat).

Definition cleaned_message (cleanedCount : nat) (projectPath : string) : string :=
  "Cleaned up " +:+ pretty cleanedCount
    +:+ " terminal sessions for project: " +:+ projectPath.

(** The [catch] block. *)
Definition failed (e : Thrown) : list Effect :=
  let errorMessage := getErrorMessage e in
  [Log logError ["Failed to cleanup orphaned sessions"; errorMessage];
   Respond 500 (ErrorBody errorMessage)].

Definition handler (body : Body) : list Effect :=
  match body with
  | NoBody => failed destructuring_error
  | Fields projectPath =>
    match nonempty_string projectPath with
    | None =>
      [Respond 400 (ErrorBody "projectPath is required and must be a string")]
    | Some projectPath =>
      match getTerminalService with
      | inl e => failed e
      | inr cleanupSessionsForProject =>
        Cleanup projectPath ::
        match cleanupSessionsForProject projectPath with
        | inl e => failed e
        | inr cleanedCount =>
          [Log info ["[Cleanup] " +:+ cleaned_message cleanedCount projectPath];
           Respond 200 (CleanedBody cleanedCount
                          (cleaned_message cleanedCount projectPath))]
        end
      end
    end
  end.

End Handler.

End CleanupHandler.

(** *** POST /generate-title *)

Module GenerateTitle.
Import Js Handlers.

Record Block := mkBlock { block_type : string; text : option string }.

(** A message of the stream; [content] is [msg.message?.content]. *)
Record Message := mkMessage {
  type : string;
  subtype : option string;
  result : option string;
  content : option (list Block)
}.

(** The inner loop over the blocks of an assistant message. *)
Definition append_blocks (responseText : string) (blocks : list Block) : string :=
  foldl (λ responseText block,
           match text block with
           | Some (String c rest) =>
             if bool_decide (block_type block = "text")
             then responseText +:+ String c rest else responseText
           | _ => responseText
           end) responseText blocks.

(** [msg.result || responseText] *)
Definition result_or (msg : Message) (responseText : string) : string :=
  match result msg with
  | Some (String c rest) => String c rest
  | _ => responseText
  end.

(** One turn of the [for await] loop. *)
Definition extract_step (responseText : string) (msg : Message) : string :=
  match (if bool_decide (type msg = "assistant") then content msg else None) with
  | Some blocks => append_blocks responseText blocks
  | None =>
    if bool_decide (type msg = "result")
       && bool_decide (subtype msg = Some "success")
    then result_or msg responseText
    else responseText
  end.

(** [extractTextFromStream] on the messages that the stream delivers. *)
Definition extractTextFromStream (stream : list Message) : string :=
  foldl extract_step EmptyString stream.

Definition is_quote (c : Ascii.ascii) : bool :=
  bool_decide (Ascii.nat_of_ascii c = 34) || bool_decide (Ascii.nat_of_ascii c = 39).

Definition strip_leading_quote (s : string) : string :=
  match s with
  | String c rest => if is_quote c then rest else s
  | EmptyString => EmptyString
  end.

Fixpoint strip_trailing_quote (s : string) : string :=
  match s with
  | EmptyString => EmptyString
  | String c EmptyString => if is_quote c then EmptyString else s
  | String c rest => String c (strip_trailing_quote rest)
  end.

(** [title.trim().replace(/^["']|["']$/g, EmptyString)]: a quote at the start and a
    quote at the end of the trimmed text are removed, each at most once. *)
Definition cleanTitle (title : string) : string :=
  strip_trailing_quote (strip_leading_quote (trim title)).

Definition newline : string := String (Ascii.ascii_of_nat 10) EmptyString.

Definition title_prompt (trimmedDescription : string) : string :=
  "Generate a short title (3-7 words) for this feature:"
    +:+ newline +:+ newline +:+ trimmedDescription.

Inductive Body := NoBody | Fields (projectPath featureId description : Value).

(** What the stream of [query] does: it delivers [delivered] and then ends,
    or throws after them. *)
Record Stream := mkStream { delivered : list Message; thrown : option Thrown }.

Section Handler.

(** The [TypeError] of a failed destructuring, and the text that a thrown
    value gives in a template string. *)
Variable destructuring_error : Thrown.
Variable to_string : Thrown → string.

(** [query] (the options are constants) throws or returns a stream;
    [featureLoader.update] resolves ([None]) or throws. *)
Variable query : string → Thrown + Stream.
Variable update : string → string → string → option Thrown.

(** The outer [catch] block. *)
Definition failed (e : Thrown) : list Effect :=
  let errorMessage := error_message e in
  [Log error ["Title generation failed:"; errorMessage];
   Respond 500 (ErrorBody errorMessage)].

(** The handler from the point where [title] is known. *)
Definition finish (projectPath featureId title : string) : list Effect :=
  if bool_decide (title = EmptyString) || (String.length (trim title) =? 0)
  then [Log warn ["Received empty response from Claude"];
        Respond 500 (ErrorBody "Failed to generate title - empty response")]
  else
    let cleanTitle := cleanTitle title in
    [Log info ["Generated title: " +:+ DependencyValidation.quote_char
                 +:+ cleanTitle +:+ DependencyValidation.quote_char
                 +:+ " for feature " +:+ featureId];
     Update projectPath featureId cleanTitle]
    ++ [match update projectPath featureId cleanTitle with
        | None => Log info ["Updated feature " +:+ featureId +:+ " with title"]
        | Some updateError =>
          Log warn ["Failed to update feature with title: "
                      +:+ to_string updateError]
        end]
    ++ [Respond 200 (TitleBody cleanTitle)].

Definition handler (body : Body) : list Effect :=
  match body with
  | NoBody => failed destructuring_error
  | Fields projectPath featureId description =>
    match nonempty_string projectPath with
    | None =>
      [Respond 400 (ErrorBody "projectPath is required and must be a string")]
    | Some projectPath =>
      match nonempty_string featureId with
      | None =>
        [Respond 400 (ErrorBody "featureId is required and must be a string")]
      | Some featureId =>
        match nonempty_string description with
        | None =>
          [Respond 400 (ErrorBody "description is required and must be a string")]
        | Some description =>
          let trimmedDescription := trim description in
          if String.length trimmedDescription =? 0
          then [Respond 400 (ErrorBody "description cannot be empty")]
          else
            Log info ["Generating title for feature " +:+ featureId
                        +:+ ", description length: "
                        +:+ pretty (String.length trimmedDescription)
                        +:+ " chars"]
            :: Query (title_prompt trimmedDescription)
            :: match query (title_prompt trimmedDescription) with
               | inl e => failed e
               | inr stream =>
                 match thrown stream with
                 | Some e => failed e
                 | None =>
                   finish projectPath featureId
                     (extractTextFromStream (delivered stream))
                 end
               end
        end
      end
    end
  end.

End Handler.

End GenerateTitle.

(** ** What a stream of messages says

    The text of a message as [extractTextFromStream] reads it. *)

Module StreamText.
Import Js GenerateTitle.

(** The result that a message of type [result] and subtype [success]
    carries, when it is not empty. *)
Definition final_result (msg : Message) : option string :=
  if bool_decide (type msg = "result")
     && bool_decide (subtype msg = Some "success")
  then match result msg with
       | Some (String c rest) => Some (String c rest)
       | _ => None
       end
  else None.

Definition block_text (block : Block) : string :=
  if bool_decide (block_type block = "text") then default EmptyString (text block) else EmptyString.

(** The text blocks of an assistant message, in order. *)
Definition assistant_text (msg : Message) : string :=
  if bool_decide (type msg = "assistant")
  then foldr (λ block rest, block_text block +:+ rest) EmptyString
         (default [] (content msg))
  else EmptyString.

Definition stream_text (stream : list Message) : string :=
  foldr (λ msg rest, assistant_text msg +:+ rest) EmptyString stream.

Definition white (s : string) : Prop :=
  Forall (λ c, is_white_space c = true) (units s).

End StreamText.

(** * Proofs *)

(** ** The feature map and the dependency graph *)

Section FeatureMapFacts.
Implicit Types (allFeatures : list Feature) (m : gmap string Feature).

Lemma featureMap_from_lookup allFeatures m i f :
    foldl (λ m feature, <[id feature := feature]> m) m allFeatures !! i = Some f →
    (f ∈ allFeatures ∧ id f = i) ∨ m !! i = Some f.
  Proof.
    revert m. induction allFeatures as [|g l IH]; intros m; simpl; [by right|].
    intros [[Hf Hi]|H]%IH.
    - left. split; [by apply list_elem_of_further|done].
    - destruct (decide (id g = i)) as [Hg|Hg].
      + subst i. rewrite lookup_insert_eq in H. inversion H; subst g.
        left. split; [apply list_elem_of_here|done].
      + rewrite lookup_insert_ne in H by done. by right.
  Qed.

Lemma featureMap_lookup_Some allFeatures i f :
    featureMap allFeatures !! i = Some f → f ∈ allFeatures ∧ id f = i.
  Proof.
    intros [H|H]%featureMap_from_lookup; [done|].
    by rewrite lookup_empty in H.
  Qed.

Lemma featureMap_from_other allFeatures m i :
    i ∉ id <$> allFeatures →
    foldl (λ m feature, <[id feature := feature]> m) m allFeatures !! i = m !! i.
  Proof.
    revert m. induction allFeatures as [|g l IH]; intros m Hi; simpl; [done|].
    rewrite fmap_cons, not_elem_of_cons in Hi. destruct Hi as [Hne Hi].
    rewrite IH by done. by rewrite lookup_insert_ne.
  Qed.

Lemma featureMap_from_unique allFeatures m f :
    unique_ids allFeatures → f ∈ allFeatures →
    foldl (λ m feature, <[id feature := feature]> m) m allFeatures !! id f = Some f.
  Proof.
    unfold unique_ids. revert m.
    induction allFeatures as [|g l IH]; intros m Hnd Hf; [by inversion Hf|].
    rewrite fmap_cons, NoDup_cons in Hnd. destruct Hnd as [Hg Hnd]. simpl.
    apply elem_of_cons in Hf as [->|Hf].
    - rewrite featureMap_from_other by done. apply lookup_insert_eq.
    - by apply IH.
  Qed.

Lemma featureMap_lookup_unique allFeatures f :
    unique_ids allFeatures → f ∈ allFeatures →
    featureMap allFeatures !! id f = Some f.
  Proof. apply featureMap_from_unique. Qed.

Lemma featureMap_from_size allFeatures m :
    size (foldl (λ m feature, <[id feature := feature]> m) m allFeatures)
    ≤ size m + length allFeatures.
  Proof.
    revert m. induction allFeatures as [|g l IH]; intros m; simpl; [lia|].
    etrans; [apply IH|]. rewrite map_size_insert. destruct (m !! id g); simpl; lia.
  Qed.

Lemma featureMap_size allFeatures :
    size (featureMap allFeatures) ≤ length allFeatures.
  Proof.
    unfold featureMap. etrans; [apply featureMap_from_size|].
    by rewrite map_size_empty.
  Qed.
End FeatureMapFacts.

Lemma map_edge_depends_on allFeatures a b :
  map_edge (featureMap allFeatures) a b → depends_on allFeatures a b.
Proof.
  intros (f & [Hf Hi]%featureMap_lookup_Some & Hb). by exists f.
Qed.

Lemma depends_on_map_edge allFeatures a b :
  unique_ids allFeatures →
  depends_on allFeatures a b → map_edge (featureMap allFeatures) a b.
Proof.
  intros Hu (f & Hf & <- & Hb). exists f. split; [|done].
  by apply featureMap_lookup_unique.
Qed.

Lemma tc_mono (R1 R2 : relation string) a b :
  (∀ x y, R1 x y → R2 x y) → tc R1 a b → tc R2 a b.
Proof.
  intros Hsub. induction 1 as [x y H|x y z H _ IH].
  - apply tc_once. auto.
  - eapply tc_l; eauto.
Qed.

Lemma tc_map_edge_depends_on allFeatures a b :
  unique_ids allFeatures →
  tc (map_edge (featureMap allFeatures)) a b ↔ tc (depends_on allFeatures) a b.
Proof.
  intros Hu. split; intros H.
  - eapply tc_mono; [|exact H]. intros ??. apply map_edge_depends_on.
  - eapply tc_mono; [|exact H]. intros ??. by apply depends_on_map_edge.
Qed.

(** ** Paths as lists of intermediate nodes *)

Section Paths.
Variable R : relation string.

Lemma tc_chain s t : tc R s t → ∃ l, chain R s l t.
  Proof.
    induction 1 as [x y H|x y z H _ [l IH]].
    - by exists [].
    - by exists (y :: l).
  Qed.

Lemma chain_tc s l t : chain R s l t → tc R s t.
  Proof.
    revert s. induction l as [|d l IH]; intros s; simpl.
    - apply tc_once.
    - intros [H1 H2]. eapply tc_l; eauto.
  Qed.

Lemma chain_suffix s l1 x l2 t : chain R s (l1 ++ x :: l2) t → chain R x l2 t.
  Proof.
    revert s. induction l1 as [|d l1 IH]; intros s; simpl.
    - by intros [_ ?].
    - intros [_ ?]. eauto.
  Qed.
End Paths.

(** ** Loops *)

Section LoopFacts.
Context {A : Type}.
Implicit Types (f g : A → option bool) (l : list A).

Lemma first_true_is_Some f l :
  (∀ x, x ∈ l → is_Some (f x)) → is_Some (first_true f l).
Proof.
  induction l as [|x l IH]; intros H; simpl; [eauto|].
  destruct (H x) as [[|] ->]; [apply list_elem_of_here|eauto|].
  apply IH. intros y Hy. apply H. by apply list_elem_of_further.
Qed.

Lemma first_true_true f l :
  first_true f l = Some true → ∃ x, x ∈ l ∧ f x = Some true.
Proof.
  induction l as [|x l IH]; simpl; [done|].
  destruct (f x) as [[|]|] eqn:Hx; [|intros (y & ? & ?)%IH|done].
  - intros _. exists x. split; [apply list_elem_of_here|done].
  - exists y. split; [by apply list_elem_of_further|done].
Qed.

Lemma first_true_false f l :
  first_true f l = Some false → ∀ x, x ∈ l → f x = Some false.
Proof.
  induction l as [|x l IH]; simpl; intros H y Hy; [by inversion Hy|].
  destruct (f x) as [[|]|] eqn:Hx; [done| |done].
  apply elem_of_cons in Hy as [->|Hy]; [done|]. by apply IH.
Qed.

Lemma first_true_mono f g l b :
  (∀ x c, x ∈ l → f x = Some c → g x = Some c) →
  first_true f l = Some b → first_true g l = Some b.
Proof.
  induction l as [|x l IH]; simpl; intros H; [done|].
  destruct (f x) as [[|]|] eqn:Hx; [| |done].
  - rewrite (H x true); [done|apply list_elem_of_here|done].
  - rewrite (H x false); [|apply list_elem_of_here|done].
    apply IH. intros y c Hy. apply H. by apply list_elem_of_further.
Qed.
End LoopFacts.

(** ** Cycle detection: termination, soundness, completeness *)

Module ValidationProofs.
Import DependencyValidation.

Section HasPath.
Variable fm : gmap string Feature.
Variable target : string.

(** An unvisited feature of the map leaves fewer unvisited features. *)
Lemma unvisited_decreases (s : string) (V : gset string) :
  s ∉ V → is_Some (fm !! s) →
  size (dom fm ∖ ({[s]} ∪ V)) < size (dom fm ∖ V).
Proof.
  intros Hs Hin. apply elem_of_dom in Hin. apply subset_size. set_solver.
Qed.

Lemma hasPath_enough fuel s extra V :
  size (dom fm ∖ V) < fuel →
  is_Some (hasPathBetweenFeatures fuel s target fm extra V).
Proof.
  revert s extra V. induction fuel as [|fuel IH]; intros s extra V Hlt; [lia|].
  simpl. destruct (decide (s ∈ V)); [eauto|].
  destruct (fm !! s) as [f|] eqn:Hs; [|eauto].
  destruct (includes _ _); [eauto|].
  apply first_true_is_Some. intros d _. apply IH.
  pose proof (unvisited_decreases s V) as Hdec.
  rewrite Hs in Hdec. specialize (Hdec ltac:(done) ltac:(eauto)). lia.
Qed.

Lemma hasPath_fuel_mono fuel fuel' s extra V b :
  fuel ≤ fuel' →
  hasPathBetweenFeatures fuel s target fm extra V = Some b →
  hasPathBetweenFeatures fuel' s target fm extra V = Some b.
Proof.
  revert fuel' s extra V b.
  induction fuel as [|fuel IH]; intros fuel' s extra V b Hle; [done|].
  destruct fuel' as [|fuel']; [lia|]. simpl.
  destruct (decide (s ∈ V)); [done|].
  destruct (fm !! s) as [f|]; [|done].
  destruct (includes _ _); [done|].
  apply first_true_mono. intros d c _. apply IH. lia.
Qed.

Lemma hasPath_sound fuel s extra V :
  hasPathBetweenFeatures fuel s target fm extra V = Some true →
  ∃ f d, fm !! s = Some f ∧ d ∈ deps_or_empty f ++ extra
         ∧ (d = target ∨ tc (map_edge fm) d target).
Proof.
  revert s extra V. induction fuel as [|fuel IH]; intros s extra V; [done|].
  simpl. destruct (decide (s ∈ V)); [done|].
  destruct (fm !! s) as [f|] eqn:Hs; [|done].
  destruct (includes _ _) eqn:Hinc.
  - intros _. exists f, target. split; [done|]. split; [|by left].
    unfold includes in Hinc. by apply bool_decide_eq_true in Hinc.
  - intros (d & Hd & Hrec)%first_true_true.
    apply IH in Hrec as (f' & d' & Hf' & Hd' & Hreach).
    rewrite app_nil_r in Hd'.
    exists f, d. split; [done|]. split; [done|]. right.
    assert (map_edge fm d d') as Hedge by (by exists f').
    destruct Hreach as [->|Hreach]; [by apply tc_once|by eapply tc_l].
Qed.

Lemma hasPath_complete V s t' fuel extra b :
  avoiding fm V s t' → t' = target →
  hasPathBetweenFeatures fuel s target fm extra V = Some b → b = true.
Proof.
  intros Hpath. revert fuel extra b.
  induction Hpath as [V s t f Hs Hf Ht|V s d t f Hs Hf Hd Hpath IH];
    intros fuel extra b ->; (destruct fuel as [|fuel]; [done|]); simpl;
    rewrite decide_False by done; rewrite Hf.
  - unfold includes. rewrite bool_decide_eq_true_2; [by intros [= <-]|].
    apply elem_of_app. by left.
  - destruct (includes _ _); [by intros [= <-]|].
    destruct b; [done|]. intros Hall.
    eapply first_true_false in Hall; [|apply elem_of_app; left; exact Hd].
    by apply IH in Hall.
Qed.

(** Every path can be cut down to one that [hasPathBetweenFeatures] explores. *)
Lemma chain_avoiding n : ∀ l s V,
  length l ≤ n → chain (map_edge fm) s l target →
  s ∉ V → (∀ x, x ∈ l → x ∉ V) → avoiding fm V s target.
Proof.
  induction n as [|n IH]; intros l s V Hlen Hch Hs Hl.
  - destruct l; [|simpl in Hlen; lia]. destruct Hch as (f & Hf & Ht).
    by eapply avoiding_last.
  - destruct l as [|d l].
    { destruct Hch as (f & Hf & Ht). by eapply avoiding_last. }
    simpl in Hlen. destruct (decide (s ∈ d :: l)) as [Hin|Hout].
    + apply list_elem_of_split in Hin as (l1 & l2 & Heq).
      rewrite Heq in Hch. change (chain (map_edge fm) s ((d :: l1 ++ s :: l2)) target)
        with (chain (map_edge fm) s ((d :: l1) ++ s :: l2) target) in Hch.
      assert (length (d :: l) = length l1 + S (length l2)) as Hl12.
      { rewrite Heq, length_app. simpl. lia. }
      destruct l1 as [|d1 l1].
      * simpl in Heq. injection Heq as -> ->. destruct Hch as [_ Hch].
        apply (IH l2 s V); [simpl in Hl12; lia|done|done|].
        intros x Hx. apply Hl. by apply list_elem_of_further.
      * simpl in Heq. injection Heq as -> ->.
        destruct Hch as [_ Hch]. apply chain_suffix in Hch.
        apply (IH l2 s V); [simpl in Hl12; rewrite length_app in Hlen; simpl in Hlen; lia|done|done|].
        intros x Hx. apply Hl. apply list_elem_of_further, elem_of_app. right.
        by apply list_elem_of_further.
    + apply not_elem_of_cons in Hout as [Hsd Hsl].
      destruct Hch as [(f & Hf & Hd) Hch].
      eapply avoiding_step; [done|exact Hf|exact Hd|].
      apply (IH l d); [lia|done| |].
      * pose proof (Hl d (list_elem_of_here _ _)). set_solver.
      * intros x Hx. pose proof (Hl x (list_elem_of_further _ _ _ Hx)).
        assert (x ≠ s) by (intros ->; done). set_solver.
Qed.

Lemma tc_avoiding s : tc (map_edge fm) s target → avoiding fm ∅ s target.
Proof.
  intros [l Hl]%tc_chain.
  apply (chain_avoiding (length l) l); [done|done|set_solver|set_solver].
Qed.

End HasPath.

Lemma remove_dups_length_le (l : list string) : length (remove_dups l) ≤ length l.
Proof.
  induction l as [|x l IH]; simpl; [done|].
  destruct (decide_rel _ x l); simpl; lia.
Qed.

Lemma remove_dups_length_NoDup (l : list string) :
  length (remove_dups l) = length l ↔ NoDup l.
Proof.
  induction l as [|x l IH]; simpl.
  - split; [intros _; apply NoDup_nil_2|done].
  - pose proof (remove_dups_length_le l).
    destruct (decide_rel _ x l) as [Hin|Hout]; simpl.
    + split; [lia|]. intros [? _]%NoDup_cons. done.
    + rewrite NoDup_cons. split.
      * intros [= H']. split; [done|]. by apply IH.
      * intros [_ H']. f_equal. by apply IH.
Qed.

Lemma circular_error_not_self t : circular_error t ≠ self_dependency_error.
Proof. unfold circular_error, self_dependency_error. simpl. discriminate. Qed.

Lemma circular_error_not_duplicate t : circular_error t ≠ duplicate_error.
Proof. unfold circular_error, duplicate_error. simpl. discriminate. Qed.

Lemma not_in_circular_errors (e : string) (f : string → string) (l : list string) :
  (∀ t, circular_error t ≠ e) → e ∉ (λ d, circular_error (f d)) <$> l.
Proof.
  intros Hne (d & Hd & _)%list_elem_of_fmap. by eapply Hne.
Qed.

Section Validate.
Variable allFeatures : list Feature.
Variable cur : string.

Lemma would_enough fuel d extra :
  length allFeatures < fuel →
  is_Some (wouldCreateCircularDependency fuel cur d allFeatures extra).
Proof.
  intros Hlt. unfold wouldCreateCircularDependency.
  destruct (decide (cur = d)); [eauto|]. apply hasPath_enough.
  rewrite difference_empty_L, size_dom.
  pose proof (featureMap_size allFeatures). lia.
Qed.

Lemma would_fuel_mono fuel fuel' d extra b :
  fuel ≤ fuel' →
  wouldCreateCircularDependency fuel cur d allFeatures extra = Some b →
  wouldCreateCircularDependency fuel' cur d allFeatures extra = Some b.
Proof.
  intros Hle. unfold wouldCreateCircularDependency.
  destruct (decide (cur = d)); [done|]. by apply hasPath_fuel_mono.
Qed.

Lemma would_fuel_irrelevant fuel d extra :
  length allFeatures < fuel →
  wouldCreateCircularDependency fuel cur d allFeatures extra
  = wouldCreateCircularDependency (validation_fuel allFeatures) cur d allFeatures extra.
Proof.
  intros Hlt.
  destruct (would_enough (validation_fuel allFeatures) d extra) as [b Hb];
    [unfold validation_fuel; lia|].
  rewrite Hb. eapply would_fuel_mono; [|exact Hb]. unfold validation_fuel. lia.
Qed.

(** A reported cycle is a path in the graph of the feature map, extended at
    [d] by the additional dependencies. *)
Lemma would_sound fuel d extra :
  wouldCreateCircularDependency fuel cur d allFeatures extra = Some true →
  cur = d ∨ ∃ e, (map_edge (featureMap allFeatures) d e ∨ e ∈ extra)
                 ∧ (e = cur ∨ tc (map_edge (featureMap allFeatures)) e cur).
Proof.
  unfold wouldCreateCircularDependency.
  destruct (decide (cur = d)); [by left|].
  intros (f & e & Hf & He & Hreach)%hasPath_sound. right. exists e.
  split; [|done]. apply elem_of_app in He as [He|He]; [left|by right].
  by exists f.
Qed.

(** Every path back to the current feature is found. *)
Lemma would_complete fuel d extra :
  length allFeatures < fuel →
  tc (map_edge (featureMap allFeatures)) d cur →
  wouldCreateCircularDependency fuel cur d allFeatures extra = Some true.
Proof.
  intros Hlt Hpath.
  destruct (would_enough fuel d extra Hlt) as [b Hb]. rewrite Hb. f_equal.
  revert Hb. unfold wouldCreateCircularDependency.
  destruct (decide (cur = d)); [by intros [= <-]|].
  eapply hasPath_complete; [|done]. by apply tc_avoiding.
Qed.

Lemma circular_checks_spec fuel deps todo errs :
  length allFeatures < fuel →
  circular_checks fuel cur deps allFeatures todo errs
  = Some (errs ++ ((λ d, circular_error (depTitle_of d allFeatures))
                     <$> filter (flagged fuel cur deps allFeatures) todo)).
Proof.
  intros Hlt. revert errs. induction todo as [|d todo IH]; intros errs; simpl.
  { by rewrite app_nil_r. }
  destruct (decide (d = cur)) as [Hd|Hd].
  - rewrite IH, filter_cons_False; [done|]. by intros [? _].
  - destruct (would_enough fuel d (filter (λ i, i ≠ d) deps) Hlt) as [[|] Hb];
      rewrite Hb, IH.
    + rewrite filter_cons_True by done. by rewrite fmap_cons, <-app_assoc.
    + rewrite filter_cons_False; [done|]. intros [_ H]. congruence.
Qed.

Lemma validate_spec fuel deps :
  length allFeatures < fuel →
  validateDependencies fuel cur deps allFeatures
  = Some (mkResult
      (bool_decide (length (base_errors cur deps
                            ++ circular_errors fuel cur deps allFeatures) = 0))
      (base_errors cur deps ++ circular_errors fuel cur deps allFeatures)).
Proof.
  intros Hlt. unfold validateDependencies. by rewrite circular_checks_spec.
Qed.

Lemma circular_checks_fuel_irrelevant fuel deps todo errs :
  length allFeatures < fuel →
  circular_checks fuel cur deps allFeatures todo errs
  = circular_checks (validation_fuel allFeatures) cur deps allFeatures todo errs.
Proof.
  intros Hlt. revert errs. induction todo as [|d todo IH]; intros errs; simpl; [done|].
  destruct (decide (d = cur)); [apply IH|].
  rewrite (would_fuel_irrelevant fuel) by done.
  destruct (wouldCreateCircularDependency _ _ _ _ _) as [[|]|]; [apply IH|apply IH|done].
Qed.

Lemma validate_fuel_irrelevant fuel deps :
  length allFeatures < fuel →
  validateDependencies fuel cur deps allFeatures
  = validateDependencies (validation_fuel allFeatures) cur deps allFeatures.
Proof.
  intros Hlt. unfold validateDependencies.
  by rewrite circular_checks_fuel_irrelevant.
Qed.

Lemma base_errors_self deps :
  self_dependency_error ∈ base_errors cur deps ↔ cur ∈ deps.
Proof.
  unfold base_errors, includes.
  destruct (decide (length (remove_dups deps) ≠ length deps));
    case_bool_decide; rewrite ?elem_of_app, ?list_elem_of_singleton, ?elem_of_nil;
    split; try done; try tauto; intros H'; try (by left; idtac);
    destruct H' as [?|?]; done.
Qed.

Lemma base_errors_duplicate deps :
  duplicate_error ∈ base_errors cur deps ↔ ¬ NoDup deps.
Proof.
  unfold base_errors, includes. rewrite <-remove_dups_length_NoDup.
  destruct (decide (length (remove_dups deps) ≠ length deps));
    case_bool_decide; rewrite ?elem_of_app, ?list_elem_of_singleton, ?elem_of_nil;
    split; try done; try tauto; intros H'; try (by right; idtac);
    try (destruct H' as [?|?]; done).
Qed.

End Validate.

End ValidationProofs.

(** ** Cycles of the resulting graph *)

Section ResultingGraph.
Variable allFeatures : list Feature.
Variable cur : string.
Variable proposed : list string.

Lemma existing_path_in_result x t :
  tc (depends_on allFeatures) x t → t = cur → x ≠ cur →
  tc (resulting_edge allFeatures cur proposed) x t.
Proof.
  induction 1 as [x y H|x y z H Hyz IH]; intros Ht Hx.
  - apply tc_once. by right.
  - destruct (decide (y = z)) as [->|Hy].
    + apply tc_once. by right.
    + eapply tc_l; [by right|]. apply IH; congruence.
Qed.

Lemma result_path_in_existing x t :
  tc (resulting_edge allFeatures cur proposed) x t → t = cur → x ≠ cur →
  tc (depends_on allFeatures) x t.
Proof.
  induction 1 as [x y H|x y z H Hyz IH]; intros Ht Hx.
  - apply tc_once. destruct H as [[? _]|[_ ?]]; [congruence|done].
  - assert (depends_on allFeatures x y) as Hxy
      by (destruct H as [[? _]|[_ ?]]; [congruence|done]).
    destruct (decide (y = z)) as [->|Hy]; [by apply tc_once|].
    eapply tc_l; [exact Hxy|]. apply IH; congruence.
Qed.

Lemma cycle_through_candidate :
  tc (resulting_edge allFeatures cur proposed) cur cur
  ↔ cur ∈ proposed ∨ ∃ d, d ∈ proposed ∧ d ≠ cur ∧ tc (depends_on allFeatures) d cur.
Proof.
  split.
  - intros H.
    assert (∃ d, d ∈ proposed
                 ∧ (d = cur ∨ tc (resulting_edge allFeatures cur proposed) d cur))
      as (d & Hd & Hrest).
    { inversion H as [x y [[_ Hy]|[Hx _]]|x y z [[_ Hy]|[Hx _]] Hyz]; subst;
        try done; eauto. }
    destruct (decide (d = cur)) as [->|Hne]; [by left|].
    right. exists d. split; [done|]. split; [done|].
    destruct Hrest as [?|Hrest]; [done|]. by apply result_path_in_existing.
  - intros [Hself|(d & Hd & Hne & Hpath)].
    + apply tc_once. by left.
    + eapply tc_l; [by left|]. by apply existing_path_in_result.
Qed.

Lemma flagged_cycle fuel d :
  d ∈ proposed →
  flagged fuel cur proposed allFeatures d →
  tc (resulting_edge allFeatures cur proposed) cur cur.
Proof.
  intros Hd [Hne Hw]. apply cycle_through_candidate.
  apply ValidationProofs.would_sound in Hw as [->|(e & He & Hreach)]; [done|].
  assert (∀ x, x ∈ proposed →
    x = cur ∨ tc (map_edge (featureMap allFeatures)) x cur →
    cur ∈ proposed ∨ ∃ d, d ∈ proposed ∧ d ≠ cur ∧ tc (depends_on allFeatures) d cur)
    as Hcase.
  { intros x Hx [->|Hp]; [by left|].
    destruct (decide (x = cur)) as [->|Hxc]; [by left|].
    right. exists x. split; [done|]. split; [done|].
    eapply tc_mono; [|exact Hp]. intros ??. apply map_edge_depends_on. }
  destruct He as [Hedge|Hextra].
  - apply (Hcase d Hd). right.
    destruct Hreach as [Heq|Hreach]; [subst e; by apply tc_once|].
    eapply tc_l; [exact Hedge|exact Hreach].
  - apply list_elem_of_filter in Hextra as [_ He]. exact (Hcase e He Hreach).
Qed.

End ResultingGraph.

(** ** The validator: claims *)

Module ValidatorClaims.
Import DependencyValidation ValidationProofs.

Lemma valid_false_iff (errs : list string) :
  bool_decide (length errs = 0) = false ↔ errs ≠ [].
Proof.
  rewrite bool_decide_eq_false. destruct errs; simpl; split; try done; lia.
Qed.

Lemma valid_true_iff (errs : list string) :
  bool_decide (length errs = 0) = true ↔ errs = [].
Proof.
  rewrite bool_decide_eq_true. destruct errs; simpl; split; done.
Qed.

Lemma nonempty_of_elem (e : string) (l : list string) : e ∈ l → l ≠ [].
Proof. intros H ->. by apply elem_of_nil in H. Qed.

(** The tests of [wouldCreateCircularDependency] and [validateDependencies]. *)
Example would_detect_self :
  wouldCreateCircularDependency 2 "A" "A" [createFeature "A" []] [] = Some true.
Proof. vm_compute. reflexivity. Qed.

Example would_detect_direct :
  wouldCreateCircularDependency 3 "B" "A"
    [createFeature "A" ["B"]; createFeature "B" []] [] = Some true.
Proof. vm_compute. reflexivity. Qed.

Example would_detect_chain :
  wouldCreateCircularDependency 5 "D" "A"
    [createFeature "A" ["B"]; createFeature "B" ["C"];
     createFeature "C" ["D"]; createFeature "D" []] [] = Some true.
Proof. vm_compute. reflexivity. Qed.

Example would_allow_valid :
  wouldCreateCircularDependency 3 "B" "A"
    [createFeature "A" []; createFeature "B" []] [] = Some false.
Proof. vm_compute. reflexivity. Qed.

Example would_allow_complex :
  wouldCreateCircularDependency 7 "F" "A"
    [createFeature "A" ["B"; "C"]; createFeature "B" ["D"];
     createFeature "C" ["E"]; createFeature "D" []; createFeature "E" [];
     createFeature "F" []] [] = Some false.
Proof. vm_compute. reflexivity. Qed.

Example validate_accepts_valid :
  validateDependencies 4 "A" ["B"; "C"]
    [createFeature "A" []; createFeature "B" []; createFeature "C" []]
  = Some (mkResult true []).
Proof. vm_compute. reflexivity. Qed.

Example validate_rejects_circular :
  validateDependencies 3 "B" ["A"]
    [createFeature "A" ["B"]; createFeature "B" []]
  = Some (mkResult false [circular_error "Feature A..."]).
Proof. vm_compute. reflexivity. Qed.

Example validate_reports_both :
  validateDependencies 3 "A" ["A"; "B"; "B"]
    [createFeature "A" ["B"]; createFeature "B" []]
  = Some (mkResult false
      [self_dependency_error; duplicate_error;
       circular_error "Feature B..."; circular_error "Feature B..."]).
Proof. vm_compute. reflexivity. Qed.

(** C4 — Termination and traversal bound.  On every input, also when the
    stored graph is cyclic, [wouldCreateCircularDependency] and
    [validateDependencies] return a result as soon as the fuel (the nesting
    depth of [hasPathBetweenFeatures] that is allowed) exceeds the number of
    features, and more fuel does not change the result; a traversal that
    starts with the set [visited] nests at most one call per feature that is
    not yet in [visited], plus one. *)
Theorem cycle_detection_terminates (allFeatures : list Feature)
    (cur newDep start : string) (extra deps : list string)
    (visited : gset string) (fuel : nat) :
  length allFeatures < fuel →
  (∃ b, wouldCreateCircularDependency fuel cur newDep allFeatures extra = Some b
        ∧ wouldCreateCircularDependency (validation_fuel allFeatures)
            cur newDep allFeatures extra = Some b)
  ∧ (∃ r, validateDependencies fuel cur deps allFeatures = Some r
          ∧ validateDependencies (validation_fuel allFeatures)
              cur deps allFeatures = Some r)
  ∧ is_Some (hasPathBetweenFeatures
               (S (size (dom (featureMap allFeatures) ∖ visited)))
               start cur (featureMap allFeatures) extra visited)
  ∧ size (dom (featureMap allFeatures) ∖ visited) ≤ length allFeatures.
Proof.
  intros Hlt. repeat split.
  - destruct (would_enough allFeatures cur fuel newDep extra Hlt) as [b Hb].
    exists b. split; [done|]. by rewrite <-(would_fuel_irrelevant _ _ fuel).
  - rewrite <-(validate_fuel_irrelevant _ _ fuel) by done.
    rewrite validate_spec by done. eauto.
  - apply hasPath_enough. lia.
  - etrans; [|apply featureMap_size]. rewrite <-size_dom.
    apply subseteq_size. set_solver.
Qed.

Lemma cycle_detection_terminates_witness :
  length [createFeature "A" ["B"]; createFeature "B" ["A"]] < 3
  ∧ ∃ r, validateDependencies 3 "C" ["A"]
           [createFeature "A" ["B"]; createFeature "B" ["A"]] = Some r
         ∧ validateDependencies
             (validation_fuel [createFeature "A" ["B"]; createFeature "B" ["A"]])
             "C" ["A"] [createFeature "A" ["B"]; createFeature "B" ["A"]] = Some r.
Proof.
  split; [simpl; lia|].
  exact (proj1 (proj2 (cycle_detection_terminates
                         [createFeature "A" ["B"]; createFeature "B" ["A"]]
                         "C" "A" "A" [] ["A"] ∅ 3 ltac:(simpl; lia)))).
Defined.

(** The stored graph [A → B → A] is cyclic; the check still returns. *)
Example stored_cycle_checked :
  validateDependencies 3 "C" ["A"]
    [createFeature "A" ["B"]; createFeature "B" ["A"]]
  = Some (mkResult true []).
Proof. vm_compute. reflexivity. Qed.

(** C3 — Self-reference and duplicates.  [validateDependencies] reports the
    self-dependency error exactly when the candidate is among the proposed
    dependencies, and the duplicate error exactly when the proposed list
    holds an id more than once; either makes the result invalid, and when
    both conditions hold both errors are in the same result. *)
Theorem self_and_duplicate_rejection (allFeatures : list Feature)
    (cur : string) (deps : list string) :
  ∃ r, validateDependencies (validation_fuel allFeatures) cur deps allFeatures = Some r
    ∧ (self_dependency_error ∈ errors r ↔ cur ∈ deps)
    ∧ (duplicate_error ∈ errors r ↔ ¬ NoDup deps)
    ∧ (cur ∈ deps → valid r = false)
    ∧ (¬ NoDup deps → valid r = false)
    ∧ (cur ∈ deps → ¬ NoDup deps →
       valid r = false ∧ self_dependency_error ∈ errors r
       ∧ duplicate_error ∈ errors r).
Proof.
  eexists. split; [apply validate_spec; unfold validation_fuel; lia|]. simpl.
  assert (self_dependency_error
            ∈ base_errors cur deps
              ++ circular_errors (validation_fuel allFeatures) cur deps allFeatures
          ↔ cur ∈ deps) as Hself.
  { rewrite elem_of_app, base_errors_self. split; [|by left].
    intros [?|H]; [done|].
    by apply not_in_circular_errors in H; [|apply circular_error_not_self]. }
  assert (duplicate_error
            ∈ base_errors cur deps
              ++ circular_errors (validation_fuel allFeatures) cur deps allFeatures
          ↔ ¬ NoDup deps) as Hdup.
  { rewrite elem_of_app, base_errors_duplicate. split; [|by left].
    intros [?|H]; [done|].
    by apply not_in_circular_errors in H; [|apply circular_error_not_duplicate]. }
  split; [done|]. split; [done|].
  assert (cur ∈ deps →
          bool_decide (length (base_errors cur deps
            ++ circular_errors (validation_fuel allFeatures) cur deps allFeatures) = 0)
          = false) as H1.
  { intros H. apply valid_false_iff. eapply nonempty_of_elem. by apply Hself. }
  assert (¬ NoDup deps →
          bool_decide (length (base_errors cur deps
            ++ circular_errors (validation_fuel allFeatures) cur deps allFeatures) = 0)
          = false) as H2.
  { intros H. apply valid_false_iff. eapply nonempty_of_elem. by apply Hdup. }
  split; [done|]. split; [done|].
  intros Hc Hd. split; [by apply H1|]. split; [by apply Hself|by apply Hdup].
Qed.

(** C2 — Cycle rejection, as the code has it.  For a feature set with unique
    ids, [validateDependencies] returns [valid = false] whenever the proposed
    list closes a cycle through the candidate: a self-reference, a proposed
    dependency that depends on the candidate directly, or one from which a
    chain of the existing graph leads back to the candidate.  It returns
    [valid = true] with no errors whenever the resulting graph is acyclic and
    the proposed list has no duplicate entry. *)
Theorem cycle_rejection (allFeatures : list Feature) (cur : string)
    (proposed : list string) :
  unique_ids allFeatures →
  ∃ r, validateDependencies (validation_fuel allFeatures) cur proposed allFeatures
       = Some r
    ∧ (cur ∈ proposed → valid r = false)
    ∧ (∀ d, d ∈ proposed → depends_on allFeatures d cur → valid r = false)
    ∧ (∀ d, d ∈ proposed → tc (depends_on allFeatures) d cur → valid r = false)
    ∧ (tc (resulting_edge allFeatures cur proposed) cur cur → valid r = false)
    ∧ (NoDup proposed → acyclic (resulting_edge allFeatures cur proposed) →
       valid r = true ∧ errors r = []).
Proof.
  intros Hu. eexists. split; [apply validate_spec; unfold validation_fuel; lia|].
  simpl.
  set (fuel := validation_fuel allFeatures).
  assert (cur ∈ proposed →
    bool_decide (length (base_errors cur proposed
                         ++ circular_errors fuel cur proposed allFeatures) = 0)
    = false) as Hself.
  { intros H. apply valid_false_iff. apply (nonempty_of_elem self_dependency_error).
    apply elem_of_app. left. by apply base_errors_self. }
  assert (∀ d, d ∈ proposed → tc (depends_on allFeatures) d cur →
    bool_decide (length (base_errors cur proposed
                         ++ circular_errors fuel cur proposed allFeatures) = 0)
    = false) as Hchain.
  { intros d Hd Hpath. destruct (decide (d = cur)) as [->|Hne]; [by apply Hself|].
    apply valid_false_iff.
    apply (nonempty_of_elem (circular_error (depTitle_of d allFeatures))).
    apply elem_of_app. right. unfold circular_errors.
    apply list_elem_of_fmap. exists d. split; [done|].
    apply list_elem_of_filter. split; [|done]. split; [done|].
    apply would_complete; [unfold fuel, validation_fuel; lia|].
    by apply tc_map_edge_depends_on. }
  split; [done|]. split; [|split; [done|split]].
  - intros d Hd Hdep. apply (Hchain d Hd). by apply tc_once.
  - intros [H|(d & Hd & _ & Hpath)]%cycle_through_candidate; [by apply Hself|].
    by apply (Hchain d).
  - intros Hnd Hacyc.
    assert (base_errors cur proposed
            ++ circular_errors fuel cur proposed allFeatures = []) as ->;
      [|by rewrite valid_true_iff].
    assert (base_errors cur proposed = []) as ->.
    { unfold base_errors, includes.
      rewrite decide_False by (by intros H; apply H, remove_dups_length_NoDup).
      rewrite bool_decide_eq_false_2; [done|].
      intros Hin. apply (Hacyc cur). apply tc_once. by left. }
    simpl. unfold circular_errors.
    destruct (filter _ proposed) as [|d l] eqn:Hf; [done|].
    assert (d ∈ filter (flagged fuel cur proposed allFeatures) proposed) as Hd
      by (rewrite Hf; apply list_elem_of_here).
    apply list_elem_of_filter in Hd as [Hfl Hd].
    destruct (Hacyc cur). by eapply flagged_cycle.
Qed.

Lemma cycle_rejection_witness :
  unique_ids [createFeature "A" ["B"]; createFeature "B" []]
  ∧ ∃ r, validateDependencies
           (validation_fuel [createFeature "A" ["B"]; createFeature "B" []])
           "B" ["A"] [createFeature "A" ["B"]; createFeature "B" []] = Some r
    ∧ ("B" ∈ ["A"] → valid r = false)
    ∧ (∀ d, d ∈ ["A"] →
         depends_on [createFeature "A" ["B"]; createFeature "B" []] d "B" →
         valid r = false)
    ∧ (∀ d, d ∈ ["A"] →
         tc (depends_on [createFeature "A" ["B"]; createFeature "B" []]) d "B" →
         valid r = false)
    ∧ (tc (resulting_edge [createFeature "A" ["B"]; createFeature "B" []] "B" ["A"])
          "B" "B" → valid r = false)
    ∧ (NoDup ["A"] →
       acyclic (resulting_edge [createFeature "A" ["B"]; createFeature "B" []]
                  "B" ["A"]) →
       valid r = true ∧ errors r = []).
Proof.
  assert (unique_ids [createFeature "A" ["B"]; createFeature "B" []]) as Hu.
  { unfold unique_ids. simpl. apply NoDup_cons. split.
    - intros H. apply list_elem_of_singleton in H. discriminate H.
    - apply NoDup_singleton. }
  split; [exact Hu|].
  exact (cycle_rejection [createFeature "A" ["B"]; createFeature "B" []]
           "B" ["A"] Hu).
Defined.

(** The dependency lists of the test [should reject duplicate dependencies],
    where the resulting graph [A → B] is acyclic. *)
Lemma duplicate_edges_acyclic :
  acyclic (resulting_edge [createFeature "A" []; createFeature "B" []]
             "A" ["B"; "B"]).
Proof.
  assert (∀ a b, resulting_edge [createFeature "A" []; createFeature "B" []]
                   "A" ["B"; "B"] a b → a = "A" ∧ b = "B") as Hedge.
  { intros a b [[-> Hb]|[_ (f & Hf & _ & Hb)]].
    - split; [done|]. rewrite !elem_of_cons, elem_of_nil in Hb. tauto.
    - rewrite !elem_of_cons, elem_of_nil in Hf.
      destruct Hf as [->|[->|[]]]; by apply elem_of_nil in Hb. }
  assert (∀ a b, tc (resulting_edge [createFeature "A" []; createFeature "B" []]
                       "A" ["B"; "B"]) a b → a = "A" ∧ b = "B") as Htc.
  { induction 1 as [a b H|a b c H _ [IH1 IH2]]; [by apply Hedge|].
    apply Hedge in H as [-> ->]. discriminate IH1. }
  intros x [H1 H2]%Htc. rewrite H1 in H2. discriminate H2.
Qed.

(** Counterexample to C2 as stated: the proposed list [B; B] leaves the
    graph acyclic and is still rejected. *)
Lemma dag_with_duplicates_rejected :
  unique_ids [createFeature "A" []; createFeature "B" []]
  ∧ acyclic (resulting_edge [createFeature "A" []; createFeature "B" []]
               "A" ["B"; "B"])
  ∧ validateDependencies
      (validation_fuel [createFeature "A" []; createFeature "B" []])
      "A" ["B"; "B"] [createFeature "A" []; createFeature "B" []]
    = Some (mkResult false [duplicate_error]).
Proof.
  split; [|split; [apply duplicate_edges_acyclic|vm_compute; reflexivity]].
  unfold unique_ids. simpl. apply NoDup_cons. split.
  - intros H. apply list_elem_of_singleton in H. discriminate H.
  - apply NoDup_singleton.
Qed.

End ValidatorClaims.

(** ** Depth-first search: what it collects *)

Module ClosureProofs.
Import DependencyClosure.

Lemma for_each_mono {A St} (f g : A → St → option St) (l : list A) (st st' : St) :
  (∀ x s s', x ∈ l → f x s = Some s' → g x s = Some s') →
  for_each f l st = Some st' → for_each g l st = Some st'.
Proof.
  revert st. induction l as [|x l IH]; intros st H; simpl; [done|].
  destruct (f x st) as [s1|] eqn:Hx; [|done].
  rewrite (H x st s1); [|apply list_elem_of_here|done].
  apply IH. intros y s s' Hy. apply H. by apply list_elem_of_further.
Qed.

Section Dfs.
Variable succs : string → list string.

Lemma dfs_unfold fuel cur st :
  dfs succs (S fuel) cur st
  = if decide (cur ∈ visited st) then Some st
    else for_each (visit succs fuel) (succs cur) (mark_visited cur st).
Proof. reflexivity. Qed.

Lemma dfs_fuel_mono fuel fuel' cur st st' :
  fuel ≤ fuel' → dfs succs fuel cur st = Some st' → dfs succs fuel' cur st = Some st'.
Proof.
  revert fuel' cur st st'.
  induction fuel as [|fuel IH]; intros fuel' cur st st' Hle; [done|].
  destruct fuel' as [|fuel']; [lia|]. rewrite !dfs_unfold.
  destruct (decide (cur ∈ visited st)); [done|].
  apply for_each_mono. intros d s s' _. unfold visit.
  destruct (decide (d ∈ found s)); [done|]. apply IH. lia.
Qed.

Lemma loop_post_of_dfs_post fuel :
  (∀ cur st st', dfs succs fuel cur st = Some st' → dfs_post succs cur st st') →
  ∀ ds st st', for_each (visit succs fuel) ds st = Some st' →
               loop_post succs ds st st'.
Proof.
  intros Hdfs. induction ds as [|d ds IH]; intros st st'; simpl.
  { intros [= <-]. unfold loop_post, grows, closed_new.
    repeat split; try done.
    - intros d Hd. by apply elem_of_nil in Hd.
    - by left. }
  destruct (visit succs fuel d st) as [st2|] eqn:Hvisit; [|done].
  intros Hrest. apply IH in Hrest
    as ((Hv2 & Hf2) & Hds & Hclosed2 & Hfv2 & Hsound2 & Hnd2).
  assert (grows st st2 ∧ d ∈ found st2 ∧ closed_new succs st st2
          ∧ (found_visited st → found_visited st2)
          ∧ (∀ x, x ∈ found st2 → x ∈ found st ∨ x = d ∨ tc (succ_rel succs) d x)
          ∧ (NoDup (found st) → NoDup (found st2)))
    as ((Hv1 & Hf1) & Hd1 & Hclosed1 & Hfv1 & Hsound1 & Hnd1).
  { unfold visit in Hvisit. destruct (decide (d ∈ found st)) as [Hin|Hout].
    - injection Hvisit as <-. unfold grows, closed_new. repeat split; try done.
      by left.
    - apply Hdfs in Hvisit
        as ((Hv & Hf) & Hd & Hclosed & Hfv & Hsound & Hnd).
      simpl in *. unfold grows. repeat split; try done.
      + intros x Hx. apply Hf, elem_of_app. by left.
      + apply Hf, elem_of_app. right. apply list_elem_of_here.
      + intros Hpre. apply Hfv. intros x [Hx|Hx]%elem_of_app; [left; by apply Hpre|].
        right. by apply list_elem_of_singleton in Hx.
      + intros x [[Hx|Hx]%elem_of_app|Hx]%Hsound; [by left| |by right; right].
        right. left. by apply list_elem_of_singleton in Hx.
      + intros Hpre. apply Hnd. apply NoDup_app. split; [done|].
        split; [|apply NoDup_singleton].
        intros x Hx ->%list_elem_of_singleton. done. }
  unfold loop_post, grows, closed_new. repeat split.
  - set_solver.
  - auto.
  - intros x [->|Hx]%elem_of_cons; auto.
  - intros v Hv Hnv e He. destruct (decide (v ∈ visited st2)) as [Hin|Hout].
    + apply Hf2. by eapply Hclosed1.
    + by eapply Hclosed2.
  - auto.
  - intros x [Hx|(e & He & Hreach)]%Hsound2.
    + apply Hsound1 in Hx as [Hx|Hx]; [by left|]. right. exists d.
      split; [apply list_elem_of_here|done].
    + right. exists e. split; [by apply list_elem_of_further|done].
  - auto.
Qed.

Lemma dfs_post_holds fuel :
  ∀ cur st st', dfs succs fuel cur st = Some st' → dfs_post succs cur st st'.
Proof.
  induction fuel as [|fuel IH]; intros cur st st'; [done|].
  rewrite dfs_unfold. destruct (decide (cur ∈ visited st)) as [Hin|Hout].
  - intros [= <-]. unfold dfs_post, grows, closed_new, found_visited.
    repeat split; try done.
    + intros Hpre x Hx. by destruct (Hpre x Hx) as [?| ->].
    + by left.
  - intros Hloop. apply (loop_post_of_dfs_post fuel IH) in Hloop
      as ((Hv & Hf) & Hds & Hclosed & Hfv & Hsound & Hnd).
    simpl in *. unfold dfs_post, grows, closed_new. repeat split.
    + set_solver.
    + done.
    + set_solver.
    + intros v Hv' Hnv d Hd. destruct (decide (v = cur)) as [->|Hne].
      * by apply Hds.
      * eapply Hclosed; [done| |done]. set_solver.
    + intros Hpre. apply Hfv. intros x Hx. simpl.
      destruct (Hpre x Hx) as [?| ->]; set_solver.
    + intros x [Hx|(d & Hd & Hreach)]%Hsound; [by left|]. right.
      destruct Hreach as [->|Hreach]; [by apply tc_once|by eapply tc_l].
    + done.
Qed.

(** Started from two empty sets, the search finds exactly the ids reachable
    over one or more edges. *)
Lemma dfs_reachable fuel root st' :
  dfs succs fuel root (mkCollected ∅ []) = Some st' →
  (∀ x, x ∈ found st' ↔ tc (succ_rel succs) root x) ∧ NoDup (found st').
Proof.
  intros (_ & Hroot & Hclosed & Hfv & Hsound & Hnd)%dfs_post_holds. simpl in *.
  split; [|apply Hnd, NoDup_nil_2].
  intros x. split.
  - intros [Hx|Hx]%Hsound; [by apply elem_of_nil in Hx|done].
  - assert (found_visited st') as Hfv'.
    { apply Hfv. intros y Hy. by apply elem_of_nil in Hy. }
    assert (∀ v y, tc (succ_rel succs) v y → v ∈ visited st' → y ∈ found st')
      as Hall.
    { induction 1 as [v y H|v y z H _ IH]; intros Hv.
      - eapply Hclosed; [done|set_solver|done].
      - apply IH, Hfv'. eapply Hclosed; [done|set_solver|done]. }
    intros Hx. by eapply Hall.
Qed.

(** Termination: every id that is entered belongs to the finite set [U]. *)
Section Enough.
Variable U : gset string.
Hypothesis succs_in_U : ∀ x d, d ∈ succs x → d ∈ U.

Lemma dfs_enough fuel :
  ∀ cur st, cur ∈ U → size (U ∖ visited st) < fuel →
            is_Some (dfs succs fuel cur st).
Proof.
  induction fuel as [|fuel IH]; intros cur st Hcur Hlt; [lia|].
  rewrite dfs_unfold. destruct (decide (cur ∈ visited st)) as [Hin|Hout]; [eauto|].
  assert (size (U ∖ visited (mark_visited cur st)) < fuel) as Hlt1.
  { simpl. assert (U ∖ ({[cur]} ∪ visited st) ⊂ U ∖ visited st) as Hsub
      by set_solver.
    apply subset_size in Hsub. lia. }
  assert (∀ d, d ∈ succs cur → d ∈ U) as Hds by (intros d; apply succs_in_U).
  revert Hlt1 Hds. generalize (mark_visited cur st) as st1.
  generalize (succs cur) as ds. clear Hlt Hout.
  induction ds as [|d ds IHds]; intros st1 Hlt1 Hds; simpl; [eauto|].
  assert (∃ st2, visit succs fuel d st1 = Some st2 ∧ visited st1 ⊆ visited st2)
    as (st2 & -> & Hsub).
  { unfold visit. destruct (decide (d ∈ found st1)); [by exists st1|].
    destruct (IH d (add_found d st1)) as [st2 Hst2].
    - apply Hds, list_elem_of_here.
    - done.
    - exists st2. split; [done|].
      apply dfs_post_holds in Hst2 as ((Hv & _) & _). done. }
  apply IHds.
  - assert (U ∖ visited st2 ⊆ U ∖ visited st1) as Hle by set_solver.
    apply subseteq_size in Hle. lia.
  - intros e He. apply Hds. by apply list_elem_of_further.
Qed.
End Enough.

End Dfs.

(** ** The two traversals of the source are depth-first searches *)

Lemma for_each_ext {A St} (f g : A → St → option St) (l : list A) (st : St) :
  (∀ x s, f x s = g x s) → for_each f l st = for_each g l st.
Proof.
  intros H. revert st. induction l as [|x l IH]; intros st; simpl; [done|].
  rewrite H. destruct (g x st); [apply IH|done].
Qed.

Lemma collectDependencies_dfs fuel fm cur st :
  collectDependencies fuel fm cur st = dfs (dependency_succs fm) fuel cur st.
Proof.
  revert cur st. induction fuel as [|fuel IH]; intros cur st; [done|].
  rewrite dfs_unfold. simpl. destruct (decide (cur ∈ visited st)); [done|].
  unfold dependency_succs, deps_or_empty.
  destruct (fm !! cur) as [f|]; [|done].
  destruct (dependencies f) as [deps|]; [|done]. simpl.
  apply for_each_ext. intros d s. unfold visit.
  destruct (decide (d ∈ found s)); [done|]. apply IH.
Qed.

Lemma depends_directly_true feature target :
  depends_directly feature target = true ↔ target ∈ deps_or_empty feature.
Proof.
  unfold depends_directly, deps_or_empty, includes.
  destruct (dependencies feature); simpl.
  - apply bool_decide_eq_true.
  - split; [done|]. intros H. by apply elem_of_nil in H.
Qed.

Lemma collectDependents_dfs fuel allFeatures target st :
  collectDependents fuel allFeatures target st
  = dfs (dependent_succs allFeatures) fuel target st.
Proof.
  revert target st. induction fuel as [|fuel IH]; intros target st; [done|].
  rewrite dfs_unfold. simpl. destruct (decide (target ∈ visited st)); [done|].
  unfold dependent_succs at 2.
  generalize (mark_visited target st) as st1.
  generalize allFeatures at 2 4 as l.
  induction l as [|f l IHl]; intros st1; simpl; [done|].
  destruct (depends_directly f target) eqn:Hdep; simpl.
  - rewrite filter_cons_True by (by apply depends_directly_true).
    rewrite fmap_cons. simpl. unfold visit at 1.
    case_bool_decide as Hin; simpl.
    + rewrite decide_True by done. apply IHl.
    + rewrite decide_False by done. rewrite IH.
      destruct (dfs _ fuel (id f) _); [apply IHl|done].
  - rewrite filter_cons_False; [apply IHl|].
    intros H%depends_directly_true. congruence.
Qed.

(** ** The relations searched *)

Lemma dependency_succs_edge fm a b :
  succ_rel (dependency_succs fm) a b ↔ map_edge fm a b.
Proof.
  unfold succ_rel, dependency_succs, map_edge. destruct (fm !! a) as [f|].
  - split; [by exists f|]. by intros (f' & [= <-] & ?).
  - split; [by intros ?%elem_of_nil|]. by intros (f' & ? & _).
Qed.

Lemma dependent_succs_edge allFeatures a b :
  succ_rel (dependent_succs allFeatures) a b ↔ depends_on allFeatures b a.
Proof.
  unfold succ_rel, dependent_succs, depends_on.
  rewrite list_elem_of_fmap. split.
  - intros (f & -> & [Ha Hf]%list_elem_of_filter). by exists f.
  - intros (f & Hf & <- & Ha). exists f. split; [done|].
    by apply list_elem_of_filter.
Qed.

Lemma tc_flip (R : relation string) a b : tc (flip R) a b → tc R b a.
Proof.
  induction 1 as [x y H|x y z H _ IH].
  - by apply tc_once.
  - eapply tc_r; [exact IH|exact H].
Qed.

Lemma tc_unflip (R : relation string) a b : tc R b a → tc (flip R) a b.
Proof.
  induction 1 as [x y H|x y z H _ IH].
  - by apply tc_once.
  - eapply tc_r; [exact IH|exact H].
Qed.

Lemma tc_dependency_succs fm a b :
  tc (succ_rel (dependency_succs fm)) a b ↔ tc (map_edge fm) a b.
Proof.
  split; apply tc_mono; intros x y; apply dependency_succs_edge.
Qed.

Lemma tc_dependent_succs allFeatures a b :
  tc (succ_rel (dependent_succs allFeatures)) a b ↔ tc (depends_on allFeatures) b a.
Proof.
  split; intros H.
  - apply tc_flip. eapply tc_mono; [|exact H].
    intros x y. apply dependent_succs_edge.
  - apply tc_unflip in H. eapply tc_mono; [|exact H].
    intros x y. unfold flip. apply dependent_succs_edge.
Qed.

(** ** Enough fuel *)

Lemma size_list_to_set_le (l : list string) :
  size (list_to_set l : gset string) ≤ length l.
Proof.
  induction l as [|x l IH].
  { rewrite list_to_set_nil, size_empty. done. }
  rewrite list_to_set_cons, size_union_alt, size_singleton. simpl.
  assert (size ((list_to_set l : gset string) ∖ {[x]}) ≤ size (list_to_set l : gset string))
    by (apply subseteq_size; set_solver).
  lia.
Qed.

Lemma size_root_union_le (root : string) (l : list string) :
  size ({[root]} ∪ (list_to_set l : gset string)) ≤ S (length l).
Proof.
  rewrite size_union_alt, size_singleton.
  pose proof (size_list_to_set_le l).
  assert (size ((list_to_set l : gset string) ∖ {[root]}) ≤ size (list_to_set l : gset string))
    by (apply subseteq_size; set_solver).
  lia.
Qed.

Lemma getAllDependencies_spec fuel root allFeatures :
  dependencies_fuel allFeatures ≤ fuel →
  ∃ l, getAllDependencies fuel root allFeatures = Some l
    ∧ getAllDependencies (dependencies_fuel allFeatures) root allFeatures = Some l
    ∧ (∀ x, x ∈ l ↔ tc (map_edge (featureMap allFeatures)) root x)
    ∧ NoDup l.
Proof.
  intros Hfuel. unfold getAllDependencies.
  set (U := {[root]} ∪ (list_to_set (listed_dependencies allFeatures) : gset string)).
  destruct (dfs_enough (dependency_succs (featureMap allFeatures)) U)
    with (fuel := dependencies_fuel allFeatures) (cur := root)
         (st := mkCollected ∅ []) as [st' Hst'].
  - intros x d. unfold dependency_succs.
    destruct (featureMap allFeatures !! x) as [f|] eqn:Hf;
      [|by intros ?%elem_of_nil].
    intros Hd. apply featureMap_lookup_Some in Hf as [Hf _].
    unfold U. apply elem_of_union. right. apply elem_of_list_to_set.
    unfold listed_dependencies. apply list_elem_of_bind. by exists f.
  - unfold U. set_solver.
  - simpl. rewrite difference_empty_L. unfold U, dependencies_fuel.
    pose proof (size_root_union_le root (listed_dependencies allFeatures)). lia.
  - exists (found st'). rewrite !collectDependencies_dfs.
    rewrite (dfs_fuel_mono _ _ fuel _ _ _ Hfuel Hst'), Hst'.
    split; [done|]. split; [done|].
    apply dfs_reachable in Hst' as [Hreach Hnd]. split; [|done].
    intros x. by rewrite Hreach, tc_dependency_succs.
Qed.

Lemma getAllDependents_spec fuel root allFeatures :
  dependents_fuel allFeatures ≤ fuel →
  ∃ l, getAllDependents fuel root allFeatures = Some l
    ∧ getAllDependents (dependents_fuel allFeatures) root allFeatures = Some l
    ∧ (∀ x, x ∈ l ↔ tc (depends_on allFeatures) x root)
    ∧ NoDup l.
Proof.
  intros Hfuel. unfold getAllDependents.
  set (U := {[root]} ∪ (list_to_set (id <$> allFeatures) : gset string)).
  destruct (dfs_enough (dependent_succs allFeatures) U)
    with (fuel := dependents_fuel allFeatures) (cur := root)
         (st := mkCollected ∅ []) as [st' Hst'].
  - intros x d. unfold dependent_succs.
    intros (f & -> & [_ Hf]%list_elem_of_filter)%list_elem_of_fmap.
    unfold U. apply elem_of_union. right. apply elem_of_list_to_set.
    by apply list_elem_of_fmap_2.
  - unfold U. set_solver.
  - simpl. rewrite difference_empty_L. unfold U, dependents_fuel.
    pose proof (size_root_union_le root (id <$> allFeatures)) as Hsz.
    rewrite length_fmap in Hsz. lia.
  - exists (found st'). rewrite !collectDependents_dfs.
    rewrite (dfs_fuel_mono _ _ fuel _ _ _ Hfuel Hst'), Hst'.
    split; [done|]. split; [done|].
    apply dfs_reachable in Hst' as [Hreach Hnd]. split; [|done].
    intros x. by rewrite Hreach, tc_dependent_succs.
Qed.

End ClosureProofs.

(** ** The transitive closures: claims *)

Module ClosureClaims.
Import DependencyClosure ClosureProofs.

(** The tests [should return indirect dependencies] and
    [should avoid infinite loops in circular dependencies]. *)
Example indirect_dependencies :
  getAllDependencies 6 "A"
    [createFeature "A" ["B"]; createFeature "B" ["C"; "D"];
     createFeature "C" ["E"]; createFeature "D" []; createFeature "E" []]
  = Some ["B"; "C"; "E"; "D"].
Proof. vm_compute. reflexivity. Qed.

Example circular_dependencies :
  getAllDependencies 4 "A" [createFeature "A" ["B"]; createFeature "B" ["A"]]
  = Some ["B"; "A"].
Proof. vm_compute. reflexivity. Qed.

Example indirect_dependents :
  getAllDependents 6 "D"
    [createFeature "A" ["B"]; createFeature "B" ["C"];
     createFeature "C" ["D"]; createFeature "D" []]
  = Some ["C"; "B"; "A"].
Proof. vm_compute. reflexivity. Qed.

Example circular_dependents :
  getAllDependents 4 "A" [createFeature "A" ["B"]; createFeature "B" ["A"]]
  = Some ["B"; "A"].
Proof. vm_compute. reflexivity. Qed.

(** C8 — Transitive closures.  On every feature list, cyclic graphs
    included, both queries return once the fuel reaches a bound computed
    from the list, with the same result for all larger fuels and without
    repeated entries.  [getAllDependents] returns exactly the ids from which
    a path of one or more dependency edges leads to [fid].
    [getAllDependencies] returns exactly the ids reachable from [fid] over
    one or more dependency edges of the feature map, which for a feature set
    with unique ids are the dependency edges of the set. *)
Theorem transitive_closure_queries (allFeatures : list Feature) (fid : string) :
  ∃ deps dependents,
    (∀ fuel, dependencies_fuel allFeatures ≤ fuel →
             getAllDependencies fuel fid allFeatures = Some deps)
    ∧ (∀ fuel, dependents_fuel allFeatures ≤ fuel →
               getAllDependents fuel fid allFeatures = Some dependents)
    ∧ NoDup deps ∧ NoDup dependents
    ∧ (∀ x, x ∈ dependents ↔ tc (depends_on allFeatures) x fid)
    ∧ (∀ x, x ∈ deps ↔ tc (map_edge (featureMap allFeatures)) fid x)
    ∧ (unique_ids allFeatures →
       ∀ x, x ∈ deps ↔ tc (depends_on allFeatures) fid x).
Proof.
  destruct (getAllDependencies_spec (dependencies_fuel allFeatures) fid allFeatures)
    as (deps & Hdeps & _ & Hreach & Hnd); [done|].
  destruct (getAllDependents_spec (dependents_fuel allFeatures) fid allFeatures)
    as (dependents & Hdependents & _ & Hreach' & Hnd'); [done|].
  exists deps, dependents.
  split; [|split; [|split; [done|split; [done|split; [done|split; [done|]]]]]].
  - intros fuel Hfuel.
    destruct (getAllDependencies_spec fuel fid allFeatures Hfuel)
      as (l & -> & Hl & _). congruence.
  - intros fuel Hfuel.
    destruct (getAllDependents_spec fuel fid allFeatures Hfuel)
      as (l & -> & Hl & _). congruence.
  - intros Hu x. by rewrite Hreach, tc_map_edge_depends_on.
Qed.

Lemma unique_ids_cyclic_pair :
  unique_ids [createFeature "A" ["B"]; createFeature "B" ["A"]].
Proof.
  unfold unique_ids. simpl. apply NoDup_cons. split.
  - intros H. apply list_elem_of_singleton in H. discriminate H.
  - apply NoDup_singleton.
Defined.

(** C10 — Duality.  For a feature set with unique ids and any two ids [a]
    and [b], both queries return, and [a] is among the dependents of [b]
    exactly when [b] is among the dependencies of [a], on cyclic graphs too. *)
Theorem dependents_dependencies_duality (allFeatures : list Feature) (a b : string) :
  unique_ids allFeatures →
  ∃ deps_a dependents_b,
    getAllDependencies (dependencies_fuel allFeatures) a allFeatures = Some deps_a
    ∧ getAllDependents (dependents_fuel allFeatures) b allFeatures = Some dependents_b
    ∧ (a ∈ dependents_b ↔ b ∈ deps_a).
Proof.
  intros Hu.
  destruct (getAllDependencies_spec (dependencies_fuel allFeatures) a allFeatures)
    as (deps & Hdeps & _ & Hreach & _); [done|].
  destruct (getAllDependents_spec (dependents_fuel allFeatures) b allFeatures)
    as (dependents & Hdependents & _ & Hreach' & _); [done|].
  exists deps, dependents. split; [done|]. split; [done|].
  rewrite Hreach, Hreach'. symmetry. by apply tc_map_edge_depends_on.
Qed.

Lemma dependents_dependencies_duality_witness :
  unique_ids [createFeature "A" ["B"]; createFeature "B" ["A"]]
  ∧ ∃ deps_a dependents_b,
      getAllDependencies
        (dependencies_fuel [createFeature "A" ["B"]; createFeature "B" ["A"]])
        "A" [createFeature "A" ["B"]; createFeature "B" ["A"]] = Some deps_a
      ∧ getAllDependents
          (dependents_fuel [createFeature "A" ["B"]; createFeature "B" ["A"]])
          "B" [createFeature "A" ["B"]; createFeature "B" ["A"]] = Some dependents_b
      ∧ ("A" ∈ dependents_b ↔ "B" ∈ deps_a).
Proof.
  split; [exact unique_ids_cyclic_pair|].
  exact (dependents_dependencies_duality
           [createFeature "A" ["B"]; createFeature "B" ["A"]] "A" "B"
           unique_ids_cyclic_pair).
Defined.

(** With two records under one id the feature map keeps the last one while
    [getAllDependents] scans both, and the two queries disagree: the
    uniqueness of ids is needed. *)
Remark duality_needs_unique_ids :
  getAllDependencies 4 "A" [createFeature "A" ["B"]; createFeature "A" []] = Some []
  ∧ getAllDependents 4 "B" [createFeature "A" ["B"]; createFeature "A" []]
    = Some ["A"].
Proof. split; vm_compute; reflexivity. Qed.

End ClosureClaims.

(** ** The event emitter *)

Module EmitterClaims.
Import EventEmitter EmitterSpec.

Lemma subscribe_elem (callback c : nat) (subscribers : list nat) :
  c ∈ subscribe callback subscribers ↔ c = callback ∨ c ∈ subscribers.
Proof.
  unfold subscribe. destruct (decide (callback ∈ subscribers)).
  - split; [by right|]. by intros [->|?].
  - rewrite elem_of_app, list_elem_of_singleton. tauto.
Qed.

Lemma unsubscribe_elem (callback c : nat) (subscribers : list nat) :
  c ∈ unsubscribe callback subscribers ↔ c ≠ callback ∧ c ∈ subscribers.
Proof. unfold unsubscribe. by rewrite list_elem_of_filter. Qed.

Lemma live_cons_Some callback es : live (Some callback :: es) = callback :: live es.
Proof. done. Qed.

Lemma live_cons_None es : live (None :: es) = live es.
Proof. done. Qed.

Lemma live_add callback es :
  live (add callback es) = subscribe callback (live es).
Proof.
  unfold add, subscribe. destruct (decide (callback ∈ live es)); [done|].
  unfold live. by rewrite omap_app.
Qed.

Lemma live_delete callback es :
  live (delete callback es) = unsubscribe callback (live es).
Proof.
  unfold delete, unsubscribe. induction es as [|[c|] es IH]; [done| |].
  - rewrite fmap_cons. destruct (decide (Some c = Some callback)) as [[= ->]|Hne].
    + rewrite live_cons_None, live_cons_Some, filter_cons_False by (by intros ?).
      exact IH.
    + rewrite !live_cons_Some, filter_cons_True by congruence. by f_equal.
  - rewrite fmap_cons. destruct (decide (None = Some callback)); [done|].
    by rewrite !live_cons_None.
Qed.

Lemma live_lookup es index callback :
  es !! index = Some (Some callback) → callback ∈ live es.
Proof.
  intros Hl. apply list_elem_of_omap. exists (Some callback).
  split; [|done]. by eapply list_elem_of_lookup_2.
Qed.

Section Emit.
Context {EventType Payload Error World : Type}.
Variable behaviour :
  nat → EventType → Payload → World → @Script EventType Payload Error World.
Variable console_error : Error → World → World.




End Emit.





(** The second subscriber throws; the third one is still called and [emit]
    returns. *)
Example emit_with_throwing_subscriber :
  emit sample_behaviour sample_console_error 4 "feature:updated" 0
    (mkState [] [Some 1; Some 2; Some 3] [])
  = Some (mkState
            ["first got feature:updated"; "second got feature:updated";
             "Error in event subscriber: boom"; "third got feature:updated"]
            [Some 1; Some 2; Some 3] [1; 2; 3], Normal).
Proof. vm_compute. reflexivity. Qed.

(** A subscriber that unsubscribes and subscribes itself again while it is
    called is reached again by the running iteration: [emit] does not
    return, whatever the fuel. *)
Lemma restless_emit_loop fuel index log inv :
  emit_loop restless_behaviour sample_console_error fuel "feature:updated" 0 index
    (mkState log (replicate index None ++ [Some 1]) inv) = None.
Proof.
  revert index inv. induction fuel as [|fuel IH]; intros index inv; [done|].
  cbn [emit_loop entries].
  rewrite lookup_app_r by (by rewrite length_replicate).
  rewrite length_replicate, Nat.sub_diag. cbn [lookup list_lookup].
  unfold try_catch, called, restless_behaviour.
  cbn [run_script world entries invoked set_entries].
  replace (add 1 (delete 1 (replicate index None ++ [Some 1])))
    with (replicate (S index) None ++ [Some 1]); [apply IH|].
  unfold delete. rewrite fmap_app, fmap_replicate. cbn [fmap list_fmap].
  rewrite decide_False by done. rewrite decide_True by done.
  unfold add. rewrite decide_False.
  - rewrite <-app_assoc. cbn [app].
    by rewrite (replicate_S_end index), <-app_assoc.
  - unfold live. rewrite omap_app. cbn [omap list_omap]. rewrite app_nil_r.
    intros Hin%list_elem_of_omap. destruct Hin as (e & He & Hsome).
    apply elem_of_replicate in He as [-> _]. done.
Qed.

End EmitterClaims.

(** ** The scheduler: the concurrency bound *)

Module SchedulerProofs.
Import Scheduler.

Lemma dispatch_config env s f :
  concurrencyLimit (dispatch env s f) = concurrencyLimit s
  ∧ enabled (dispatch env s f) = enabled s.
Proof. unfold dispatch. by destruct (env (id f)). Qed.

Lemma dispatch_active env s f :
  activeSet (dispatch env s f) ⊆ {[id f]} ∪ activeSet s
  ∧ activeSet s ∖ {[id f]} ⊆ activeSet (dispatch env s f).
Proof. unfold dispatch. destruct (env (id f)); simpl; set_solver. Qed.

Lemma size_insert_le (x : string) (X : gset string) : size ({[x]} ∪ X) ≤ S (size X).
Proof.
  rewrite size_union_alt, size_singleton.
  assert (size (X ∖ {[x]}) ≤ size X) by (apply subseteq_size; set_solver). lia.
Qed.

Lemma dispatch_size env s f :
  size (activeSet (dispatch env s f)) ≤ S (size (activeSet s)).
Proof.
  etrans; [apply subseteq_size, dispatch_active|]. apply size_insert_le.
Qed.

Lemma dispatches_config env l s :
  concurrencyLimit (foldl (dispatch env) s l) = concurrencyLimit s
  ∧ enabled (foldl (dispatch env) s l) = enabled s.
Proof.
  revert s. induction l as [|f l IH]; intros s; simpl; [done|].
  destruct (IH (dispatch env s f)) as [-> ->]. apply dispatch_config.
Qed.

Lemma dispatches_size env l s :
  size (activeSet (foldl (dispatch env) s l)) ≤ size (activeSet s) + length l.
Proof.
  revert s. induction l as [|f l IH]; intros s; simpl; [lia|].
  etrans; [apply IH|]. pose proof (dispatch_size env s f). lia.
Qed.

Lemma dispatches_active env l s :
  activeSet (foldl (dispatch env) s l) ⊆ list_to_set (id <$> l) ∪ activeSet s.
Proof.
  revert s. induction l as [|f l IH]; intros s; simpl; [set_solver|].
  etrans; [apply IH|]. pose proof (dispatch_active env s f). set_solver.
Qed.

Lemma chosen_length s :
  (Z.of_nat (length (chosen s)) ≤ Z.max 0 (availableSlots s))%Z.
Proof. unfold chosen. rewrite length_take. lia. Qed.

Lemma schedule_config env s :
  concurrencyLimit (schedule env s) = concurrencyLimit s
  ∧ enabled (schedule env s) = enabled s.
Proof.
  unfold schedule. destruct (_ || _); [done|]. apply dispatches_config.
Qed.

Lemma schedule_full env s :
  concurrencyLimit s ≤ size (activeSet s) → schedule env s = s.
Proof.
  intros H. unfold schedule, availableSlots.
  rewrite bool_decide_eq_true_2 by lia. done.
Qed.

Lemma schedule_disabled env s : enabled s = false → schedule env s = s.
Proof. intros H. unfold schedule. rewrite H. by rewrite orb_true_r. Qed.

Lemma schedule_size env s :
  size (activeSet (schedule env s)) ≤ size (activeSet s) `max` concurrencyLimit s.
Proof.
  unfold schedule. destruct (_ || _) eqn:Hgo; [lia|].
  pose proof (dispatches_size env (chosen s) s).
  pose proof (chosen_length s). unfold availableSlots in *. lia.
Qed.

Lemma apply_trigger_active s t : activeSet (apply_trigger s t) ⊆ activeSet s.
Proof.
  destruct t; simpl; try done; case_bool_decide; simpl; set_solver.
Qed.

Lemma step_limit env s t :
  concurrencyLimit (step env s t) = concurrencyLimit (apply_trigger s t).
Proof. unfold step. destruct (retriggers s t); [apply schedule_config|done]. Qed.

Lemma step_size env s t :
  size (activeSet (step env s t))
  ≤ size (activeSet s) `max` concurrencyLimit (step env s t).
Proof.
  rewrite step_limit.
  pose proof (subseteq_size _ _ (apply_trigger_active s t)) as Hsub.
  unfold step. destruct (retriggers s t); [|lia].
  pose proof (schedule_size env (apply_trigger s t)). lia.
Qed.

Lemma step_within_limit env s t :
  within_limit s →
  match t with
  | SetConcurrency n => (1 ≤ n)%Z → (Z.of_nat (size (activeSet s)) ≤ n)%Z
  | _ => True
  end →
  within_limit (step env s t).
Proof.
  unfold within_limit. intros Hs Ht.
  pose proof (step_size env s t) as Hstep.
  assert (size (activeSet s) ≤ concurrencyLimit (step env s t)); [|lia].
  rewrite step_limit.
  destruct t; simpl; try done; case_bool_decide; simpl; try done.
  specialize (Ht ltac:(done)). lia.
Qed.

Lemma step_lower_limit env s n :
  (1 ≤ n)%Z → (n ≤ Z.of_nat (size (activeSet s)))%Z →
  activeSet (step env s (SetConcurrency n)) = activeSet s
  ∧ concurrencyLimit (step env s (SetConcurrency n)) = Z.to_nat n.
Proof.
  intros H1 Hn. unfold step. simpl. rewrite !bool_decide_eq_true_2 by done.
  rewrite schedule_full; [done|]. simpl. lia.
Qed.


(** C1 — Concurrency bound, as the modelled scheduler has it.  Along every
    sequence of triggers in which no [setConcurrency] puts the limit below
    the number of sessions active at that moment, [|activeSet|] never
    exceeds [concurrencyLimit] at any observed state.  When the limit is put
    below the active count, [activeSet] is left as it is, and in general no
    trigger makes [activeSet] larger than the maximum of its previous size
    and the limit in force; a pass with no free slot dispatches nothing. *)
Theorem concurrency_bound (s0 : SchedulerState)
    (trace : list ((string → DispatchOutcome) * Trigger)) :
  within_limit s0 →
  never_cut_below_active s0 trace →
  Forall within_limit (run s0 trace)
  ∧ (∀ env s t,
       size (activeSet (step env s t))
       ≤ size (activeSet s) `max` concurrencyLimit (step env s t))
  ∧ (∀ env s n,
       (1 ≤ n)%Z → (n ≤ Z.of_nat (size (activeSet s)))%Z →
       activeSet (step env s (SetConcurrency n)) = activeSet s
       ∧ concurrencyLimit (step env s (SetConcurrency n)) = Z.to_nat n)
  ∧ (∀ env s, concurrencyLimit s ≤ size (activeSet s) → schedule env s = s).
Proof.
  intros H0 Htrace. split; [|split; [|split]].
  - revert s0 H0 Htrace. induction trace as [|[env t] trace IH];
      intros s0 H0 Htrace; simpl.
    + by apply Forall_singleton.
    + destruct Htrace as [Ht Htrace]. apply Forall_cons. split; [done|].
      apply IH; [|done]. by apply step_within_limit.
  - apply step_size.
  - apply step_lower_limit.
  - apply schedule_full.
Qed.

Lemma concurrency_bound_witness :
  within_limit
    (mkState [backlog_feature "A" 2 1; backlog_feature "B" 2 2;
              backlog_feature "C" 2 3] false 2 ∅)
  ∧ never_cut_below_active
      (mkState [backlog_feature "A" 2 1; backlog_feature "B" 2 2;
                backlog_feature "C" 2 3] false 2 ∅)
      [(always_ok, Enable); (always_ok, SetConcurrency 3);
       (always_ok, SessionSucceeded "A")]
  ∧ Forall within_limit
      (run (mkState [backlog_feature "A" 2 1; backlog_feature "B" 2 2;
                     backlog_feature "C" 2 3] false 2 ∅)
           [(always_ok, Enable); (always_ok, SetConcurrency 3);
            (always_ok, SessionSucceeded "A")]).
Proof.
  assert (within_limit
            (mkState [backlog_feature "A" 2 1; backlog_feature "B" 2 2;
                      backlog_feature "C" 2 3] false 2 ∅)) as H0.
  { unfold within_limit. vm_compute. lia. }
  assert (never_cut_below_active
            (mkState [backlog_feature "A" 2 1; backlog_feature "B" 2 2;
                      backlog_feature "C" 2 3] false 2 ∅)
            [(always_ok, Enable); (always_ok, SetConcurrency 3);
             (always_ok, SessionSucceeded "A")]) as Htrace.
  { simpl. repeat split. intros _. vm_compute. discriminate. }
  split; [exact H0|]. split; [exact Htrace|].
  exact (proj1 (concurrency_bound _ _ H0 Htrace)).
Defined.

(** Counterexample to C1 as stated: with two sessions running under limit
    2, [setConcurrency(1)] leaves both running, so [|activeSet| = 2] exceeds
    the limit 1. *)
Lemma limit_cut_below_active :
  within_limit
    (mkState [backlog_feature "A" 2 1; backlog_feature "B" 2 2] false 2 ∅)
  ∧ ¬ Forall within_limit
        (run (mkState [backlog_feature "A" 2 1; backlog_feature "B" 2 2] false 2 ∅)
             [(always_ok, Enable); (always_ok, SetConcurrency 1)]).
Proof.
  split.
  - unfold within_limit. vm_compute. lia.
  - simpl. rewrite !Forall_cons. intros (_ & _ & H & _).
    unfold within_limit in H. vm_compute in H. lia.
Qed.


(** ** The scheduler: store and dispatch facts *)

Lemma set_status_ids fid st features :
  id <$> set_status fid st features = id <$> features.
Proof.
  unfold set_status. rewrite <-list_fmap_compose. apply list_fmap_ext.
  intros i f _. simpl. by destruct (decide (id f = fid)).
Qed.

Lemma status_of_set_status fid st features x :
  status_of (set_status fid st features) x
  = if decide (x = fid) then (λ _, st) <$> status_of features x
    else status_of features x.
Proof.
  unfold status_of, set_status. induction features as [|f l IH]; simpl.
  { by destruct (decide (x = fid)). }
  destruct (decide (id f = fid)) as [Hf|Hf]; simpl.
  - case_bool_decide as Hx; simpl.
    + rewrite decide_True by congruence. done.
    + apply IH.
  - case_bool_decide as Hx; simpl.
    + rewrite decide_False by congruence. done.
    + apply IH.
Qed.

Lemma elem_of_set_status_other fid st features f :
  f ∈ features → id f ≠ fid → f ∈ set_status fid st features.
Proof.
  intros Hf Hne. unfold set_status. apply list_elem_of_fmap.
  exists f. split; [|done]. by rewrite decide_False.
Qed.

Lemma unique_ids_eq features f g :
  unique_ids features → f ∈ features → g ∈ features → id f = id g → f = g.
Proof.
  unfold unique_ids. induction features as [|h l IH]; intros Hnd Hf Hg Hid.
  { by apply elem_of_nil in Hf. }
  rewrite fmap_cons, NoDup_cons in Hnd. destruct Hnd as [Hh Hnd].
  apply elem_of_cons in Hf as [->|Hf]; apply elem_of_cons in Hg as [->|Hg].
  - done.
  - destruct Hh. rewrite Hid. by apply list_elem_of_fmap_2.
  - destruct Hh. rewrite <-Hid. by apply list_elem_of_fmap_2.
  - by apply IH.
Qed.

Lemma status_of_unique features f :
  unique_ids features → f ∈ features → status_of features (id f) = Some (status f).
Proof.
  unfold unique_ids, status_of. induction features as [|h l IH]; intros Hnd Hf.
  { by apply elem_of_nil in Hf. }
  rewrite fmap_cons, NoDup_cons in Hnd. destruct Hnd as [Hh Hnd]. simpl.
  apply elem_of_cons in Hf as [->|Hf].
  - by rewrite bool_decide_eq_true_2.
  - rewrite bool_decide_eq_false_2; [by apply IH|].
    intros Hid. destruct Hh. rewrite Hid. by apply list_elem_of_fmap_2.
Qed.

Lemma insert_ordered_perm f l : insert_ordered f l ≡ₚ f :: l.
Proof.
  induction l as [|g l IH]; simpl; [done|].
  destruct (dispatch_before f g); [done|]. rewrite IH. apply Permutation_swap.
Qed.

Lemma order_eligible_perm l : order_eligible l ≡ₚ l.
Proof.
  induction l as [|f l IH]; simpl; [done|].
  unfold order_eligible in *. simpl. by rewrite insert_ordered_perm, IH.
Qed.

Lemma elem_of_take_list {A} (n : nat) (l : list A) (x : A) : x ∈ take n l → x ∈ l.
Proof.
  intros H. rewrite <-(take_drop n l). apply elem_of_app. by left.
Qed.

Lemma chosen_candidate s f :
  f ∈ chosen s → f ∈ store s ∧ candidate s f = true.
Proof.
  unfold chosen. intros Hf%elem_of_take_list.
  rewrite order_eligible_perm in Hf.
  apply list_elem_of_filter in Hf as [? ?]. done.
Qed.

Lemma satisfied_true features d :
  satisfied features d = true
  ↔ status_of features d = Some completed ∨ status_of features d = Some verified.
Proof.
  unfold satisfied. destruct (status_of features d) as [[]|]; split;
    try done; try (by left); try (by right); intros [?|?]; done.
Qed.

Lemma eligible_true features f :
  eligible features f = true
  ↔ status f = backlog
    ∧ ∀ d, d ∈ deps_or_empty f →
           status_of features d = Some completed
           ∨ status_of features d = Some verified.
Proof.
  unfold eligible. rewrite andb_true_iff, bool_decide_eq_true, forallb_forall.
  split; intros [Hs Hd]; (split; [done|]); intros d Hin.
  - apply satisfied_true, Hd. by apply list_elem_of_In.
  - apply satisfied_true, Hd. by apply list_elem_of_In.
Qed.

Lemma dispatch_status env s g fid :
  status_of (store (dispatch env s g)) fid
  = if decide (fid = id g) then after_dispatch env fid (status_of (store s) fid)
    else status_of (store s) fid.
Proof.
  unfold dispatch, after_dispatch. destruct (decide (fid = id g)) as [->|Hne].
  - destruct (env (id g)); simpl; rewrite ?status_of_set_status;
      rewrite ?decide_True by done; try done.
    by destruct (status_of (store s) (id g)).
  - destruct (env (id g)); simpl; rewrite ?status_of_set_status;
      rewrite ?decide_False by done; done.
Qed.

Lemma after_dispatch_idem env fid o :
  after_dispatch env fid (after_dispatch env fid o) = after_dispatch env fid o.
Proof. unfold after_dispatch. destruct (env fid), o; done. Qed.

Lemma dispatches_status env l s fid :
  status_of (store (foldl (dispatch env) s l)) fid
  = if decide (fid ∈ id <$> l) then after_dispatch env fid (status_of (store s) fid)
    else status_of (store s) fid.
Proof.
  revert s. induction l as [|g l IH]; intros s; [|simpl].
  { rewrite decide_False; [done|]. rewrite fmap_nil. by intros ?%elem_of_nil. }
  rewrite IH, dispatch_status.
  destruct (decide (fid ∈ id <$> l)) as [Hl|Hl];
    destruct (decide (fid = id g)) as [Hg|Hg].
  - rewrite decide_True by (apply elem_of_cons; by left).
    apply after_dispatch_idem.
  - rewrite decide_True by (apply elem_of_cons; by right). done.
  - rewrite decide_True by (apply elem_of_cons; by left). done.
  - rewrite decide_False; [done|]. intros [?|?]%elem_of_cons; done.
Qed.

Lemma dispatch_active_iff env s g fid :
  fid ∈ activeSet (dispatch env s g)
  ↔ if decide (fid = id g) then active_after env fid (fid ∈ activeSet s)
    else fid ∈ activeSet s.
Proof.
  unfold dispatch, active_after. destruct (decide (fid = id g)) as [->|Hne].
  - destruct (env (id g)); simpl; [set_solver| |set_solver].
    split; [by right|]. by intros [?|[_ ?]].
  - destruct (env (id g)); simpl; set_solver.
Qed.

Lemma active_after_idem env fid P :
  active_after env fid (active_after env fid P) ↔ active_after env fid P.
Proof. unfold active_after. tauto. Qed.

Lemma active_after_iff env fid P Q :
  (P ↔ Q) → active_after env fid P ↔ active_after env fid Q.
Proof. unfold active_after. tauto. Qed.

Lemma dispatches_active_iff env l s fid :
  fid ∈ activeSet (foldl (dispatch env) s l)
  ↔ if decide (fid ∈ id <$> l) then active_after env fid (fid ∈ activeSet s)
    else fid ∈ activeSet s.
Proof.
  revert s. induction l as [|g l IH]; intros s; [|simpl].
  { rewrite decide_False; [done|]. rewrite fmap_nil. by intros ?%elem_of_nil. }
  rewrite IH.
  destruct (decide (fid ∈ id <$> l)) as [Hl|Hl];
    destruct (decide (fid = id g)) as [Hg|Hg].
  - rewrite decide_True by (apply elem_of_cons; by left).
    rewrite (active_after_iff _ _ _ _ (dispatch_active_iff env s g fid)).
    rewrite decide_True by done. apply active_after_idem.
  - rewrite decide_True by (apply elem_of_cons; by right).
    apply active_after_iff. rewrite dispatch_active_iff.
    by rewrite decide_False.
  - rewrite decide_True by (apply elem_of_cons; by left).
    rewrite dispatch_active_iff. by rewrite decide_True.
  - rewrite decide_False by (intros [?|?]%elem_of_cons; done).
    rewrite dispatch_active_iff. by rewrite decide_False.
Qed.

Lemma dispatches_keep env l s f :
  (∀ g, g ∈ l → id g ≠ id f) → f ∈ store s →
  f ∈ store (foldl (dispatch env) s l).
Proof.
  revert s. induction l as [|g l IH]; intros s Hl Hf; simpl; [done|].
  apply IH.
  - intros h Hh. apply Hl. by apply list_elem_of_further.
  - assert (id f ≠ id g) as Hne.
    { intros Heq. by apply (Hl g (list_elem_of_here _ _)). }
    unfold dispatch. destruct (env (id g)); simpl; [|done|];
      repeat apply elem_of_set_status_other; done.
Qed.

Lemma schedule_runs env s :
  enabled s = true → (0 < availableSlots s)%Z →
  schedule env s = foldl (dispatch env) s (chosen s).
Proof.
  intros He Hs. unfold schedule. rewrite He.
  rewrite bool_decide_eq_false_2 by lia. done.
Qed.

Lemma chosen_nonempty_slots s f : f ∈ chosen s → (0 < availableSlots s)%Z.
Proof.
  unfold chosen. intros Hf.
  destruct (Z.to_nat (availableSlots s)) eqn:Hn; [|lia].
  rewrite take_0 in Hf. by apply elem_of_nil in Hf.
Qed.


(** C5 — Dependency ordering.  A feature is eligible exactly when it is in
    [backlog] and every id in its dependency list has status [completed] or
    [verified] (none, when the list is empty).  Whatever the trigger, a
    feature that enters [activeSet] was an eligible backlog feature of the
    store the scheduling pass read.  A feature that is not eligible is
    skipped: the pass leaves its record as it was and does not make it
    active. *)
Theorem dependency_ordering (env : string → DispatchOutcome)
    (s : SchedulerState) (t : Trigger) :
  (∀ f, eligible (store s) f = true
        ↔ status f = backlog
          ∧ ∀ d, d ∈ deps_or_empty f →
                 status_of (store s) d = Some completed
                 ∨ status_of (store s) d = Some verified)
  ∧ (∀ fid, fid ∈ activeSet (step env s t) → fid ∉ activeSet s →
       ∃ f, f ∈ store (apply_trigger s t) ∧ id f = fid ∧ status f = backlog
            ∧ ∀ d, d ∈ deps_or_empty f →
                   status_of (store (apply_trigger s t)) d = Some completed
                   ∨ status_of (store (apply_trigger s t)) d = Some verified)
  ∧ (unique_ids (store s) →
     ∀ f, f ∈ store s → eligible (store s) f = false →
          f ∈ store (schedule env s)
          ∧ (id f ∈ activeSet (schedule env s) → id f ∈ activeSet s)).
Proof.
  split; [intros f; apply eligible_true|]. split.
  - intros fid Hin Hout.
    assert (fid ∉ activeSet (apply_trigger s t)) as Hout'.
    { intros H. by apply Hout, (apply_trigger_active s t). }
    unfold step in Hin. destruct (retriggers s t); [|done].
    unfold schedule in Hin. destruct (_ || _); [done|].
    apply dispatches_active in Hin.
    apply elem_of_union in Hin as [Hin|Hin]; [|done].
    apply elem_of_list_to_set, list_elem_of_fmap in Hin as (f & -> & Hf).
    apply chosen_candidate in Hf as [Hf Hc].
    unfold candidate in Hc. apply andb_true_iff in Hc as [He _].
    apply eligible_true in He as [Hb Hd]. by exists f.
  - intros Hu f Hf Hne.
    assert (∀ g, g ∈ chosen s → id g ≠ id f) as Hother.
    { intros g [Hg Hc]%chosen_candidate Hid.
      assert (g = f) as -> by (by apply (unique_ids_eq (store s))).
      unfold candidate in Hc. apply andb_true_iff in Hc as [He _]. congruence. }
    unfold schedule. destruct (_ || _); [done|]. split.
    + by apply dispatches_keep.
    + rewrite dispatches_active_iff. rewrite decide_False; [done|].
      intros (g & Hid & Hg)%list_elem_of_fmap. by apply (Hother g).
Qed.

(** [A] waits for [X]: it is passed over while [X] is not [completed], also
    when [X] is [waiting_approval], and is dispatched on the first trigger
    after [X] is [completed] that finds a free slot. *)
Example dependency_gates_dispatch :
  (λ s, (status_of (store s) "A", status_of (store s) "X",
         status_of (store s) "B", elements (activeSet s)))
    <$> run (mkState gated_store false 1 ∅)
            [(always_ok, Enable); (always_ok, SessionSucceeded "X");
             (always_ok, StatusChanged "X" completed);
             (always_ok, SessionSucceeded "B")]
  = [ (Some backlog, Some backlog, Some backlog, []);
      (Some backlog, Some in_progress, Some backlog, ["X"]);
      (Some backlog, Some waiting_approval, Some in_progress, ["B"]);
      (Some backlog, Some completed, Some in_progress, ["B"]);
      (Some in_progress, Some completed, Some waiting_approval, ["A"]) ].
Proof. vm_compute. reflexivity. Qed.

(** C6 — Revert on dispatch error.  For a store with unique ids, when the
    store update or the runner start throws while a chosen feature is
    dispatched, after the pass that feature has status [backlog] and is not
    in [activeSet]; the pass goes on, and every chosen feature whose
    dispatch succeeds is [in_progress] and in [activeSet]. *)
Theorem revert_on_dispatch_error (env : string → DispatchOutcome)
    (s : SchedulerState) (f : Feature) :
  unique_ids (store s) →
  enabled s = true →
  f ∈ chosen s →
  env (id f) ≠ DispatchOk →
  status_of (store (schedule env s)) (id f) = Some backlog
  ∧ (id f ∉ activeSet (schedule env s))
  ∧ (∀ g, g ∈ chosen s → env (id g) = DispatchOk →
          status_of (store (schedule env s)) (id g) = Some in_progress
          ∧ id g ∈ activeSet (schedule env s)).
Proof.
  intros Hu Hen Hf Hfail.
  rewrite schedule_runs; [|done|by eapply chosen_nonempty_slots].
  assert (∀ g, g ∈ chosen s →
            status_of (store s) (id g) = Some backlog ∧ (id g ∉ activeSet s)
            ∧ id g ∈ id <$> chosen s) as Hchosen.
  { intros g Hg. pose proof (list_elem_of_fmap_2 id _ _ Hg) as Hid.
    apply chosen_candidate in Hg as [Hg Hc].
    unfold candidate in Hc. apply andb_true_iff in Hc as [He Ha].
    apply eligible_true in He as [Hb _].
    rewrite status_of_unique by done. rewrite Hb.
    apply negb_true_iff, bool_decide_eq_false in Ha. done. }
  split; [|split].
  - destruct (Hchosen f Hf) as (Hst & _ & Hid).
    rewrite dispatches_status, decide_True by done.
    unfold after_dispatch. rewrite Hst. by destruct (env (id f)).
  - destruct (Hchosen f Hf) as (_ & Hact & Hid).
    rewrite dispatches_active_iff, decide_True by done.
    unfold active_after. intros [?|[_ ?]]; done.
  - intros g Hg Hok. destruct (Hchosen g Hg) as (Hst & _ & Hid). split.
    + rewrite dispatches_status, decide_True by done.
      unfold after_dispatch. by rewrite Hok, Hst.
    + rewrite dispatches_active_iff, decide_True by done. by left.
Qed.


Lemma revert_on_dispatch_error_witness :
  unique_ids (store (mkState [backlog_feature "A" 2 1; backlog_feature "B" 2 2;
                              backlog_feature "C" 2 3] true 2 ∅))
  ∧ enabled (mkState [backlog_feature "A" 2 1; backlog_feature "B" 2 2;
                      backlog_feature "C" 2 3] true 2 ∅) = true
  ∧ backlog_feature "A" 2 1
      ∈ chosen (mkState [backlog_feature "A" 2 1; backlog_feature "B" 2 2;
                         backlog_feature "C" 2 3] true 2 ∅)
  ∧ runner_fails_for_A (id (backlog_feature "A" 2 1)) ≠ DispatchOk
  ∧ status_of
      (store (schedule runner_fails_for_A
                (mkState [backlog_feature "A" 2 1; backlog_feature "B" 2 2;
                          backlog_feature "C" 2 3] true 2 ∅)))
      (id (backlog_feature "A" 2 1)) = Some backlog
  ∧ (id (backlog_feature "A" 2 1)
       ∉ activeSet (schedule runner_fails_for_A
                      (mkState [backlog_feature "A" 2 1; backlog_feature "B" 2 2;
                                backlog_feature "C" 2 3] true 2 ∅))).
Proof.
  assert (unique_ids
            (store (mkState [backlog_feature "A" 2 1; backlog_feature "B" 2 2;
                             backlog_feature "C" 2 3] true 2 ∅))) as Hu.
  { unfold unique_ids. simpl. repeat (apply NoDup_cons; split).
    - rewrite !elem_of_cons, elem_of_nil. intros [H|[H|[]]]; discriminate H.
    - rewrite !elem_of_cons, elem_of_nil. intros [H|[]]; discriminate H.
    - intros H. by apply elem_of_nil in H.
    - apply NoDup_nil_2. }
  assert (backlog_feature "A" 2 1
            ∈ chosen (mkState [backlog_feature "A" 2 1; backlog_feature "B" 2 2;
                               backlog_feature "C" 2 3] true 2 ∅)) as Hf.
  { vm_compute. apply list_elem_of_here. }
  assert (runner_fails_for_A (id (backlog_feature "A" 2 1)) ≠ DispatchOk) as Hfail.
  { vm_compute. discriminate. }
  split; [exact Hu|]. split; [reflexivity|]. split; [exact Hf|].
  split; [exact Hfail|].
  destruct (revert_on_dispatch_error runner_fails_for_A _ _ Hu eq_refl Hf Hfail)
    as (Hst & Hact & _).
  split; [exact Hst|exact Hact].
Defined.

(** With the runner failing for [A], the pass still dispatches [B]. *)
Example pass_continues_after_failure :
  let s := schedule runner_fails_for_A
             (mkState [backlog_feature "A" 2 1; backlog_feature "B" 2 2;
                       backlog_feature "C" 2 3] true 2 ∅) in
  status_of (store s) "A" = Some backlog
  ∧ status_of (store s) "B" = Some in_progress
  ∧ status_of (store s) "C" = Some backlog
  ∧ elements (activeSet s) = ["B"].
Proof. vm_compute. repeat split. Qed.


(** ** The scheduler: dispatch order *)

Lemma before_iff f g :
  before f g
  ↔ priority f < priority g
    ∨ (priority f = priority g ∧ createdAt f ≤ createdAt g).
Proof.
  unfold before, dispatch_before.
  rewrite orb_true_iff, andb_true_iff, Nat.ltb_lt, Nat.eqb_eq, Nat.leb_le. done.
Qed.

Lemma before_total f g : ¬ before f g → before g f.
Proof. rewrite !before_iff. lia. Qed.

Lemma before_trans f g h : before f g → before g h → before f h.
Proof. rewrite !before_iff. lia. Qed.

Lemma insert_ordered_sorted f l :
  StronglySorted before l → StronglySorted before (insert_ordered f l).
Proof.
  induction 1 as [|g l Hl IH Hg]; simpl.
  { apply SSorted_cons; [apply SSorted_nil|apply Forall_nil_2]. }
  destruct (dispatch_before f g) eqn:Hfg.
  - apply SSorted_cons; [by apply SSorted_cons|].
    apply Forall_cons. split; [done|].
    eapply Forall_impl; [exact Hg|]. intros x Hx. by eapply before_trans.
  - apply SSorted_cons; [done|]. rewrite insert_ordered_perm.
    apply Forall_cons. split; [|done].
    apply before_total. unfold before. congruence.
Qed.

Lemma order_eligible_sorted l : StronglySorted before (order_eligible l).
Proof.
  induction l as [|f l IH]; [apply SSorted_nil|].
  by apply insert_ordered_sorted.
Qed.

Lemma created_sorted_before p l :
  (∀ f, f ∈ l → priority f = p) →
  StronglySorted (λ f g, createdAt f < createdAt g) l →
  StronglySorted before l.
Proof.
  intros Hp. induction 1 as [|f l Hl IH Hf]; [apply SSorted_nil|].
  apply SSorted_cons.
  - apply IH. intros g Hg. apply Hp. by apply list_elem_of_further.
  - apply Forall_forall. intros g Hg. rewrite Forall_forall in Hf.
    apply before_iff. right. split.
    + rewrite !Hp; [done|by apply list_elem_of_further|apply list_elem_of_here].
    + specialize (Hf g Hg). lia.
Qed.

Lemma created_sorted_eq l f g :
  StronglySorted (λ f g, createdAt f < createdAt g) l →
  f ∈ l → g ∈ l → createdAt f = createdAt g → f = g.
Proof.
  induction 1 as [|h l Hl IH Hh]; intros Hf Hg Heq.
  { by apply elem_of_nil in Hf. }
  rewrite Forall_forall in Hh.
  apply elem_of_cons in Hf as [->|Hf]; apply elem_of_cons in Hg as [->|Hg].
  - done.
  - specialize (Hh g Hg). lia.
  - specialize (Hh f Hf). lia.
  - by apply IH.
Qed.

(** The eligible features come out in creation order, whatever the order of
    the store. *)
Lemma order_eligible_creation_order p l waiting :
  (∀ f, f ∈ waiting → priority f = p) →
  StronglySorted (λ f g, createdAt f < createdAt g) waiting →
  l ≡ₚ waiting → order_eligible l = waiting.
Proof.
  intros Hp Hsorted Hperm. symmetry.
  apply (StronglySorted_unique_strong before).
  - intros x1 x2 Hx1 Hx2 H12 H21.
    rewrite order_eligible_perm, Hperm in Hx2.
    apply (created_sorted_eq waiting); [done..|].
    apply before_iff in H12, H21.
    rewrite (Hp x1), (Hp x2) in H12, H21 by done. lia.
  - by eapply created_sorted_before.
  - apply order_eligible_sorted.
  - by rewrite order_eligible_perm.
Qed.


(** ** The scheduler: drain and refill *)

Lemma filter_none {A} (P : A → Prop) `{∀ x, Decision (P x)} (l : list A) :
  (∀ x, x ∈ l → ¬ P x) → filter P l = [].
Proof.
  induction l as [|x l IH]; intros Hl; [done|].
  rewrite filter_cons_False by (apply Hl, list_elem_of_here).
  apply IH. intros y Hy. apply Hl. by apply list_elem_of_further.
Qed.

Lemma filter_all {A} (P : A → Prop) `{∀ x, Decision (P x)} (l : list A) :
  (∀ x, x ∈ l → P x) → filter P l = l.
Proof.
  induction l as [|x l IH]; intros Hl; [done|].
  rewrite filter_cons_True by (apply Hl, list_elem_of_here).
  f_equal. apply IH. intros y Hy. apply Hl. by apply list_elem_of_further.
Qed.

Lemma set_status_app fid st l1 l2 :
  set_status fid st (l1 ++ l2) = set_status fid st l1 ++ set_status fid st l2.
Proof. unfold set_status. apply fmap_app. Qed.

Lemma set_status_others fid st l :
  (∀ g, g ∈ l → id g ≠ fid) → set_status fid st l = l.
Proof.
  intros Hl. unfold set_status. induction l as [|g l IH]; [done|].
  rewrite fmap_cons, decide_False by (apply Hl, list_elem_of_here).
  f_equal. apply IH. intros h Hh. apply Hl. by apply list_elem_of_further.
Qed.

Lemma set_status_perm fid st l1 l2 :
  l1 ≡ₚ l2 → set_status fid st l1 ≡ₚ set_status fid st l2.
Proof. intros H. unfold set_status. by rewrite H. Qed.

Lemma split_ids (finished waiting : list Feature) (f : Feature) :
  NoDup (id <$> (finished ++ f :: waiting)) →
  (∀ g, g ∈ finished → id g ≠ id f) ∧ (∀ g, g ∈ waiting → id g ≠ id f).
Proof.
  rewrite fmap_app, fmap_cons. intros (_ & Hd & [Hf _]%NoDup_cons)%NoDup_app.
  split.
  - intros g Hg Heq. apply (Hd (id g)); [by apply list_elem_of_fmap_2|].
    rewrite Heq. apply list_elem_of_here.
  - intros g Hg Heq. apply Hf. rewrite <-Heq. by apply list_elem_of_fmap_2.
Qed.

Section Drain.
Variable fs : list Feature.
Variable p : nat.
Hypothesis ids_unique : NoDup (id <$> fs).
Hypothesis all_independent_backlog :
  ∀ f, f ∈ fs → status f = backlog ∧ deps_or_empty f = [] ∧ priority f = p.
Hypothesis creation_order : StronglySorted (λ f g, createdAt f < createdAt g) fs.

Lemma candidates_idle s finished waiting :
  fs = finished ++ waiting → activeSet s = ∅ →
  filter (λ f, candidate s f = true) (idle_store finished waiting) = waiting.
Proof.
  intros Hfs Hact. unfold idle_store. rewrite filter_app.
  rewrite filter_none, filter_all; [done| |].
  - intros f Hf. unfold candidate, eligible. rewrite Hact.
    destruct (all_independent_backlog f) as (-> & -> & _).
    { rewrite Hfs. apply elem_of_app. by right. }
    simpl. rewrite ?bool_decide_eq_true_2 by done.
    rewrite bool_decide_eq_false_2 by set_solver. done.
  - intros f (g & -> & Hg)%list_elem_of_fmap. unfold candidate, eligible.
    simpl. rewrite ?bool_decide_eq_false_2 by done. done.
Qed.

Lemma waiting_sorted finished waiting :
  fs = finished ++ waiting →
  (∀ f, f ∈ waiting → priority f = p)
  ∧ StronglySorted (λ f g, createdAt f < createdAt g) waiting.
Proof.
  intros Hfs. split.
  - intros f Hf. apply all_independent_backlog. rewrite Hfs.
    apply elem_of_app. by right.
  - pose proof creation_order as Hs. rewrite Hfs in Hs.
    by apply StronglySorted_app_1_r in Hs.
Qed.

Lemma schedule_idle s finished waiting :
  fs = finished ++ waiting →
  store s ≡ₚ idle_store finished waiting →
  enabled s = true → concurrencyLimit s = 1 → activeSet s = ∅ →
  drain_invariant finished waiting (schedule always_ok s).
Proof.
  intros Hfs Hstore Hen Hlim Hact.
  assert (availableSlots s = 1%Z) as Hslots.
  { unfold availableSlots. rewrite Hlim, Hact, size_empty. done. }
  rewrite schedule_runs by (done || lia).
  assert (chosen s = take 1 waiting) as ->.
  { unfold chosen. rewrite Hslots. f_equal.
    destruct (waiting_sorted finished waiting Hfs) as [Hp Hs].
    apply (order_eligible_creation_order p); [done..|].
    rewrite <-(candidates_idle s finished waiting Hfs Hact).
    by apply filter_Permutation. }
  unfold drain_invariant. destruct waiting as [|f waiting]; simpl.
  { unfold busy_store, idle_store in *. done. }
  unfold dispatch, always_ok. simpl. rewrite Hact, Hen, Hlim.
  split; [|split; [done|split; [done|set_solver]]].
  rewrite (set_status_perm _ _ _ _ Hstore).
  unfold idle_store, busy_store. rewrite set_status_app.
  rewrite Hfs in ids_unique. apply split_ids in ids_unique as [Hfin Hwait].
  rewrite (set_status_others _ _ (_ <$> finished)).
  - unfold set_status at 1. rewrite fmap_cons, decide_True by done.
    fold (set_status (id f) in_progress waiting).
    by rewrite set_status_others.
  - intros g (h & -> & Hh)%list_elem_of_fmap. simpl. by apply Hfin.
Qed.

Lemma finish_busy s finished f waiting :
  fs = finished ++ f :: waiting →
  drain_invariant finished (f :: waiting) s →
  drain_invariant (finished ++ [f]) waiting (finish_one always_ok s).
Proof.
  intros Hfs (Hstore & Hen & Hlim & Hact). simpl in Hact.
  unfold finish_one. rewrite Hact, elements_singleton.
  unfold step. simpl. rewrite Hact.
  rewrite !bool_decide_eq_true_2 by set_solver.
  apply schedule_idle; simpl; [by rewrite <-app_assoc|..|done|done|set_solver].
  rewrite (set_status_perm _ _ _ _ Hstore).
  unfold idle_store, busy_store. rewrite set_status_app.
  pose proof ids_unique as Hnd. rewrite Hfs in Hnd.
  apply split_ids in Hnd as [Hfin Hwait].
  rewrite (set_status_others _ _ (_ <$> finished)).
  - unfold set_status at 1. rewrite fmap_cons. simpl.
    rewrite decide_True by done.
    fold (set_status (id f) waiting_approval waiting).
    rewrite set_status_others by done.
    rewrite fmap_app, <-app_assoc. done.
  - intros g (h & -> & Hh)%list_elem_of_fmap. simpl. by apply Hfin.
Qed.

Lemma drain_run_invariant st0 k :
  st0 ≡ₚ fs → k ≤ length fs →
  drain_invariant (take k fs) (drop k fs) (drain_run st0 k).
Proof.
  intros Hst0. unfold drain_run. induction k as [|k IH]; intros Hk.
  - simpl. unfold step. simpl. rewrite drop_0.
    apply schedule_idle; simpl; done.
  - destruct (lookup_lt_is_Some_2 fs k) as [f Hf]; [lia|].
    rewrite (take_S_r _ _ _ Hf). simpl.
    pose proof (drop_S _ _ _ Hf) as Hdrop.
    apply finish_busy.
    + by rewrite <-Hdrop, take_drop.
    + rewrite <-Hdrop. apply IH. lia.
Qed.

(** What the invariant says about the statuses. *)
Lemma drain_statuses finished waiting s :
  fs = finished ++ waiting →
  drain_invariant finished waiting s →
  in_progress_count s ≤ 1
  ∧ (∀ g, g ∈ finished → status_of (store s) (id g) = Some waiting_approval)
  ∧ (∀ g, head waiting = Some g → status_of (store s) (id g) = Some in_progress)
  ∧ (∀ g, g ∈ tail waiting → status_of (store s) (id g) = Some backlog).
Proof.
  intros Hfs (Hstore & _ & _ & _).
  assert (unique_ids (store s)) as Hu.
  { unfold unique_ids. rewrite Hstore. unfold busy_store.
    rewrite Hfs in ids_unique. rewrite fmap_app in ids_unique |- *.
    rewrite <-list_fmap_compose.
    destruct waiting as [|f waiting]; simpl in *; done. }
  assert (∀ g, g ∈ busy_store finished waiting →
               status_of (store s) (id g) = Some (status g)) as Hin.
  { intros g Hg. apply status_of_unique; [done|]. by rewrite Hstore. }
  split; [|split; [|split]].
  - unfold in_progress_count.
    rewrite (Permutation_length (filter_Permutation _ _ _ Hstore)).
    unfold busy_store. rewrite filter_app, length_app.
    rewrite filter_none.
    2:{ intros g (h & -> & _)%list_elem_of_fmap. done. }
    destruct waiting as [|f waiting]; simpl; [lia|].
    rewrite filter_none; [simpl; lia|].
    intros g Hg. destruct (all_independent_backlog g) as (-> & _); [|done].
    rewrite Hfs. apply elem_of_app. right. by apply list_elem_of_further.
  - intros g Hg.
    apply (Hin (with_status waiting_approval g)).
    unfold busy_store. apply elem_of_app. left. by apply list_elem_of_fmap_2.
  - intros g Hg. destruct waiting as [|f waiting]; [done|].
    injection Hg as ->.
    apply (Hin (with_status in_progress g)).
    unfold busy_store. apply elem_of_app. right. apply list_elem_of_here.
  - intros g Hg. destruct waiting as [|f waiting]; simpl in Hg.
    { by apply elem_of_nil in Hg. }
    destruct (all_independent_backlog g) as (Hb & _).
    { rewrite Hfs. apply elem_of_app. right. by apply list_elem_of_further. }
    rewrite <-Hb. apply Hin.
    unfold busy_store. apply elem_of_app. right. by apply list_elem_of_further.
Qed.

End Drain.


(** C7 — Drain and refill.  Take backlog features with pairwise distinct
    ids, no dependencies and one common priority, listed in [fs] by strictly
    increasing creation time (five of them, A to E, in the literal scenario),
    stored in any order, and run auto mode with limit 1, every session ending
    in success.  Before the run and after each of the first [k] completions
    at most one feature is [in_progress]; after [k] completions the first
    [k] features in creation order are [waiting_approval], the next one is
    [in_progress] and is the only active session, and the later ones are
    still in [backlog]; after as many completions as there are features all
    of them are [waiting_approval]. *)
Theorem drain_and_refill (fs st0 : list Feature) (p k : nat) :
  NoDup (id <$> fs) →
  (∀ f, f ∈ fs → status f = backlog ∧ deps_or_empty f = [] ∧ priority f = p) →
  StronglySorted (λ f g, createdAt f < createdAt g) fs →
  st0 ≡ₚ fs →
  k ≤ length fs →
  in_progress_count (mkState st0 false 1 ∅) ≤ 1
  ∧ in_progress_count (drain_run st0 k) ≤ 1
  ∧ activeSet (drain_run st0 k) = running (drop k fs)
  ∧ (∀ i f, fs !! i = Some f →
       status_of (store (drain_run st0 k)) (id f)
       = Some (if decide (i < k) then waiting_approval
               else if decide (i = k) then in_progress else backlog))
  ∧ (∀ f, f ∈ fs →
       status_of (store (drain_run st0 (length fs))) (id f)
       = Some waiting_approval).
Proof.
  intros Hnd Hfs Hsorted Hst0 Hk.
  pose proof (drain_run_invariant fs p Hnd Hfs Hsorted st0 k Hst0 Hk) as Hinv.
  pose proof (drain_statuses fs p Hnd Hfs (take k fs) (drop k fs)
                (drain_run st0 k) (eq_sym (take_drop k fs)) Hinv)
    as (Hcount & Hdone & Hcur & Hlater).
  split; [|split; [done|split; [apply Hinv|split]]].
  - unfold in_progress_count. simpl. rewrite filter_none; [simpl; lia|].
    intros f Hf. rewrite Hst0 in Hf. by destruct (Hfs f Hf) as (-> & _).
  - intros i f Hi. destruct (decide (i < k)) as [Hlt|Hge].
    + apply Hdone. apply (list_elem_of_lookup_2 _ i). by rewrite lookup_take_lt.
    + destruct (decide (i = k)) as [->|Hne].
      * apply Hcur. by rewrite (drop_S _ _ _ Hi).
      * apply Hlater.
        destruct (lookup_lt_is_Some_2 fs k) as [g Hg];
          [apply lookup_lt_Some in Hi; lia|].
        rewrite (drop_S _ _ _ Hg). simpl.
        apply (list_elem_of_lookup_2 _ (i - S k)). rewrite lookup_drop.
        by replace (S k + (i - S k)) with i by lia.
  - intros f Hf.
    pose proof (drain_run_invariant fs p Hnd Hfs Hsorted st0 (length fs) Hst0
                  ltac:(done)) as Hend.
    pose proof (drain_statuses fs p Hnd Hfs (take (length fs) fs)
                  (drop (length fs) fs) (drain_run st0 (length fs))
                  (eq_sym (take_drop (length fs) fs)) Hend) as (_ & Hall & _).
    apply Hall. by rewrite take_ge.
Qed.

Lemma five_features_independent (f : Feature) :
  f ∈ five_features →
  status f = backlog ∧ deps_or_empty f = [] ∧ priority f = 2.
Proof.
  unfold five_features. rewrite !elem_of_cons, elem_of_nil.
  intros [->|[->|[->|[->|[->|[]]]]]]; repeat split.
Defined.

Lemma drain_and_refill_witness :
  NoDup (id <$> five_features)
  ∧ (∀ f, f ∈ five_features →
          status f = backlog ∧ deps_or_empty f = [] ∧ priority f = 2)
  ∧ StronglySorted (λ f g, createdAt f < createdAt g) five_features
  ∧ five_stored ≡ₚ five_features
  ∧ 3 ≤ length five_features
  ∧ in_progress_count (mkState five_stored false 1 ∅) ≤ 1
  ∧ in_progress_count (drain_run five_stored 3) ≤ 1
  ∧ activeSet (drain_run five_stored 3) = running (drop 3 five_features)
  ∧ (∀ i f, five_features !! i = Some f →
       status_of (store (drain_run five_stored 3)) (id f)
       = Some (if decide (i < 3) then waiting_approval
               else if decide (i = 3) then in_progress else backlog))
  ∧ (∀ f, f ∈ five_features →
       status_of (store (drain_run five_stored (length five_features))) (id f)
       = Some waiting_approval).
Proof.
  assert (NoDup (id <$> five_features)) as Hnd.
  { apply (bool_decide_unpack _). vm_compute. exact I. }
  assert (StronglySorted (λ f g, createdAt f < createdAt g) five_features)
    as Hsorted.
  { apply (bool_decide_unpack _). vm_compute. exact I. }
  assert (five_stored ≡ₚ five_features) as Hperm.
  { exact (reverse_Permutation five_features). }
  assert (3 ≤ length five_features) as Hk by (simpl; lia).
  split; [exact Hnd|]. split; [exact five_features_independent|].
  split; [exact Hsorted|]. split; [exact Hperm|]. split; [exact Hk|].
  exact (drain_and_refill five_features five_stored 2 3 Hnd
           five_features_independent Hsorted Hperm Hk).
Defined.

(** The run on the literal scenario, state by state: the features finish in
    the order A, B, C, D, E, one at a time. *)
Example drain_and_refill_trace :
  (λ k, (λ f, status_of (store (drain_run five_stored k)) (id f)) <$> five_features)
    <$> [0; 1; 2; 5]
  = [ [Some in_progress; Some backlog; Some backlog; Some backlog; Some backlog];
      [Some waiting_approval; Some in_progress; Some backlog; Some backlog;
       Some backlog];
      [Some waiting_approval; Some waiting_approval; Some in_progress;
       Some backlog; Some backlog];
      [Some waiting_approval; Some waiting_approval; Some waiting_approval;
       Some waiting_approval; Some waiting_approval] ].
Proof. vm_compute. reflexivity. Qed.

End SchedulerProofs.

(** * Further properties of the dependency helpers *)

Module ValidatorFacts.
Import DependencyValidation ValidationProofs.

Lemma base_errors_nil cur deps :
  base_errors cur deps = [] ↔ (cur ∉ deps) ∧ NoDup deps.
Proof.
  split.
  - intros H. split.
    + intros Hin. apply (proj2 (base_errors_self cur deps)) in Hin.
      rewrite H in Hin. by apply elem_of_nil in Hin.
    + destruct (decide (NoDup deps)) as [?|Hnd]; [done|].
      apply (proj2 (base_errors_duplicate cur deps)) in Hnd.
      rewrite H in Hnd. by apply elem_of_nil in Hnd.
  - intros [Hc Hnd]. unfold base_errors, includes.
    rewrite decide_False by (by intros H; apply H, remove_dups_length_NoDup).
    by rewrite bool_decide_eq_false_2.
Qed.

Lemma flagged_reaches fuel cur deps allFeatures d :
  cur ∉ deps → d ∈ deps → flagged fuel cur deps allFeatures d →
  ∃ d', d' ∈ deps ∧ tc (map_edge (featureMap allFeatures)) d' cur.
Proof.
  intros Hc Hd [Hne Hw].
  apply would_sound in Hw as [->|(e & [Hedge|Hextra] & Hreach)]; [done| |].
  - exists d. split; [done|].
    destruct Hreach as [Heq|Hreach]; [subst e; by apply tc_once|].
    eapply tc_l; [exact Hedge|exact Hreach].
  - apply list_elem_of_filter in Hextra as [_ He]. exists e. split; [done|].
    destruct Hreach as [Heq|Hreach]; [|done]. subst e. done.
Qed.

Lemma verdict_spec (allFeatures : list Feature) (cur : string)
    (deps : list string) :
  ∃ r, validateDependencies (validation_fuel allFeatures) cur deps allFeatures = Some r
    ∧ (valid r = true
       ↔ (cur ∉ deps) ∧ NoDup deps
         ∧ ∀ d, d ∈ deps → ¬ tc (map_edge (featureMap allFeatures)) d cur)
    ∧ (valid r = true ↔ errors r = []).
Proof.
  eexists. split; [apply validate_spec; unfold validation_fuel; lia|]. simpl.
  set (fuel := validation_fuel allFeatures).
  split; [|by rewrite bool_decide_eq_true, length_zero_iff_nil].
  rewrite bool_decide_eq_true, length_zero_iff_nil. split.
  - intros [Hbase Hcirc]%app_eq_nil.
    apply base_errors_nil in Hbase as [Hc Hnd]. split; [done|]. split; [done|].
    intros d Hd Hpath.
    assert (flagged fuel cur deps allFeatures d) as Hfl.
    { split; [by intros ->|]. apply would_complete; [unfold fuel, validation_fuel; lia|done]. }
    unfold circular_errors in Hcirc. apply fmap_nil_inv in Hcirc.
    by apply (filter_nil_not_elem_of (flagged fuel cur deps allFeatures) deps d).
  - intros (Hc & Hnd & Hno).
    rewrite (proj2 (base_errors_nil cur deps)) by done. simpl.
    unfold circular_errors.
    destruct (filter _ deps) as [|d l] eqn:Hf; [done|].
    assert (d ∈ filter (flagged fuel cur deps allFeatures) deps) as Hd
      by (rewrite Hf; apply list_elem_of_here).
    apply list_elem_of_filter in Hd as [Hfl Hd].
    destruct (flagged_reaches _ _ _ _ _ Hc Hd Hfl) as (d' & Hd' & Hpath).
    by destruct (Hno d' Hd').
Qed.

(** X1 — The verdict of [validateDependencies], for any feature list: the
    result is valid exactly when the candidate is not among the proposed
    dependencies, no id is proposed twice, and no proposed dependency
    reaches the candidate over the dependency lists held by the feature
    map. *)
Theorem validate_verdict (allFeatures : list Feature) (cur : string)
    (deps : list string) :
  ∃ r, validateDependencies (validation_fuel allFeatures) cur deps allFeatures = Some r
    ∧ (valid r = true
       ↔ (cur ∉ deps) ∧ NoDup deps
         ∧ ∀ d, d ∈ deps → ¬ tc (map_edge (featureMap allFeatures)) d cur)
    ∧ (valid r = true ↔ errors r = []).
Proof. apply verdict_spec. Qed.

(** X2 — The verdict does not depend on the order in which the dependencies
    were selected. *)
Theorem validate_order_irrelevant (allFeatures : list Feature) (cur : string)
    (deps deps' : list string) :
  deps ≡ₚ deps' →
  ∃ r r',
    validateDependencies (validation_fuel allFeatures) cur deps allFeatures = Some r
    ∧ validateDependencies (validation_fuel allFeatures) cur deps' allFeatures = Some r'
    ∧ valid r = valid r'.
Proof.
  intros Hperm.
  destruct (verdict_spec allFeatures cur deps) as (r & Hr & Hv & _).
  destruct (verdict_spec allFeatures cur deps') as (r' & Hr' & Hv' & _).
  exists r, r'. split; [done|]. split; [done|].
  assert (valid r = true ↔ valid r' = true) as Hiff.
  { rewrite Hv, Hv'. by setoid_rewrite Hperm. }
  destruct (valid r), (valid r'); try done.
  - symmetry. by apply Hiff.
  - by apply Hiff.
Qed.

Lemma validate_order_irrelevant_witness :
  ["B"; "C"] ≡ₚ ["C"; "B"]
  ∧ ∃ r r',
      validateDependencies
        (validation_fuel [createFeature "A" []; createFeature "B" ["C"];
                          createFeature "C" []])
        "A" ["B"; "C"]
        [createFeature "A" []; createFeature "B" ["C"]; createFeature "C" []]
      = Some r
      ∧ validateDependencies
          (validation_fuel [createFeature "A" []; createFeature "B" ["C"];
                            createFeature "C" []])
          "A" ["C"; "B"]
          [createFeature "A" []; createFeature "B" ["C"]; createFeature "C" []]
        = Some r'
      ∧ valid r = valid r'.
Proof.
  split; [apply Permutation_swap|].
  exact (validate_order_irrelevant
           [createFeature "A" []; createFeature "B" ["C"]; createFeature "C" []]
           "A" ["B"; "C"] ["C"; "B"] (Permutation_swap _ _ _)).
Defined.

(** X3 — Removing a dependency with [handleRemoveDependency] never turns a
    valid selection into an invalid one. *)
Theorem remove_keeps_valid (allFeatures : list Feature) (cur featureId : string)
    (deps : list string) (r : ValidationResult) :
  validateDependencies (validation_fuel allFeatures) cur deps allFeatures = Some r →
  valid r = true →
  ∃ r', validateDependencies (validation_fuel allFeatures) cur
          (DependencySelector.handleRemoveDependency deps featureId) allFeatures
        = Some r'
    ∧ valid r' = true ∧ errors r' = [].
Proof.
  intros Hr Hvalid.
  destruct (verdict_spec allFeatures cur deps) as (r0 & Hr0 & Hv & _).
  rewrite Hr in Hr0. injection Hr0 as <-.
  apply Hv in Hvalid as (Hc & Hnd & Hno).
  destruct (verdict_spec allFeatures cur
              (DependencySelector.handleRemoveDependency deps featureId))
    as (r' & Hr' & Hv' & He').
  exists r'. split; [done|].
  assert (valid r' = true) as Hvalid'; [|split; [done|by apply He']].
  apply Hv'. unfold DependencySelector.handleRemoveDependency.
  split; [|split].
  - intros [_ H]%list_elem_of_filter. done.
  - by apply NoDup_filter.
  - intros d [_ Hd]%list_elem_of_filter. by apply Hno.
Qed.

Lemma remove_keeps_valid_witness :
  validateDependencies
    (validation_fuel [createFeature "A" []; createFeature "B" []; createFeature "C" []])
    "A" ["B"; "C"]
    [createFeature "A" []; createFeature "B" []; createFeature "C" []]
  = Some (mkResult true [])
  ∧ valid (mkResult true []) = true
  ∧ ∃ r', validateDependencies
            (validation_fuel [createFeature "A" []; createFeature "B" [];
                              createFeature "C" []])
            "A" (DependencySelector.handleRemoveDependency ["B"; "C"] "B")
            [createFeature "A" []; createFeature "B" []; createFeature "C" []]
          = Some r'
      ∧ valid r' = true ∧ errors r' = [].
Proof.
  assert (validateDependencies
            (validation_fuel [createFeature "A" []; createFeature "B" [];
                              createFeature "C" []])
            "A" ["B"; "C"]
            [createFeature "A" []; createFeature "B" []; createFeature "C" []]
          = Some (mkResult true [])) as H by (vm_compute; reflexivity).
  split; [exact H|]. split; [reflexivity|].
  exact (remove_keeps_valid _ "A" "B" ["B"; "C"] _ H eq_refl).
Defined.

(** X4 — When the candidate itself is among the proposed dependencies, every
    other proposed dependency that has a record is reported as circular,
    whatever the graph: the other proposed ids, the candidate among them,
    are handed to the search as extra dependencies of the one examined. *)
Theorem self_dependency_flags_others (allFeatures : list Feature)
    (cur d : string) (deps : list string) :
  cur ∈ deps → d ∈ deps → d ≠ cur →
  is_Some (featureMap allFeatures !! d) →
  ∃ r, validateDependencies (validation_fuel allFeatures) cur deps allFeatures = Some r
    ∧ circular_error (depTitle_of d allFeatures) ∈ errors r.
Proof.
  intros Hc Hd Hne [f Hf]. eexists.
  split; [apply validate_spec; unfold validation_fuel; lia|]. simpl.
  apply elem_of_app. right. unfold circular_errors.
  apply list_elem_of_fmap. exists d. split; [done|].
  apply list_elem_of_filter. split; [|done]. split; [done|].
  unfold wouldCreateCircularDependency. rewrite decide_False by done.
  unfold validation_fuel. simpl.
  rewrite decide_False by set_solver. rewrite Hf.
  unfold includes. rewrite bool_decide_eq_true_2; [done|].
  apply elem_of_app. right. apply list_elem_of_filter. done.
Qed.

Lemma self_dependency_flags_others_witness :
  "A" ∈ ["A"; "B"] ∧ "B" ∈ ["A"; "B"] ∧ "B" ≠ "A"
  ∧ is_Some (featureMap [createFeature "A" []; createFeature "B" []] !! "B")
  ∧ ∃ r, validateDependencies
           (validation_fuel [createFeature "A" []; createFeature "B" []])
           "A" ["A"; "B"] [createFeature "A" []; createFeature "B" []] = Some r
      ∧ circular_error (depTitle_of "B" [createFeature "A" []; createFeature "B" []])
          ∈ errors r.
Proof.
  assert ("A" ∈ ["A"; "B"]) as H1 by apply list_elem_of_here.
  assert ("B" ∈ ["A"; "B"]) as H2
    by (apply list_elem_of_further, list_elem_of_here).
  assert ("B" ≠ "A") as H3 by discriminate.
  assert (is_Some (featureMap [createFeature "A" []; createFeature "B" []] !! "B"))
    as H4 by (vm_compute; eauto).
  split; [exact H1|]. split; [exact H2|]. split; [exact H3|]. split; [exact H4|].
  exact (self_dependency_flags_others _ "A" "B" ["A"; "B"] H1 H2 H3 H4).
Defined.

(** ** [wouldCreateCircularDependency] with existing dependencies *)

Section WouldExtra.
Variable fm : gmap string Feature.
Variable cur d : string.
Variable f : Feature.
Variable extra : list string.
Hypothesis d_known : fm !! d = Some f.
Hypothesis not_direct : cur ∉ deps_or_empty f ++ extra.

Lemma reach_avoiding_start n : ∀ l e,
  length l ≤ n → e ∈ deps_or_empty f ++ extra →
  chain (map_edge fm) e l cur →
  ∃ e', e' ∈ deps_or_empty f ++ extra ∧ avoiding fm {[d]} e' cur.
Proof.
  induction n as [|n IH]; intros l e Hlen He Hch.
  - destruct l; [|simpl in Hlen; lia].
    destruct (decide (e = d)) as [->|Hne].
    + destruct Hch as (f' & Hf' & Hin). rewrite d_known in Hf'.
      injection Hf' as <-. destruct not_direct. apply elem_of_app. by left.
    + exists e. split; [done|].
      apply (chain_avoiding fm cur 0 []); [done|done|set_solver|].
      intros x Hx. by apply elem_of_nil in Hx.
  - destruct (decide (d ∈ e :: l)) as [Hin|Hout].
    + assert (∃ l2, chain (map_edge fm) d l2 cur ∧ length l2 ≤ length l)
        as (l2 & Hch2 & Hlen2).
      { apply list_elem_of_split in Hin as (l1 & l2 & Heq).
        destruct l1 as [|e1 l1]; simpl in Heq; injection Heq as Heq1 Heq2; subst.
        - eexists. split; [exact Hch|lia].
        - exists l2. split; [by eapply chain_suffix|].
          rewrite length_app. simpl. lia. }
      destruct l2 as [|x l2].
      * destruct Hch2 as (f' & Hf' & Hin'). rewrite d_known in Hf'.
        injection Hf' as <-. destruct not_direct. apply elem_of_app. by left.
      * destruct Hch2 as [(f' & Hf' & Hx) Hch2]. rewrite d_known in Hf'.
        injection Hf' as <-. apply (IH l2 x); [simpl in Hlen2; lia| |done].
        apply elem_of_app. by left.
    + apply not_elem_of_cons in Hout as [Hne Hl]. exists e. split; [done|].
      apply (chain_avoiding fm cur (length l) l); [done|done|set_solver|].
      intros x Hx. assert (x ≠ d) by (by intros ->). set_solver.
Qed.

Lemma hasPath_complete_extra fuel e :
  size (dom fm) < fuel →
  e ∈ deps_or_empty f ++ extra →
  tc (map_edge fm) e cur →
  hasPathBetweenFeatures fuel d cur fm extra ∅ = Some true.
Proof.
  intros Hfuel He [l Hl]%tc_chain.
  destruct (reach_avoiding_start (length l) l e) as (e' & He' & Hav); [done..|].
  destruct (hasPath_enough fm cur fuel d extra ∅) as [b Hb].
  { by rewrite difference_empty_L. }
  rewrite Hb. f_equal. destruct b; [done|]. exfalso.
  destruct fuel as [|fuel]; [done|]. simpl in Hb.
  rewrite decide_False in Hb by set_solver. rewrite d_known in Hb.
  unfold includes in Hb. rewrite bool_decide_eq_false_2 in Hb by done.
  eapply first_true_false in Hb; [|exact He'].
  rewrite union_empty_r_L in Hb.
  by eapply (hasPath_complete fm cur {[d]} e' cur) in Hb.
Qed.

End WouldExtra.

Lemma would_exact_spec (allFeatures : list Feature) (cur d : string)
    (extra : list string) :
  ∃ b, wouldCreateCircularDependency (validation_fuel allFeatures) cur d
         allFeatures extra = Some b
    ∧ (b = true
       ↔ cur = d
         ∨ ∃ f e, featureMap allFeatures !! d = Some f
                  ∧ e ∈ deps_or_empty f ++ extra
                  ∧ (e = cur ∨ tc (map_edge (featureMap allFeatures)) e cur)).
Proof.
  destruct (would_enough allFeatures cur (validation_fuel allFeatures) d extra)
    as [b Hb]; [unfold validation_fuel; lia|].
  exists b. split; [done|]. split.
  - intros ->. revert Hb. unfold wouldCreateCircularDependency.
    destruct (decide (cur = d)); [by left|].
    intros (f & e & Hf & He & Hreach)%hasPath_sound. right. by exists f, e.
  - intros Hcase. revert Hb. unfold wouldCreateCircularDependency.
    destruct (decide (cur = d)) as [|Hne]; [by intros [= <-]|].
    destruct Hcase as [?|(f & e & Hf & He & Hreach)]; [done|].
    destruct (decide (cur ∈ deps_or_empty f ++ extra)) as [Hin|Hout].
    + unfold validation_fuel. simpl. rewrite decide_False by set_solver.
      rewrite Hf. unfold includes. rewrite bool_decide_eq_true_2 by done.
      by intros [= <-].
    + destruct Hreach as [->|Hreach]; [done|].
      rewrite (hasPath_complete_extra _ cur d f extra Hf Hout _ e); [by intros [= <-]| |done..].
      rewrite size_dom. pose proof (featureMap_size allFeatures).
      unfold validation_fuel. lia.
Qed.

(** X5 — What [wouldCreateCircularDependency] decides: it returns [true]
    exactly when the new dependency is the current feature itself, or has a
    record in the feature map and one of its dependencies, or one of the
    [existingDependencies] passed in, is the current feature or reaches it
    over the dependency lists of the map. *)
Theorem would_create_exact (allFeatures : list Feature) (cur d : string)
    (extra : list string) :
  ∃ b, wouldCreateCircularDependency (validation_fuel allFeatures) cur d
         allFeatures extra = Some b
    ∧ (b = true
       ↔ cur = d
         ∨ ∃ f e, featureMap allFeatures !! d = Some f
                  ∧ e ∈ deps_or_empty f ++ extra
                  ∧ (e = cur ∨ tc (map_edge (featureMap allFeatures)) e cur)).
Proof. apply would_exact_spec. Qed.

End ValidatorFacts.

(** ** The closures and the cycle check together *)

Module ClosureFacts.
Import DependencyValidation DependencyClosure ClosureProofs.

Lemma tc_first_edge (R : relation string) a c :
  tc R a c ↔ ∃ b, R a b ∧ (b = c ∨ tc R b c).
Proof.
  split.
  - inversion 1; subst; eauto.
  - intros (b & Hab & [->|Hbc]); [by apply tc_once|by eapply tc_l].
Qed.

(** X6 — The cycle check and the closure agree: adding [d] to the
    dependencies of [cur] is reported as circular exactly when [d] is [cur]
    or [cur] is among the transitive dependencies of [d]. *)
Theorem would_create_iff_dependency (allFeatures : list Feature) (cur d : string) :
  ∃ b l,
    wouldCreateCircularDependency (validation_fuel allFeatures) cur d allFeatures []
    = Some b
    ∧ getAllDependencies (dependencies_fuel allFeatures) d allFeatures = Some l
    ∧ (b = true ↔ cur = d ∨ cur ∈ l).
Proof.
  destruct (ValidatorFacts.would_exact_spec allFeatures cur d [])
    as (b & Hb & Hiff).
  destruct (getAllDependencies_spec (dependencies_fuel allFeatures) d allFeatures)
    as (l & Hl & _ & Hreach & _); [done|].
  exists b, l. split; [done|]. split; [done|].
  rewrite Hiff, Hreach, tc_first_edge.
  split; (intros [?|H]; [by left|right]).
  - destruct H as (f & e & Hf & He & Hr). rewrite app_nil_r in He.
    exists e. split; [by exists f|done].
  - destruct H as (e & (f & Hf & He) & Hr). exists f, e.
    rewrite app_nil_r. done.
Qed.

(** X7 — Both closures are transitively closed: the dependencies of a
    dependency are dependencies, and the dependents of a dependent are
    dependents. *)
Theorem closures_transitive (allFeatures : list Feature) (a b : string) :
  ∃ deps_a deps_b dependents_a dependents_b,
    getAllDependencies (dependencies_fuel allFeatures) a allFeatures = Some deps_a
    ∧ getAllDependencies (dependencies_fuel allFeatures) b allFeatures = Some deps_b
    ∧ getAllDependents (dependents_fuel allFeatures) a allFeatures = Some dependents_a
    ∧ getAllDependents (dependents_fuel allFeatures) b allFeatures = Some dependents_b
    ∧ (b ∈ deps_a → ∀ x, x ∈ deps_b → x ∈ deps_a)
    ∧ (b ∈ dependents_a → ∀ x, x ∈ dependents_b → x ∈ dependents_a).
Proof.
  destruct (getAllDependencies_spec (dependencies_fuel allFeatures) a allFeatures)
    as (la & Hla & _ & Hra & _); [done|].
  destruct (getAllDependencies_spec (dependencies_fuel allFeatures) b allFeatures)
    as (lb & Hlb & _ & Hrb & _); [done|].
  destruct (getAllDependents_spec (dependents_fuel allFeatures) a allFeatures)
    as (ka & Hka & _ & Hsa & _); [done|].
  destruct (getAllDependents_spec (dependents_fuel allFeatures) b allFeatures)
    as (kb & Hkb & _ & Hsb & _); [done|].
  exists la, lb, ka, kb. repeat (split; [done|]). split.
  - intros Hb x Hx. apply Hra. eapply tc_trans; [by apply Hra|by apply Hrb].
  - intros Hb x Hx. apply Hsa. eapply tc_trans; [by apply Hsb|by apply Hsa].
Qed.

(** X8 — The closures are empty exactly when there is nothing direct:
    [getAllDependencies] returns the empty list exactly when the feature map
    holds no record for the id or a record without dependencies, and
    [getAllDependents] exactly when no feature lists the id. *)
Theorem closures_empty (allFeatures : list Feature) (fid : string) :
  ∃ deps dependents,
    getAllDependencies (dependencies_fuel allFeatures) fid allFeatures = Some deps
    ∧ getAllDependents (dependents_fuel allFeatures) fid allFeatures = Some dependents
    ∧ (deps = []
       ↔ ∀ f, featureMap allFeatures !! fid = Some f → deps_or_empty f = [])
    ∧ (dependents = []
       ↔ ∀ f, f ∈ allFeatures → fid ∉ deps_or_empty f).
Proof.
  destruct (getAllDependencies_spec (dependencies_fuel allFeatures) fid allFeatures)
    as (l & Hl & _ & Hr & _); [done|].
  destruct (getAllDependents_spec (dependents_fuel allFeatures) fid allFeatures)
    as (k & Hk & _ & Hs & _); [done|].
  exists l, k. split; [done|]. split; [done|]. split; split.
  - intros -> f Hf. destruct (deps_or_empty f) as [|x xs] eqn:Hd; [done|].
    assert (x ∈ []) as Hx; [|by apply elem_of_nil in Hx].
    apply Hr, tc_once. exists f. split; [done|]. rewrite Hd. apply list_elem_of_here.
  - intros Hnone. destruct l as [|x l]; [done|].
    assert (tc (map_edge (featureMap allFeatures)) fid x) as Hx
      by (apply Hr, list_elem_of_here).
    apply tc_first_edge in Hx as (y & (f & Hf & Hy) & _).
    rewrite (Hnone f Hf) in Hy. by apply elem_of_nil in Hy.
  - intros -> f Hf Hin.
    assert (id f ∈ []) as Hx; [|by apply elem_of_nil in Hx].
    apply Hs, tc_once. by exists f.
  - intros Hnone. destruct k as [|x k]; [done|].
    assert (tc (depends_on allFeatures) x fid) as Hx
      by (apply Hs, list_elem_of_here).
    apply tc_unflip, tc_first_edge in Hx as (y & (f & Hf & _ & Hy) & _).
    by destruct (Hnone f Hf).
Qed.

(** X9 — Bounds on the closures: every transitive dependency is listed as
    a dependency by some feature and every transitive dependent is the id of
    a feature that lists dependencies, so the results are no longer than the
    number of listed dependencies and the number of features. *)
Theorem closures_bounded (allFeatures : list Feature) (fid : string) :
  ∃ deps dependents,
    getAllDependencies (dependencies_fuel allFeatures) fid allFeatures = Some deps
    ∧ getAllDependents (dependents_fuel allFeatures) fid allFeatures = Some dependents
    ∧ (∀ x, x ∈ deps → ∃ f, f ∈ allFeatures ∧ x ∈ deps_or_empty f)
    ∧ (∀ x, x ∈ dependents →
            ∃ f, f ∈ allFeatures ∧ id f = x ∧ deps_or_empty f ≠ [])
    ∧ length deps ≤ length (listed_dependencies allFeatures)
    ∧ length dependents ≤ length allFeatures.
Proof.
  destruct (getAllDependencies_spec (dependencies_fuel allFeatures) fid allFeatures)
    as (l & Hl & _ & Hr & Hnd); [done|].
  destruct (getAllDependents_spec (dependents_fuel allFeatures) fid allFeatures)
    as (k & Hk & _ & Hs & Hnd'); [done|].
  exists l, k. split; [done|]. split; [done|].
  assert (∀ x, x ∈ l → ∃ f, f ∈ allFeatures ∧ x ∈ deps_or_empty f) as Hdeps.
  { intros x Hx%Hr. apply tc_unflip, tc_first_edge in Hx
      as (y & (f & [Hf _]%featureMap_lookup_Some & Hy) & _).
    by exists f. }
  assert (∀ x, x ∈ k → ∃ f, f ∈ allFeatures ∧ id f = x ∧ deps_or_empty f ≠ [])
    as Hdependents.
  { intros x Hx%Hs. apply tc_first_edge in Hx as (y & (f & Hf & Hid & Hy) & _).
    exists f. split; [done|]. split; [done|]. intros Hnil.
    rewrite Hnil in Hy. by apply elem_of_nil in Hy. }
  split; [done|]. split; [done|]. split.
  - apply submseteq_length, NoDup_submseteq; [done|].
    intros x (f & Hf & Hx)%Hdeps. unfold listed_dependencies.
    apply list_elem_of_bind. by exists f.
  - rewrite <-(length_fmap id allFeatures).
    apply submseteq_length, NoDup_submseteq; [done|].
    intros x (f & Hf & <- & _)%Hdependents. by apply list_elem_of_fmap_2.
Qed.

End ClosureFacts.

(** ** The dependency selector *)

Module SelectorFacts.
Import DependencyValidation DependencySelector ValidationProofs.

Lemma produced_clean cur selected :
  produced cur selected → NoDup selected ∧ cur ∉ selected.
Proof.
  induction 1 as [|selected allFeatures f _ [Hnd Hc] Hf
                  |selected allFeatures f _ [Hnd Hc] _].
  - split; [apply NoDup_nil_2|apply not_elem_of_nil].
  - unfold availableFeatures in Hf. apply list_elem_of_filter in Hf as [Hf _].
    apply andb_true_iff in Hf as [Hf _]. apply andb_true_iff in Hf as [H1 H2].
    apply negb_true_iff, bool_decide_eq_false in H1.
    apply negb_true_iff in H2. unfold includes in H2.
    apply bool_decide_eq_false in H2.
    unfold handleAddDependency. split.
    + apply NoDup_app. split; [done|]. split; [|apply NoDup_singleton].
      intros x Hx ->%list_elem_of_singleton. done.
    + intros [?|Hin%list_elem_of_singleton]%elem_of_app; [done|]. by subst.
  - unfold handleRemoveDependency. split; [by apply NoDup_filter|].
    intros [_ ?]%list_elem_of_filter. done.
Qed.

(** X10 — A selection built in the selector, starting empty, by adding
    offered features and removing displayed ones, never holds the current
    feature and never holds an id twice, so [validateDependencies] reports
    neither a self-dependency nor a duplicate for it. *)
Theorem produced_selection_clean (allFeatures : list Feature) (cur : string)
    (selected : list string) :
  produced cur selected →
  NoDup selected ∧ (cur ∉ selected)
  ∧ ∃ r, validateDependencies (validation_fuel allFeatures) cur selected allFeatures
         = Some r
      ∧ (self_dependency_error ∉ errors r) ∧ (duplicate_error ∉ errors r).
Proof.
  intros [Hnd Hc]%produced_clean. split; [done|]. split; [done|].
  eexists. split; [apply validate_spec; unfold validation_fuel; lia|]. simpl.
  rewrite (proj2 (ValidatorFacts.base_errors_nil cur selected)) by done. simpl.
  split.
  - apply not_in_circular_errors, circular_error_not_self.
  - apply not_in_circular_errors, circular_error_not_duplicate.
Qed.

Lemma produced_selection_clean_witness :
  produced "A" ["B"]
  ∧ NoDup ["B"] ∧ ("A" ∉ ["B"])
  ∧ ∃ r, validateDependencies
           (validation_fuel [createFeature "A" []; createFeature "B" []])
           "A" ["B"] [createFeature "A" []; createFeature "B" []] = Some r
      ∧ (self_dependency_error ∉ errors r) ∧ (duplicate_error ∉ errors r).
Proof.
  assert (produced "A" ["B"]) as H.
  { apply (produced_add "A" [] [createFeature "A" []; createFeature "B" []]
             (createFeature "B" [])); [apply produced_empty|].
    vm_compute. apply list_elem_of_here. }
  split; [exact H|].
  exact (produced_selection_clean [createFeature "A" []; createFeature "B" []]
           "A" ["B"] H).
Defined.

Lemma find_feature_Some i allFeatures f :
  find_feature i allFeatures = Some f → f ∈ allFeatures ∧ id f = i.
Proof.
  unfold find_feature. intros [Hin Hid]%find_some.
  apply list_elem_of_In in Hin. by apply bool_decide_eq_true in Hid.
Qed.

Lemma find_feature_None i allFeatures :
  find_feature i allFeatures = None ↔ i ∉ id <$> allFeatures.
Proof.
  unfold find_feature. induction allFeatures as [|f l IH]; simpl.
  - split; [intros _; apply not_elem_of_nil|done].
  - case_bool_decide as Hid.
    + split; [done|]. intros H. destruct H. rewrite <-Hid. apply list_elem_of_here.
    + rewrite IH, not_elem_of_cons. split; [by intros ?; split|by intros [_ ?]].
Qed.

(** X11 — [selectedFeatures] shows, in selection order, exactly the selected
    ids that some feature carries: ids without a record are dropped without
    notice, every shown record is one of [allFeatures], and when every
    selected id has a record the shown ids are the selection itself. *)
Theorem selected_features_ids (allFeatures : list Feature) (selected : list string) :
  id <$> selectedFeatures allFeatures selected
  = filter (λ i, i ∈ id <$> allFeatures) selected
  ∧ (∀ f, f ∈ selectedFeatures allFeatures selected → f ∈ allFeatures)
  ∧ length (selectedFeatures allFeatures selected) ≤ length selected
  ∧ ((∀ i, i ∈ selected → i ∈ id <$> allFeatures) →
     id <$> selectedFeatures allFeatures selected = selected).
Proof.
  assert (id <$> selectedFeatures allFeatures selected
          = filter (λ i, i ∈ id <$> allFeatures) selected) as Hids.
  { unfold selectedFeatures. induction selected as [|i l IH]; [done|].
    cbn [omap list_omap].
    destruct (find_feature i allFeatures) as [f|] eqn:Hf.
    - pose proof Hf as [Hin Hid]%find_feature_Some.
      rewrite filter_cons_True by (rewrite <-Hid; by apply list_elem_of_fmap_2).
      rewrite fmap_cons, IH. by rewrite Hid.
    - apply find_feature_None in Hf. by rewrite filter_cons_False. }
  split; [done|]. split; [|split].
  - unfold selectedFeatures. intros f (i & _ & Hf)%list_elem_of_omap.
    by apply find_feature_Some in Hf as [? _].
  - rewrite <-(length_fmap id), Hids. apply length_filter.
  - intros Hall. rewrite Hids. by apply SchedulerProofs.filter_all.
Qed.

End SelectorFacts.

(** ** The event emitter: subscriptions *)

Module EmitterFacts.
Import EventEmitter EmitterSpec EmitterHistory.

Lemma subscribe_NoDup callback subscribers :
  NoDup subscribers → NoDup (subscribe callback subscribers).
Proof.
  intros Hnd. unfold subscribe. destruct (decide (callback ∈ subscribers)); [done|].
  apply NoDup_app. split; [done|]. split; [|apply NoDup_singleton].
  intros x Hx ->%list_elem_of_singleton. done.
Qed.

Lemma subscribers_after_NoDup history : NoDup (subscribers_after history).
Proof.
  unfold subscribers_after.
  assert (∀ l, NoDup l → NoDup (foldl apply_call l history)) as H;
    [|apply H, NoDup_nil_2].
  induction history as [|c history IH]; intros l Hl; [done|]. simpl.
  apply IH. destruct c; simpl; [by apply subscribe_NoDup|by apply NoDup_filter].
Qed.

(** X12 — Subscribing is idempotent, and the function returned by
    [subscribe] undoes the subscription: for a callback that was not
    subscribed before, subscribing and then unsubscribing leaves the
    subscribers exactly as they were. *)
Theorem subscribe_unsubscribe_round_trip (callback : nat) (subscribers : list nat) :
  subscribe callback (subscribe callback subscribers) = subscribe callback subscribers
  ∧ (callback ∉ subscribers →
     unsubscribe callback (subscribe callback subscribers) = subscribers)
  ∧ unsubscribe callback (unsubscribe callback subscribers)
    = unsubscribe callback subscribers.
Proof.
  split; [|split].
  - unfold subscribe at 1. rewrite decide_True; [done|].
    apply EmitterClaims.subscribe_elem. by left.
  - intros Hout. unfold subscribe, unsubscribe. rewrite decide_False by done.
    rewrite filter_app, filter_cons_False, filter_nil, app_nil_r by (by intros H).
    apply SchedulerProofs.filter_all. by intros x Hx ->.
  - unfold unsubscribe. apply SchedulerProofs.filter_all.
    by intros x [? _]%list_elem_of_filter.
Qed.

Lemma live_entries_after history :
  live (entries_after history) = subscribers_after history.
Proof.
  unfold entries_after, subscribers_after.
  assert (∀ es l, live es = l →
            live (foldl apply_call_entries es history) = foldl apply_call l history)
    as H; [|by apply H].
  induction history as [|c history IH]; intros es l Hl; [done|]. cbn [foldl].
  apply IH. destruct c; cbn [apply_call_entries apply_call].
  - by rewrite EmitterClaims.live_add, Hl.
  - by rewrite EmitterClaims.live_delete, Hl.
Qed.

Lemma shrunk_refl es : shrunk es es.
Proof. unfold shrunk. induction es; constructor; auto. Qed.

Lemma shrunk_trans a b c : shrunk a b → shrunk b c → shrunk a c.
Proof.
  unfold shrunk. intros Hab. revert c.
  induction Hab as [|x y a b Hxy Hab IH]; intros c Hbc.
  - by inversion Hbc.
  - inversion Hbc as [|y' z b' c' Hyz Hbc']; subst. constructor; [|by apply IH].
    destruct Hxy as [-> | ->]; destruct Hyz as [-> | ->]; auto.
Qed.

Lemma shrunk_delete callback es : shrunk es (delete callback es).
Proof.
  unfold shrunk, delete. induction es as [|e es IH]; [constructor|].
  rewrite fmap_cons. constructor; [|done]. destruct (decide _); auto.
Qed.

Lemma shrunk_length a b : shrunk a b → length a = length b.
Proof. apply Forall2_length. Qed.

Lemma shrunk_drop index a b : shrunk a b → shrunk (drop index a) (drop index b).
Proof. apply Forall2_drop. Qed.

Lemma shrunk_live a b : shrunk a b → live b `sublist_of` live a.
Proof.
  unfold shrunk. induction 1 as [|x y a b Hxy Hab IH]; [constructor|].
  destruct Hxy as [-> | ->].
  - destruct x as [c|]; [|done].
    rewrite !EmitterClaims.live_cons_Some. by apply sublist_skip.
  - rewrite EmitterClaims.live_cons_None. destruct x as [c|]; [|done].
    rewrite EmitterClaims.live_cons_Some. by apply sublist_cons.
Qed.

Section Quiet.
Context {EventType Payload Error World : Type}.
Variable behaviour :
  nat → EventType → Payload → World → @Script EventType Payload Error World.
Variable console_error : Error → World → World.

Lemma run_script_quiet emit_rec
    (s : @Script EventType Payload Error World) w es inv :
  quiet s →
  ∃ w' es' c,
    run_script emit_rec s (mkState w es inv) = Some (mkState w' es' inv, c)
    ∧ shrunk es es'.
Proof.
  intros Hs. revert w es.
  induction Hs as [c|w' next Hs IH|callback next Hs IH]; intros w es.
  - exists w, es, c. split; [done|apply shrunk_refl].
  - cbn [run_script]. apply IH.
  - cbn [run_script]. unfold set_entries. cbn [world entries invoked].
    destruct (IH w w (delete callback es)) as (w' & es' & c & Hrun & Hshrunk).
    exists w', es', c. split; [done|].
    eapply shrunk_trans; [apply shrunk_delete|done].
Qed.

Lemma emit_loop_quiet fuel type payload orig index w es inv :
  (∀ cb, cb ∈ live orig → ∀ w, quiet (behaviour cb type payload w)) →
  shrunk orig es →
  length es - index < fuel →
  ∃ w' es' l,
    emit_loop behaviour console_error fuel type payload index (mkState w es inv)
    = Some (mkState w' es' (inv ++ l), Normal)
    ∧ shrunk es es'
    ∧ l `sublist_of` live (drop index es).
Proof.
  intros Hquiet. revert index w es inv.
  induction fuel as [|fuel IH]; intros index w es inv Horig Hfuel; [lia|].
  cbn [emit_loop entries]. destruct (es !! index) as [[callback|]|] eqn:Hl.
  - pose proof (lookup_lt_Some _ _ _ Hl) as Hlt.
    rewrite (drop_S _ _ _ Hl), EmitterClaims.live_cons_Some.
    unfold try_catch, called. cbn [world entries invoked].
    assert (callback ∈ live orig) as Hin.
    { eapply elem_of_sublist; [|by apply shrunk_live].
      by eapply EmitterClaims.live_lookup. }
    destruct (run_script_quiet
                (λ type' payload',
                   emit_loop behaviour console_error fuel type' payload' 0)
                (behaviour callback type payload w) w es (inv ++ [callback])
                (Hquiet callback Hin w))
      as (w1 & es1 & c & -> & Hshrunk).
    pose proof (shrunk_length _ _ Hshrunk) as Hlen.
    assert (∀ w2, ∃ w' es' l,
              emit_loop behaviour console_error fuel type payload (S index)
                (mkState w2 es1 (inv ++ [callback]))
              = Some (mkState w' es' (inv ++ l), Normal)
              ∧ shrunk es es'
              ∧ l `sublist_of` callback :: live (drop (S index) es)) as Hnext.
    { intros w2.
      destruct (IH (S index) w2 es1 (inv ++ [callback]))
        as (w' & es' & l & Hrun & Hshrunk' & Hsub);
        [by eapply shrunk_trans|lia|].
      exists w', es', (callback :: l). rewrite Hrun, <-app_assoc.
      split; [done|]. split; [by eapply shrunk_trans|].
      apply sublist_skip. etrans; [exact Hsub|].
      by apply shrunk_live, shrunk_drop. }
    destruct c as [|e]; [apply Hnext|].
    unfold set_world. cbn [world entries invoked]. apply Hnext.
  - pose proof (lookup_lt_Some _ _ _ Hl) as Hlt.
    rewrite (drop_S _ _ _ Hl), EmitterClaims.live_cons_None.
    apply IH; [done|lia].
  - exists w, es, []. rewrite app_nil_r. split; [done|].
    split; [apply shrunk_refl|apply sublist_nil_l].
Qed.

End Quiet.

(** X13 — Whatever calls were made on the emitter before, and however often
    a callback was subscribed: when the subscribed callbacks neither
    subscribe nor emit while [emit] runs (they may unsubscribe themselves
    or others), [emit] returns, calls each callback at most once, calls
    only callbacks that were subscribed when it was called, and leaves no
    callback subscribed that was not. *)
Theorem emit_calls_at_most_once {EventType Payload Error World : Type}
    (behaviour : nat → EventType → Payload → World
                 → @Script EventType Payload Error World)
    (console_error : Error → World → World)
    (type : EventType) (payload : Payload) (history : list Call) (w : World)
    (fuel : nat) :
  (∀ callback, callback ∈ subscribers_after history →
     ∀ w, quiet (behaviour callback type payload w)) →
  length (entries_after history) < fuel →
  ∃ st,
    emit behaviour console_error fuel type payload
      (mkState w (entries_after history) [])
    = Some (st, Normal)
    ∧ NoDup (invoked st)
    ∧ invoked st `sublist_of` subscribers_after history
    ∧ live (entries st) `sublist_of` subscribers_after history.
Proof.
  intros Hquiet Hfuel. rewrite <-live_entries_after in *.
  destruct (emit_loop_quiet behaviour console_error fuel type payload
              (entries_after history) 0 w (entries_after history) [])
    as (w' & es' & l & Hrun & Hshrunk & Hsub);
    [done|apply shrunk_refl|lia|].
  rewrite drop_0 in Hsub. eexists. split; [exact Hrun|].
  cbn [invoked entries app]. split; [|split; [done|by apply shrunk_live]].
  eapply sublist_NoDup; [|exact Hsub].
  rewrite live_entries_after. apply subscribers_after_NoDup.
Qed.

Lemma meddling_behaviour_quiet callback type payload log :
  quiet (meddling_behaviour callback type payload log).
Proof.
  unfold meddling_behaviour.
  destruct callback as [|[|callback]]; repeat constructor.
Qed.

Lemma emit_calls_at_most_once_witness :
  (∀ callback, callback ∈ subscribers_after [Subscribe 1; Subscribe 2; Subscribe 1] →
     ∀ w, quiet (meddling_behaviour callback "feature:updated" 0 w))
  ∧ length (entries_after [Subscribe 1; Subscribe 2; Subscribe 1]) < 3
  ∧ ∃ st,
      emit meddling_behaviour sample_console_error 3 "feature:updated" 0
        (mkState [] (entries_after [Subscribe 1; Subscribe 2; Subscribe 1]) [])
      = Some (st, Normal)
      ∧ NoDup (invoked st)
      ∧ invoked st `sublist_of` subscribers_after [Subscribe 1; Subscribe 2; Subscribe 1]
      ∧ live (entries st)
          `sublist_of` subscribers_after [Subscribe 1; Subscribe 2; Subscribe 1].
Proof.
  assert (∀ callback,
            callback ∈ subscribers_after [Subscribe 1; Subscribe 2; Subscribe 1] →
            ∀ w, quiet (meddling_behaviour callback "feature:updated" 0 w)) as H1.
  { intros callback _ w. apply meddling_behaviour_quiet. }
  assert (length (entries_after [Subscribe 1; Subscribe 2; Subscribe 1]) < 3) as H2.
  { vm_compute. lia. }
  split; [exact H1|]. split; [exact H2|].
  exact (emit_calls_at_most_once meddling_behaviour sample_console_error
           "feature:updated" 0 [Subscribe 1; Subscribe 2; Subscribe 1] [] 3 H1 H2).
Defined.

End EmitterFacts.

(** ** Strings *)

Module StringFacts.
Import Js.

Lemma append_cons (x : Ascii.ascii) (a b : string) :
  String x a +:+ b = String x (a +:+ b).
Proof. done. Qed.

Lemma append_empty_l (b : string) : EmptyString +:+ b = b.
Proof. done. Qed.

Lemma append_assoc (a b c : string) : (a +:+ b) +:+ c = a +:+ (b +:+ c).
Proof.
  induction a as [|x a IH]; [done|]. rewrite !append_cons. by f_equal.
Qed.

Lemma append_empty_r (a : string) : a +:+ EmptyString = a.
Proof. induction a as [|x a IH]; [done|]. rewrite append_cons. by f_equal. Qed.

Lemma length_append (a b : string) :
  String.length (a +:+ b) = String.length a + String.length b.
Proof.
  induction a as [|x a IH]; [done|]. rewrite append_cons. simpl. by f_equal.
Qed.

Lemma length_substring_start (n : nat) (s : string) :
  String.length (String.substring 0 n s) = n `min` String.length s.
Proof.
  revert n. induction s as [|c s IH]; intros [|n]; simpl; try done.
  by rewrite IH.
Qed.

Lemma includes_prefix (needle s : string) :
  String.prefix needle s = true → string_includes needle s = true.
Proof.
  intros H. destruct s; cbn [string_includes]; apply orb_true_iff; by left.
Qed.

End StringFacts.

(** ** Text and path helpers *)

Module UtilsFacts.
Import Js Utils StringFacts.

(** X14 — [normalizePath] yields a normal form: the result holds no
    backslash and has the length of the path, normalising twice is
    normalising once, and a path without a backslash is left as it is. *)
Theorem normalize_path_normal_form (p : string) :
  (backslash ∉ units (normalizePath p))
  ∧ String.length (normalizePath p) = String.length p
  ∧ normalizePath (normalizePath p) = normalizePath p
  ∧ (backslash ∉ units p → normalizePath p = p).
Proof.
  induction p as [|c p (IH1 & IH2 & IH3 & IH4)];
    cbn [normalizePath units String.length].
  { repeat split; try done. apply not_elem_of_nil. }
  split; [|split; [|split]].
  - apply not_elem_of_cons. split; [|done].
    case_bool_decide as Hc; [by vm_compute|]. congruence.
  - by rewrite IH2.
  - rewrite IH3. f_equal. destruct (decide (c = backslash)) as [->|Hc]; [reflexivity|].
    by rewrite !(bool_decide_eq_false_2 (c = backslash)).
  - intros [Hc Hp]%not_elem_of_cons. rewrite IH4 by done.
    by rewrite bool_decide_eq_false_2.
Qed.

Lemma not_false_path p : not_ p = false → ∃ s, p = Path s ∧ s ≠ EmptyString.
Proof. destruct p as [| |[|c s]]; try done. intros _. by eexists. Qed.

(** X15 — [pathsEqual] is an equivalence on all its arguments, [undefined],
    [null] and the empty string included; these three are equal to
    themselves only, and two non-empty paths are equal exactly when their
    normal forms are. *)
Theorem paths_equal_equivalence :
  (∀ p, pathsEqual p p = true)
  ∧ (∀ p q, pathsEqual p q = pathsEqual q p)
  ∧ (∀ p q r, pathsEqual p q = true → pathsEqual q r = true →
       pathsEqual p r = true)
  ∧ (∀ p q, not_ p = true → (pathsEqual p q = true ↔ p = q))
  ∧ (∀ a b, a ≠ EmptyString → b ≠ EmptyString →
       (pathsEqual (Path a) (Path b) = true ↔ normalizePath a = normalizePath b)).
Proof.
  assert (∀ p q, not_ p = true → (pathsEqual p q = true ↔ p = q)) as Hfalsy.
  { intros p q Hp. unfold pathsEqual. rewrite Hp. simpl.
    apply bool_decide_eq_true. }
  assert (∀ p q, pathsEqual p q = pathsEqual q p) as Hsym.
  { intros p q. unfold pathsEqual. rewrite (orb_comm (not_ q)).
    destruct (not_ p || not_ q).
    - apply bool_decide_ext. by split.
    - destruct p, q; try done. apply bool_decide_ext. by split. }
  assert (∀ a b, a ≠ EmptyString → b ≠ EmptyString →
       (pathsEqual (Path a) (Path b) = true ↔ normalizePath a = normalizePath b))
    as Hpaths.
  { intros [|c a] [|d b] Ha Hb; try done. unfold pathsEqual. simpl.
    apply bool_decide_eq_true. }
  split; [|split; [done|split; [|split; [done|done]]]].
  - intros p. destruct (not_ p) eqn:Hp; [by apply Hfalsy|].
    apply not_false_path in Hp as (s & -> & Hs). by apply Hpaths.
  - intros p q r Hpq Hqr.
    destruct (not_ p) eqn:Hp.
    { apply (Hfalsy p q Hp) in Hpq. by subst q. }
    destruct (not_ q) eqn:Hq.
    { rewrite Hsym in Hpq. apply (Hfalsy q p Hq) in Hpq. subst q. congruence. }
    destruct (not_ r) eqn:Hr.
    { rewrite Hsym in Hqr. apply (Hfalsy r q Hr) in Hqr. subst q. congruence. }
    apply not_false_path in Hp as (a & -> & Ha).
    apply not_false_path in Hq as (b & -> & Hb).
    apply not_false_path in Hr as (c & -> & Hc).
    apply Hpaths in Hpq; [|done..]. apply Hpaths in Hqr; [|done..].
    apply Hpaths; [done..|]. congruence.
Qed.

(** X16 — For a [maxLength] that is not negative, [truncateDescription]
    returns a text of at most [maxLength + 3] units: a description that
    fits is returned as it is, a longer one is cut to its first
    [maxLength] units followed by three dots, which makes the result
    longer than the description when that exceeds [maxLength] by one or
    two units. *)
Theorem truncate_description_length (description : string) (maxLength : Z) :
  (0 ≤ maxLength)%Z →
  let r := truncateDescription description (Some maxLength) in
  let len := Z.of_nat (String.length description) in
  (Z.of_nat (String.length r) ≤ maxLength + 3)%Z
  ∧ ((len ≤ maxLength)%Z → r = description)
  ∧ ((maxLength < len)%Z →
     r = String.substring 0 (Z.to_nat maxLength) description +:+ "..."
     ∧ (Z.of_nat (String.length r) = maxLength + 3)%Z)
  ∧ ((maxLength < len)%Z → (len < maxLength + 3)%Z →
     (len < Z.of_nat (String.length r))%Z).
Proof.
  intros Hmax r len.
  assert ((maxLength < len)%Z →
     r = String.substring 0 (Z.to_nat maxLength) description +:+ "..."
     ∧ (Z.of_nat (String.length r) = maxLength + 3)%Z) as Hlong.
  { intros Hlt. subst r len. unfold truncateDescription. simpl.
    rewrite (proj2 (Z.leb_gt _ _)) by done.
    unfold slice_from_start. rewrite (proj2 (Z.ltb_ge _ _)) by done.
    rewrite Z.min_l by lia. split; [done|].
    rewrite length_append, length_substring_start. simpl. lia. }
  assert ((len ≤ maxLength)%Z → r = description) as Hshort.
  { intros Hle. subst r len. unfold truncateDescription. simpl.
    by rewrite (proj2 (Z.leb_le _ _)). }
  split; [|split; [done|split; [done|]]].
  - destruct (decide (len ≤ maxLength)%Z) as [Hle|Hgt].
    + rewrite (Hshort Hle). subst len. lia.
    + destruct Hlong as [_ ->]; lia.
  - intros Hlt Hnear. destruct (Hlong Hlt) as [_ ->]. lia.
Qed.

Lemma truncate_description_length_witness :
  (0 ≤ 4)%Z
  ∧ let r := truncateDescription "abcdef" (Some 4%Z) in
    let len := Z.of_nat (String.length "abcdef") in
    (Z.of_nat (String.length r) ≤ 4 + 3)%Z
    ∧ ((len ≤ 4)%Z → r = "abcdef")
    ∧ ((4 < len)%Z →
       r = String.substring 0 (Z.to_nat 4) "abcdef" +:+ "..."
       ∧ (Z.of_nat (String.length r) = 4 + 3)%Z)
    ∧ ((4 < len)%Z → (len < 4 + 3)%Z → (len < Z.of_nat (String.length r))%Z).
Proof.
  assert (0 ≤ 4)%Z as H by lia.
  split; [exact H|]. exact (truncate_description_length "abcdef" 4 H).
Defined.

End UtilsFacts.

(** ** Selection state of a board column *)

Module KanbanFacts.
Import KanbanColumn.

Lemma filter_length_all {A} (P : A → Prop) `{∀ x, Decision (P x)} (l : list A) :
  length (filter P l) = length l ↔ ∀ x, x ∈ l → P x.
Proof.
  induction l as [|a l IH].
  - split; [intros _ x Hx; by apply elem_of_nil in Hx|done].
  - pose proof (length_filter P l) as Hle.
    destruct (decide (P a)) as [Ha|Ha].
    + rewrite filter_cons_True by done. simpl. split.
      * intros Hlen x [->|Hx]%elem_of_cons; [done|]. apply IH; [lia|done].
      * intros Hall. f_equal. apply IH. intros x Hx. apply Hall. by right.
    + rewrite filter_cons_False by done. simpl. split; [lia|].
      intros Hall. destruct Ha. apply Hall. by left.
Qed.

Lemma filter_length_none {A} (P : A → Prop) `{∀ x, Decision (P x)} (l : list A) :
  length (filter P l) = 0 ↔ ∀ x, x ∈ l → ¬ P x.
Proof.
  rewrite length_zero_iff_nil. split.
  - intros Hnil x Hx HP.
    assert (x ∈ filter P l) as Hin by (by apply list_elem_of_filter).
    rewrite Hnil in Hin. by apply elem_of_nil in Hin.
  - intros Hall. induction l as [|a l IH]; [done|].
    rewrite filter_cons_False by (apply Hall; by left).
    apply IH. intros x Hx. apply Hall. by right.
Qed.

(** X17 — Of the three flags of [columnSelectionState] exactly one is set.
    [allSelected] holds exactly in selection mode for a column that has
    features which are all selected; [noneSelected] holds exactly outside
    selection mode or when no feature of the column is selected (an empty
    column included); and the checkbox is checked, indeterminate or
    unchecked as [allSelected], [someSelected] or [noneSelected] holds. *)
Theorem column_selection_state (isSelectionMode : bool)
    (featureIds selectedFeatureIds : list string) :
  let s := columnSelectionState isSelectionMode featureIds selectedFeatureIds in
  ((allSelected s, someSelected s, noneSelected s)
     ∈ [(true, false, false); (false, true, false); (false, false, true)])
  ∧ (allSelected s = true ↔
     isSelectionMode = true ∧ featureIds ≠ []
     ∧ ∀ fid, fid ∈ featureIds → fid ∈ selectedFeatureIds)
  ∧ (noneSelected s = true ↔
     isSelectionMode = false
     ∨ ∀ fid, fid ∈ featureIds → fid ∉ selectedFeatureIds)
  ∧ checkbox_state s
    = (if allSelected s then "checked"
       else if someSelected s then "indeterminate" else "unchecked").
Proof.
  intros s. subst s. unfold columnSelectionState.
  destruct isSelectionMode; cbn [negb orb].
  2:{ simpl. split; [solve [rewrite !elem_of_cons; naive_solver]|]. split; [|split; [|done]].
      - split; [done|by intros [? _]].
      - split; [by left|done]. }
  destruct featureIds as [|f ids].
  { simpl. split; [solve [rewrite !elem_of_cons; naive_solver]|]. split; [|split; [|done]].
    - split; [done|by intros (_ & ? & _)].
    - split; [|done]. intros _. right. intros fid Hfid.
      by apply elem_of_nil in Hfid. }
  set (ids' := f :: ids).
  replace (length ids' =? 0) with false by done. cbn [orb].
  set (P := λ fid : string, includes fid selectedFeatureIds = true).
  pose proof (filter_length_all P ids') as Hall.
  pose proof (filter_length_none P ids') as Hnone.
  pose proof (length_filter P ids') as Hle.
  assert (∀ fid, P fid ↔ fid ∈ selectedFeatureIds) as HP.
  { intros fid. unfold P, includes. apply bool_decide_eq_true. }
  cbn [allSelected someSelected noneSelected].
  assert (0 < length ids') as Hpos by (simpl; lia).
  split; [|split; [|split]].
  - assert (∀ n m, n ≤ m → 0 < m →
        ((n =? m), (0 <? n) && negb (n =? m), (n =? 0))
          ∈ [(true, false, false); (false, true, false); (false, false, true)])
      as Hflags; [|by apply Hflags].
    intros n m Hnm Hm.
    destruct (Nat.eqb_spec n m), (Nat.eqb_spec n 0), (Nat.ltb_spec 0 n);
      cbn [andb negb]; try lia; rewrite !elem_of_cons; auto.
  - rewrite Nat.eqb_eq, Hall. split.
    + intros H. split; [done|]. split; [done|]. intros fid Hfid.
      by apply HP, H.
    + intros (_ & _ & H) fid Hfid. by apply HP, H.
  - rewrite Nat.eqb_eq, Hnone. split.
    + intros H. right. intros fid Hfid Hsel%HP. by apply (H fid).
    + intros [?|H] fid Hfid Hsel%HP; [done|]. by apply (H fid).
  - unfold checkbox_state. cbn [allSelected someSelected noneSelected].
    destruct (length (filter P ids') =? length ids');
      by destruct (0 <? length (filter P ids')).
Qed.

End KanbanFacts.

(** ** Model resolution *)

Module ResolverFacts.
Import Js ModelResolver StringFacts.

Lemma own_property_elem record key v :
  own_property record key = Some v → (key, v) ∈ record.
Proof.
  induction record as [|[k w] rest IH]; cbn [own_property]; [done|].
  case_bool_decide as Hk.
  - intros [= ->]. subst k. apply list_elem_of_here.
  - intros H. apply list_elem_of_further. by apply IH.
Qed.

Lemma found_model key p m :
  found key p = Some (ModelString m) → p = Own m ∧ m ≠ EmptyString.
Proof. destruct p as [[|c v]| |]; try done. by intros [= <-]. Qed.

Lemma table_values_full k v :
  (k, v) ∈ CLAUDE_MODEL_MAP ++ CODEX_MODEL_MAP → full_model_string v = true.
Proof.
  unfold CLAUDE_MODEL_MAP, CODEX_MODEL_MAP. cbn [app].
  rewrite !elem_of_cons, elem_of_nil.
  intros H. repeat (destruct H as [[= -> ->]|H]; [by vm_compute|]). done.
Qed.

Lemma get_model ph record key m :
  found key (get ph record key) = Some (ModelString m) → (key, m) ∈ record.
Proof.
  intros [Hget _]%found_model. unfold get in Hget.
  destruct (own_property record key) as [v|] eqn:Hown.
  - injection Hget as ->. by apply own_property_elem.
  - by destruct (ph key).
Qed.

Lemma full_not_empty s : full_model_string s = true → s ≠ EmptyString.
Proof. by intros H ->. Qed.

Lemma resolve_full ph s d :
  full_model_string s = true → resolveModelString ph (Some s) d = ModelString s.
Proof.
  intros H. destruct s as [|c s]; [done|].
  unfold full_model_string in H. unfold resolveModelString.
  destruct (string_includes "claude-" (String c s)); [done|].
  cbn [orb] in H. by rewrite H.
Qed.

Lemma resolve_is_full ph modelKey defaultModel model :
  full_model_string (default DEFAULT_MODELS_claude defaultModel) = true →
  resolveModelString ph modelKey defaultModel = ModelString model →
  full_model_string model = true.
Proof.
  intros Hd. unfold resolveModelString.
  destruct modelKey as [[|c k]|]; [by intros [= <-]| |by intros [= <-]].
  destruct (string_includes "claude-" (String c k)) eqn:Hinc.
  { intros [= <-]. unfold full_model_string. by rewrite Hinc. }
  destruct (startsWith "gpt-" (String c k) || startsWith "codex-" (String c k))
    eqn:Hpre.
  { intros [= <-]. unfold full_model_string. rewrite Hinc. exact Hpre. }
  destruct (found (String c k) (get ph CLAUDE_MODEL_MAP (String c k)))
    as [r|] eqn:Hclaude.
  { intros ->. apply get_model in Hclaude.
    apply (table_values_full (String c k)), elem_of_app. by left. }
  destruct (found (String c k) (get ph CODEX_MODEL_MAP (String c k)))
    as [r|] eqn:Hcodex.
  { intros ->. apply get_model in Hcodex.
    apply (table_values_full (String c k)), elem_of_app. by right. }
  by intros [= <-].
Qed.

(** X18 — When the default is a full model string (it contains [claude-] or
    starts with [gpt-] or [codex-], as [DEFAULT_MODELS.claude] does), every
    string that [resolveModelString] or [getEffectiveModel] returns is a
    full model string, and resolving it again returns it unchanged. *)
Theorem resolved_model_is_full (prototype_has : string → bool)
    (defaultModel : option string) :
  full_model_string (default DEFAULT_MODELS_claude defaultModel) = true →
  (∀ modelKey model,
     resolveModelString prototype_has modelKey defaultModel = ModelString model →
     full_model_string model = true
     ∧ resolveModelString prototype_has (Some model) defaultModel
       = ModelString model)
  ∧ (∀ explicitModel sessionModel model,
       getEffectiveModel prototype_has explicitModel sessionModel defaultModel
       = ModelString model →
       full_model_string model = true
       ∧ ∀ sessionModel',
           getEffectiveModel prototype_has (Some model) sessionModel' defaultModel
           = ModelString model).
Proof.
  intros Hd. split.
  - intros modelKey model Hres.
    pose proof (resolve_is_full _ _ _ _ Hd Hres) as Hfull.
    split; [done|]. by apply resolve_full.
  - intros explicitModel sessionModel model Hres. unfold getEffectiveModel in Hres.
    pose proof (resolve_is_full _ _ _ _ Hd Hres) as Hfull.
    split; [done|]. intros sessionModel'. unfold getEffectiveModel.
    destruct model as [|c m]; [done|]. cbn [or_else]. by apply resolve_full.
Qed.

Lemma resolved_model_is_full_witness :
  full_model_string (default DEFAULT_MODELS_claude None) = true
  ∧ (∀ modelKey model,
       resolveModelString (λ _, false) modelKey None = ModelString model →
       full_model_string model = true
       ∧ resolveModelString (λ _, false) (Some model) None = ModelString model)
  ∧ (∀ explicitModel sessionModel model,
       getEffectiveModel (λ _, false) explicitModel sessionModel None
       = ModelString model →
       full_model_string model = true
       ∧ ∀ sessionModel',
           getEffectiveModel (λ _, false) (Some model) sessionModel' None
           = ModelString model).
Proof.
  assert (full_model_string (default DEFAULT_MODELS_claude None) = true) as H
    by reflexivity.
  split; [exact H|]. exact (resolved_model_is_full (λ _, false) None H).
Defined.

(** X19 — Every alias of [CLAUDE_MODEL_MAP] and of [CODEX_MODEL_MAP]
    resolves to the model string that its table gives, whatever the
    default and whatever [Object.prototype] holds: no alias is caught by
    the tests for full model strings in a way that changes its value. *)
Theorem aliases_resolve (prototype_has : string → bool)
    (defaultModel : option string) (alias model : string) :
  (alias, model) ∈ CLAUDE_MODEL_MAP ++ CODEX_MODEL_MAP →
  resolveModelString prototype_has (Some alias) defaultModel = ModelString model.
Proof.
  unfold CLAUDE_MODEL_MAP, CODEX_MODEL_MAP. cbn [app].
  rewrite !elem_of_cons, elem_of_nil.
  intros H. repeat (destruct H as [[= -> ->]|H]; [by vm_compute|]). done.
Qed.

Lemma aliases_resolve_witness :
  (("opus", "claude-opus-4-5-20251101") ∈ CLAUDE_MODEL_MAP ++ CODEX_MODEL_MAP)
  ∧ resolveModelString (λ _, false) (Some "opus") (Some "gpt-5.2")
    = ModelString "claude-opus-4-5-20251101".
Proof.
  assert (("opus", "claude-opus-4-5-20251101")
            ∈ CLAUDE_MODEL_MAP ++ CODEX_MODEL_MAP) as H.
  { apply (bool_decide_unpack _). vm_compute. exact I. }
  split; [exact H|].
  exact (aliases_resolve (λ _, false) (Some "gpt-5.2") "opus"
           "claude-opus-4-5-20251101" H).
Defined.

End ResolverFacts.

(** ** Model options *)

Module ModelOptionFacts.
Import Js ModelResolver ModelOptions.

(** X20 — The tables of the board view agree with each other and with the
    resolver.  For every option of [ALL_MODELS]: [getProviderFromModel]
    gives its [provider], [getModelDisplayName] its [label],
    [modelSupportsThinking] holds, and [resolveModelString] turns its id
    into a full model string that contains [claude-] exactly when the
    provider is [claude]. *)
Theorem model_options_consistent (prototype_has : string → bool)
    (defaultModel : option string) :
  Forall (λ o,
    getProviderFromModel (option_id o) = provider o
    ∧ getModelDisplayName prototype_has (option_id o) = ModelString (label o)
    ∧ modelSupportsThinking (Some (option_id o)) = true
    ∧ ∃ model,
        resolveModelString prototype_has (Some (option_id o)) defaultModel
        = ModelString model
        ∧ full_model_string model = true
        ∧ (string_includes "claude-" model = true ↔ provider o = claude))
    ALL_MODELS.
Proof.
  unfold ALL_MODELS, CLAUDE_MODELS, CODEX_MODELS. cbn [app].
  repeat (apply Forall_cons; split;
    [split; [by vm_compute|]; split; [by vm_compute|]; split; [by vm_compute|];
     eexists; split; [by vm_compute|]; split; [by vm_compute|];
     vm_compute; split; congruence|]).
  apply Forall_nil_2.
Qed.

End ModelOptionFacts.

(** ** Request handlers *)

Module CleanupFacts.
Import Js Handlers CleanupHandler.

(** X21 — The clean-up handler answers every request exactly once, as the
    last thing it does.  It calls [cleanupSessionsForProject] only with the
    non-empty string that the body gives as [projectPath]; an answer 400
    means that the service was not called; an answer 200 carries the count
    that the service returned; and a request without a body is answered
    500 with the message of the destructuring error. *)
Theorem cleanup_handler_outcomes (getErrorMessage : Thrown → string)
    (destructuring_error : Thrown)
    (getTerminalService : Thrown + (string → Thrown + nat)) (body : Body) :
  let trace := handler getErrorMessage destructuring_error getTerminalService body in
  (∃ status rb, responses trace = [Respond status rb]
                ∧ last trace = Some (Respond status rb))
  ∧ (∀ p, Cleanup p ∈ trace → body = Fields (VString p) ∧ p ≠ EmptyString)
  ∧ (∀ rb, Respond 400 rb ∈ trace → ∀ p, Cleanup p ∉ trace)
  ∧ (∀ n message, Respond 200 (CleanedBody n message) ∈ trace →
       ∃ p cleanupSessionsForProject,
         body = Fields (VString p)
         ∧ getTerminalService = inr cleanupSessionsForProject
         ∧ cleanupSessionsForProject p = inr n
         ∧ message = cleaned_message n p)
  ∧ (body = NoBody →
     Respond 500 (ErrorBody (getErrorMessage destructuring_error)) ∈ trace).
Proof.
  intros trace. subst trace. unfold handler.
  destruct body as [|projectPath].
  { unfold failed. split; [by eexists _, _|].
    repeat split; intros; rewrite ?elem_of_cons, ?elem_of_nil in *; naive_solver. }
  destruct (nonempty_string projectPath) as [p|] eqn:Hp.
  2:{ split; [by eexists _, _|].
      repeat split; intros; rewrite ?elem_of_cons, ?elem_of_nil in *; naive_solver. }
  assert (projectPath = VString p ∧ p ≠ EmptyString) as [-> Hne].
  { destruct projectPath as [| | | |[|c s]|]; try done.
    injection Hp as <-. done. }
  destruct getTerminalService as [e|cleanup].
  { unfold failed. split; [by eexists _, _|].
    repeat split; intros; rewrite ?elem_of_cons, ?elem_of_nil in *; naive_solver. }
  destruct (cleanup p) as [e|n] eqn:Hclean.
  { unfold failed. split; [by eexists _, _|].
    repeat split; intros; rewrite ?elem_of_cons, ?elem_of_nil in *; naive_solver. }
  split; [by eexists _, _|].
  repeat split; intros; rewrite ?elem_of_cons, ?elem_of_nil in *; naive_solver.
Qed.

End CleanupFacts.

Module GenerateTitleFacts.
Import Js Handlers GenerateTitle StreamText StringFacts.

Lemma append_blocks_text responseText blocks :
  append_blocks responseText blocks
  = responseText +:+ foldr (λ block rest, block_text block +:+ rest) EmptyString blocks.
Proof.
  unfold append_blocks. revert responseText.
  induction blocks as [|block blocks IH]; intros responseText; cbn [foldl foldr].
  { by rewrite append_empty_r. }
  rewrite IH. unfold block_text at 2.
  destruct (text block) as [[|c rest]|]; cbn [default];
    case_bool_decide; by rewrite <-?append_assoc, ?append_empty_r.
Qed.

Lemma extract_step_text responseText msg :
  extract_step responseText msg
  = match final_result msg with
    | Some r => r
    | None => responseText +:+ assistant_text msg
    end.
Proof.
  unfold extract_step, final_result, assistant_text, result_or.
  destruct (decide (type msg = "assistant")) as [Ha|Ha].
  - rewrite (bool_decide_eq_true_2 _ Ha).
    rewrite (bool_decide_eq_false_2 (type msg = "result")) by (by rewrite Ha).
    cbn [andb]. destruct (content msg) as [blocks|]; cbn [default foldr].
    + apply append_blocks_text.
    + by rewrite append_empty_r.
  - rewrite (bool_decide_eq_false_2 _ Ha), append_empty_r.
    destruct (bool_decide (type msg = "result")
              && bool_decide (subtype msg = Some "success")); [|done].
    by destruct (result msg) as [[|c rest]|].
Qed.

Lemma extract_foldl responseText stream :
  (∀ m, m ∈ stream → final_result m = None) →
  foldl extract_step responseText stream = responseText +:+ stream_text stream.
Proof.
  revert responseText.
  induction stream as [|m stream IH]; intros responseText Hnone; cbn [foldl].
  { unfold stream_text. cbn [foldr]. by rewrite append_empty_r. }
  rewrite IH by (intros m' Hm'; apply Hnone; by right).
  rewrite extract_step_text, (Hnone m) by (by left).
  unfold stream_text. cbn [foldr]. by rewrite append_assoc.
Qed.

(** X22 — [extractTextFromStream] returns the last non-empty successful
    result of the stream followed by the assistant text that arrives after
    it; the text before that result is dropped.  Without such a result it
    returns the text blocks of the assistant messages in order. *)
Theorem extract_text_from_stream :
  (∀ stream, (∀ m, m ∈ stream → final_result m = None) →
     extractTextFromStream stream = stream_text stream)
  ∧ (∀ before msg after r,
       final_result msg = Some r →
       (∀ m, m ∈ after → final_result m = None) →
       extractTextFromStream (before ++ msg :: after) = r +:+ stream_text after).
Proof.
  split.
  - intros stream Hnone. unfold extractTextFromStream.
    by rewrite extract_foldl.
  - intros before msg after r Hr Hnone. unfold extractTextFromStream.
    rewrite foldl_app. cbn [foldl].
    rewrite extract_foldl by done. by rewrite extract_step_text, Hr.
Qed.

Lemma quote_not_white q : is_quote q = true → is_white_space q = false.
Proof.
  unfold is_quote, is_white_space.
  intros [H|H]%orb_true_iff; apply bool_decide_eq_true in H; by rewrite H.
Qed.

Lemma trimStart_white before s :
  white before → trimStart (before +:+ s) = trimStart s.
Proof.
  unfold white.
  induction before as [|c before IH]; cbn [units]; [done|].
  intros [Hc Hrest]%Forall_cons. rewrite append_cons. cbn [trimStart].
  rewrite Hc. by apply IH.
Qed.

Lemma trimEnd_white after : white after → trimEnd after = EmptyString.
Proof.
  unfold white.
  induction after as [|c after IH]; cbn [units]; [done|].
  intros [Hc Hrest]%Forall_cons. cbn [trimEnd]. by rewrite IH, Hc.
Qed.

Lemma trimEnd_append_white s after :
  white after → trimEnd (s +:+ after) = trimEnd s.
Proof.
  intros Hwhite. induction s as [|c s IH].
  - rewrite append_empty_l. by apply trimEnd_white.
  - rewrite append_cons. cbn [trimEnd]. by rewrite IH.
Qed.

Lemma trimEnd_last s c :
  is_white_space c = false → trimEnd (s +:+ String c EmptyString) = s +:+ String c EmptyString.
Proof.
  intros Hc. induction s as [|d s IH].
  - rewrite append_empty_l. cbn [trimEnd]. by rewrite Hc.
  - rewrite append_cons. cbn [trimEnd]. rewrite IH.
    destruct s; by rewrite ?append_empty_l, ?append_cons.
Qed.

Lemma strip_trailing_last s q :
  is_quote q = true → strip_trailing_quote (s +:+ String q EmptyString) = s.
Proof.
  intros Hq. induction s as [|d s IH].
  - rewrite append_empty_l. cbn [strip_trailing_quote]. by rewrite Hq.
  - rewrite append_cons. cbn [strip_trailing_quote]. rewrite IH.
    destruct s; by rewrite ?append_empty_l, ?append_cons.
Qed.

(** X23 — The title is cleaned of one pair of quotes: for a text that,
    between white space, starts with a quote and ends with a quote (single
    or double, not necessarily the same), [cleanTitle] returns exactly
    what stands between the two; quotes further inside are kept.  A text
    that is a single quote between white space gives the empty title. *)
Theorem clean_title_strips_quotes (q1 q2 : Ascii.ascii)
    (before inner after : string) :
  is_quote q1 = true → is_quote q2 = true → white before → white after →
  cleanTitle (before +:+ String q1 (inner +:+ String q2 after)) = inner
  ∧ cleanTitle (before +:+ String q1 after) = EmptyString.
Proof.
  intros Hq1 Hq2 Hbefore Hafter. unfold cleanTitle, trim.
  rewrite !trimStart_white by done. cbn [trimStart].
  rewrite (quote_not_white q1 Hq1). split.
  - replace (String q1 (inner +:+ String q2 after))
      with ((String q1 inner +:+ String q2 EmptyString) +:+ after)
      by (by rewrite append_assoc, !append_cons, append_empty_l).
    rewrite trimEnd_append_white by done.
    rewrite trimEnd_last by (by apply quote_not_white).
    rewrite append_cons. cbn [strip_leading_quote]. rewrite Hq1.
    by apply strip_trailing_last.
  - replace (String q1 after) with (String q1 EmptyString +:+ after) by done.
    rewrite trimEnd_append_white by done. cbn [trimEnd].
    rewrite (quote_not_white q1 Hq1). cbn [strip_leading_quote].
    by rewrite Hq1.
Qed.

Lemma clean_title_strips_quotes_witness :
  is_quote (Ascii.ascii_of_nat 34) = true
  ∧ is_quote (Ascii.ascii_of_nat 39) = true
  ∧ white " " ∧ white EmptyString
  ∧ cleanTitle (" " +:+ String (Ascii.ascii_of_nat 34)
                  ("Dark Mode" +:+ String (Ascii.ascii_of_nat 39) EmptyString))
    = "Dark Mode"
  ∧ cleanTitle (" " +:+ String (Ascii.ascii_of_nat 34) EmptyString) = EmptyString.
Proof.
  assert (is_quote (Ascii.ascii_of_nat 34) = true) as H1 by reflexivity.
  assert (is_quote (Ascii.ascii_of_nat 39) = true) as H2 by reflexivity.
  assert (white " ") as H3 by (by repeat constructor).
  assert (white EmptyString) as H4 by constructor.
  split; [exact H1|]. split; [exact H2|]. split; [exact H3|]. split; [exact H4|].
  exact (clean_title_strips_quotes _ _ " " "Dark Mode" EmptyString H1 H2 H3 H4).
Defined.

Lemma nonempty_string_Some v p :
  nonempty_string v = Some p → v = VString p ∧ p ≠ EmptyString.
Proof. destruct v as [| | | |[|c s]|]; try done. by intros [= <-]. Qed.

Lemma length_nonzero s : (String.length s =? 0) = false → s ≠ EmptyString.
Proof. by intros H ->. Qed.

Ltac trace_facts :=
  cbn [app]; repeat split; intros;
  rewrite ?elem_of_cons, ?elem_of_nil in *; naive_solver.

Section Outcomes.

Context (destructuring_error : Thrown) (to_string : Thrown → string).
Context (query : string → Thrown + Stream).
Context (update : string → string → string → option Thrown).

Lemma finish_trace projectPath featureId title :
  let trace := finish to_string update projectPath featureId title in
  (∃ status rb, responses trace = [Respond status rb]
                ∧ last trace = Some (Respond status rb))
  ∧ (∀ p f t, Update p f t ∈ trace →
       p = projectPath ∧ f = featureId ∧ Respond 200 (TitleBody t) ∈ trace)
  ∧ (∀ t, Respond 200 (TitleBody t) ∈ trace →
       t = cleanTitle title ∧ trim title ≠ EmptyString
       ∧ Update projectPath featureId t ∈ trace)
  ∧ (∀ rb, Respond 400 rb ∉ trace)
  ∧ (∀ prompt, Query prompt ∉ trace).
Proof.
  intros trace. subst trace. unfold finish.
  destruct (bool_decide (title = EmptyString) || (String.length (trim title) =? 0))
    eqn:Hempty.
  { split; [by eexists _, _|]. trace_facts. }
  apply orb_false_iff in Hempty as [_ Hlen%length_nonzero].
  destruct (update projectPath featureId (cleanTitle title));
    (split; [by eexists _, _|]); trace_facts.
Qed.

(** X24 — The title handler answers every request exactly once, as the last
    thing it does.  It asks the model only when the three fields are
    non-empty strings and the description is not blank, and then with the
    trimmed description; an answer 400 means that the model was not asked.
    It updates a feature only with the title that it then reports with
    status 200, for the project and feature of the request, and every
    answer 200 comes after such an update was tried.  A request without a
    body is answered 500. *)
Theorem generate_title_outcomes (body : Body) :
  let trace := handler destructuring_error to_string query update body in
  (∃ status rb, responses trace = [Respond status rb]
                ∧ last trace = Some (Respond status rb))
  ∧ (∀ prompt, Query prompt ∈ trace →
       ∃ p f d, body = Fields (VString p) (VString f) (VString d)
                ∧ p ≠ EmptyString ∧ f ≠ EmptyString ∧ trim d ≠ EmptyString
                ∧ prompt = title_prompt (trim d))
  ∧ (∀ rb, Respond 400 rb ∈ trace → ∀ prompt, Query prompt ∉ trace)
  ∧ (∀ p f t, Update p f t ∈ trace →
       Respond 200 (TitleBody t) ∈ trace
       ∧ ∃ d, body = Fields (VString p) (VString f) d)
  ∧ (∀ t, Respond 200 (TitleBody t) ∈ trace → ∃ p f, Update p f t ∈ trace)
  ∧ (body = NoBody →
     Respond 500 (ErrorBody (error_message destructuring_error)) ∈ trace).
Proof.
  intros trace. subst trace. unfold handler.
  destruct body as [|projectPath featureId description].
  { unfold failed. split; [by eexists _, _|]. trace_facts. }
  destruct (nonempty_string projectPath) as [p|] eqn:Hp.
  2:{ split; [by eexists _, _|]. trace_facts. }
  apply nonempty_string_Some in Hp as [-> Hp].
  destruct (nonempty_string featureId) as [f|] eqn:Hf.
  2:{ split; [by eexists _, _|]. trace_facts. }
  apply nonempty_string_Some in Hf as [-> Hf].
  destruct (nonempty_string description) as [d|] eqn:Hd.
  2:{ split; [by eexists _, _|]. trace_facts. }
  apply nonempty_string_Some in Hd as [-> Hd].
  destruct (String.length (trim d) =? 0) eqn:Hlen.
  { split; [by eexists _, _|]. trace_facts. }
  apply length_nonzero in Hlen.
  destruct (query (title_prompt (trim d))) as [e|stream].
  { unfold failed. split; [by eexists _, _|]. trace_facts. }
  destruct (thrown stream) as [e|].
  { unfold failed. split; [by eexists _, _|]. trace_facts. }
  pose proof (finish_trace p f (extractTextFromStream (delivered stream)))
    as (Hone & Hupdate & Hok & Hbad & Hquery).
  cbv zeta in Hone, Hupdate, Hok, Hbad, Hquery.
  set (rest := finish to_string update p f
                 (extractTextFromStream (delivered stream))) in *.
  split.
  { destruct Hone as (status & rb & Hresp & Hlast).
    exists status, rb. split.
    - unfold responses in *. rewrite !filter_cons_False by (by intros ?).
      exact Hresp.
    - destruct rest as [|e rest']; [done|]. exact Hlast. }
  split; [|split; [|split; [|split; [|done]]]].
  - intros prompt Hin. rewrite !elem_of_cons in Hin.
    destruct Hin as [[=]|[[= ->]|Hin]].
    + by eexists _, _, _.
    + by apply Hquery in Hin.
  - intros rb Hin. rewrite !elem_of_cons in Hin.
    destruct Hin as [[=]|[[=]|Hin]]. by apply Hbad in Hin.
  - intros p' f' t Hin. rewrite !elem_of_cons in Hin.
    destruct Hin as [[=]|[[=]|Hin]].
    apply Hupdate in Hin as (-> & -> & Hin). split; [|by eexists].
    rewrite !elem_of_cons. auto.
  - intros t Hin. rewrite !elem_of_cons in Hin.
    destruct Hin as [[=]|[[=]|Hin]].
    apply Hok in Hin as (_ & _ & Hin). exists p, f. rewrite !elem_of_cons. auto.
Qed.

End Outcomes.

(** X25 — Whether [featureLoader.update] succeeds or throws has no
    influence on the answer of the title handler: with the same request and
    the same model output, the handler sends the same response, and tries
    the same update. *)
Theorem update_failure_is_ignored (destructuring_error : Thrown)
    (to_string to_string' : Thrown → string)
    (query : string → Thrown + Stream)
    (update update' : string → string → string → option Thrown) (body : Body) :
  let trace := handler destructuring_error to_string query update body in
  let trace' := handler destructuring_error to_string' query update' body in
  responses trace = responses trace'
  ∧ (∀ p f t, Update p f t ∈ trace ↔ Update p f t ∈ trace')
  ∧ (∀ prompt, Query prompt ∈ trace ↔ Query prompt ∈ trace').
Proof.
  intros trace trace'. subst trace trace'. unfold handler.
  destruct body as [|projectPath featureId description]; [done|].
  destruct (nonempty_string projectPath) as [p|]; [|done].
  destruct (nonempty_string featureId) as [f|]; [|done].
  destruct (nonempty_string description) as [d|]; [|done].
  destruct (String.length (trim d) =? 0); [done|].
  destruct (query (title_prompt (trim d))) as [e|stream]; [done|].
  destruct (thrown stream) as [e|]; [done|].
  unfold finish.
  destruct (bool_decide (extractTextFromStream (delivered stream) = EmptyString)
            || (String.length (trim (extractTextFromStream (delivered stream)))
                  =? 0)); [done|].
  split.
  - by destruct (update _ _ _), (update' _ _ _).
  - split; intros; rewrite !elem_of_cons, !elem_of_app, !elem_of_cons, !elem_of_nil;
      destruct (update _ _ _), (update' _ _ _); naive_solver.
Qed.

End GenerateTitleFacts.
